(** * Flashcard learning algorithm (src/PS1/src/algorithm.ts)

    A shallow embedding of the six exported functions of [algorithm.ts]
    and the properties of the specification that concern them.

    - JavaScript strings are sequences of UTF-16 code units ([list N]).
    - Flashcards are objects compared by reference; a set of flashcards
      holds references ([CardRef]).
    - [Set] and [Map] objects are insertion ordered; they are lists of
      elements, resp. of entries, without repetition.
    - [update] mutates the objects it has just allocated; it is written over
      an explicit object store so that aliasing with its argument is visible.
    - JavaScript numbers are binary64 values.  Those that count or index
      are integer-valued and written as integers ([Z]), with the rounding of
      a sum written out; the two quotients of [computeProgress] are binary64
      values ([spec_float]).
    - A call either returns or throws ([Completion]). *)

From Stdlib Require Import ZArith NArith QArith Lia.
From Stdlib Require Import Ascii String SpecFloat.
From stdpp Require Import base decidable option numbers list.

Local Open Scope Z_scope.

(** ** JavaScript strings *)

Module JsString.

(** A string is its sequence of UTF-16 code units. *)
Definition jsstring := list N.

(** The code units of an ASCII literal. *)
Fixpoint lit (s : string) : jsstring :=
  match s with
  | EmptyString => []
  | String a rest => N_of_ascii a :: lit rest
  end.

Definition between (lo hi c : N) : bool := (lo <=? c)%N && (c <=? hi)%N.

(** The class [\s] of a regular expression without the [u] flag, which is
    also the set removed by [String.prototype.trim]: WhiteSpace and
    LineTerminator of ECMAScript. *)
Definition is_space (c : N) : bool :=
  between 9 13 c            (* TAB LF VT FF CR *)
  || (c =? 32)%N            (* SPACE *)
  || (c =? 160)%N           (* NO-BREAK SPACE *)
  || (c =? 5760)%N          (* U+1680 *)
  || between 8192 8202 c    (* U+2000 .. U+200A *)
  || (c =? 8232)%N          (* U+2028 LINE SEPARATOR *)
  || (c =? 8233)%N          (* U+2029 PARAGRAPH SEPARATOR *)
  || (c =? 8239)%N          (* U+202F *)
  || (c =? 8287)%N          (* U+205F *)
  || (c =? 12288)%N         (* U+3000 *)
  || (c =? 65279)%N.        (* U+FEFF *)

(** The class [[a-zA-Z]]. *)
Definition is_ascii_letter (c : N) : bool :=
  between 97 122 c || between 65 90 c.

Fixpoint drop_while (p : N -> bool) (s : jsstring) : jsstring :=
  match s with
  | [] => []
  | c :: rest => if p c then drop_while p rest else s
  end.

(** [s.trim()] *)
Definition trim (s : jsstring) : jsstring :=
  rev (drop_while is_space (rev (drop_while is_space s))).

(** [s.split(/\s+/)] for a non-empty [s], following the loop of
    [RegExp.prototype[Symbol.split]]: the scan position [q] advances over
    the string; a match of [\s+] at [q] is the longest run of white space
    starting there, it closes the pending substring [s[p..q)] and moves
    [p] to the end of the run; after the loop the pending substring
    [s[p..size)] is pushed.  [word] is the pending substring, [in_run]
    tells that the previous code unit belonged to the run just matched. *)
Fixpoint split_scan (word : jsstring) (in_run : bool) (s : jsstring)
  : list jsstring :=
  match s with
  | [] => [word]
  | c :: rest =>
      if is_space c
      then (if in_run then split_scan [] true rest
            else word :: split_scan [] true rest)
      else split_scan (word ++ [c]) false rest
  end.

(** On the empty string the pattern [\s+] does not match, and the result
    is the one-element array holding the string itself. *)
Definition split_ws (s : jsstring) : list jsstring :=
  match s with
  | [] => [[]]
  | _ => split_scan [] false s
  end.

(** [a.join(sep)] *)
Fixpoint join (sep : jsstring) (a : list jsstring) : jsstring :=
  match a with
  | [] => []
  | [w] => w
  | w :: rest => w ++ sep ++ join sep rest
  end.

(** [c.repeat(n)] for a one-unit string. *)
Definition repeat_unit (c : N) (n : Z) : jsstring := replicate (Z.to_nat n) c.

Definition str_length (s : jsstring) : Z := Z.of_nat (length s).

Definition underscore : N := 95.
Definition space : jsstring := [32%N].

End JsString.

Import JsString.

(** ** JavaScript numbers *)

(** A number is a binary64 value.  The operations on [spec_float] are
    those of IEEE 754 as the Standard Library specifies them, rounding to
    nearest with ties to even. *)
Module Binary64.

Definition prec : Z := 53.
Definition emax : Z := 1024.

(** The number nearest to an integer. *)
Definition of_Z (z : Z) : spec_float := binary_normalize prec emax z 0 false.

Definition add : spec_float -> spec_float -> spec_float := SFadd prec emax.
Definition mul : spec_float -> spec_float -> spec_float := SFmul prec emax.
Definition div : spec_float -> spec_float -> spec_float := SFdiv prec emax.

(** The number [0]. *)
Definition zero : spec_float := S754_zero false.

(** [x <= y] *)
Definition leb : spec_float -> spec_float -> bool := SFleb.

(** The rational that a finite number stands for, in lowest terms. *)
Definition value (x : spec_float) : option Q :=
  match x with
  | S754_zero _ => Some 0%Q
  | S754_finite s m e =>
      let n := if s then Z.neg m else Z.pos m in
      Some (Qred (if 0 <=? e then inject_Z (n * 2 ^ e)
                  else n # Z.to_pos (2 ^ (- e))))
  | _ => None
  end.

(** The integer-valued number nearest to an integer: up to 2^53 in
    magnitude every integer is a number; beyond, 53 bits are kept and the
    rest is rounded to nearest, a tie going to the even neighbour. *)
Definition round53 (z : Z) : Z :=
  let a := Z.abs z in
  if a <=? 2 ^ 53 then z
  else
    let e := Z.log2 a - 52 in
    let q := a / 2 ^ e in
    let r := a mod 2 ^ e in
    let half := 2 ^ (e - 1) in
    let q' := if r <? half then q
              else if half <? r then q + 1
              else if Z.even q then q else q + 1 in
    Z.sgn z * (q' * 2 ^ e).

(** The integer that an integer-valued number stands for. *)
Definition to_Z (x : spec_float) : option Z :=
  match x with
  | S754_zero _ => Some 0
  | S754_finite s m e =>
      if 0 <=? e then Some ((if s then Z.neg m else Z.pos m) * 2 ^ e)
      else if Z.pos m mod 2 ^ (- e) =? 0
           then Some ((if s then Z.neg m else Z.pos m) / 2 ^ (- e))
           else None
  | _ => None
  end.

End Binary64.

(** Bucket numbers, sizes and indices are integer-valued numbers; they are
    written as integers.  [a + b] on such numbers is the sum rounded to
    binary64; the sums of the program, of a bucket number and 1, are
    finite. *)
Definition js_add (a b : Z) : Z := Binary64.round53 (a + b).

(** ** Data model (flashcards.ts) *)

(** Modelled from the spec: the class [Flashcard] of flashcards.ts, which is
    not part of the sources at hand.  The fields are read only; [back] and
    [hint] may be absent ([undefined]). *)
Record Flashcard := {
  front : jsstring;
  back : option jsstring;
  hint : option jsstring;
  tags : list jsstring
}.

(** Modelled from the spec: the enumeration [AnswerDifficulty] of
    flashcards.ts, a fixed three-valued outcome of a review trial. *)
Inductive AnswerDifficulty := Wrong | Hard | Easy.

(** A flashcard held in a [Set] is a reference to the object. *)
Definition CardRef := nat.

(** ** getHint *)

(** The callback of [words.map(...)]. *)
Definition hint_word (word : jsstring) : jsstring :=
  if str_length word =? 0 then []
  else
    (* word.replace(/^[^a-zA-Z]*/, '')[0] || '' *)
    let firstLetter :=
      match drop_while (fun c => negb (is_ascii_letter c)) word with
      | [] => []
      | c :: _ => [c]
      end in
    firstLetter ++
      match firstLetter with
      | [] => []
      | _ => repeat_unit underscore (Z.max 0 (str_length word - 1))
      end.

(** The words of a non-empty answer, masked and joined. *)
Definition masked (b : jsstring) : jsstring :=
  join space (map hint_word (split_ws b)).

Definition getHint (card : Flashcard) : jsstring :=
  (* card.hint && card.hint.trim() !== "" : undefined and "" are falsy *)
  let explicit :=
    match hint card with
    | None | Some [] => None
    | Some h => if bool_decide (trim h = []) then None else Some h
    end in
  match explicit with
  | Some h => h
  | None =>
      (* !card.back *)
      match back card with
      | None | Some [] => []
      | Some b => masked b
      end
  end.

(** ** Sets and maps of JavaScript *)

(** A [Set<Flashcard>]: its elements in insertion order. *)
Definition JsSet := list CardRef.

Definition set_has (s : JsSet) (c : CardRef) : bool := bool_decide (c ∈ s).

(** [s.add(c)]: a new element goes last, a present one changes nothing. *)
Definition set_add (s : JsSet) (c : CardRef) : JsSet :=
  if set_has s c then s else s ++ [c].

(** [s.delete(c)] *)
Definition set_delete (s : JsSet) (c : CardRef) : JsSet :=
  List.filter (fun x => negb (bool_decide (x = c))) s.

Definition set_size (s : JsSet) : Z := Z.of_nat (length s).

(** [new Set(iterable)] *)
Definition set_of (elems : list CardRef) : JsSet := foldl set_add [] elems.

(** A [Map<number, V>]: its entries in insertion order. *)
Section JsMap.
Context {V : Type}.

Fixpoint map_get (m : list (Z * V)) (k : Z) : option V :=
  match m with
  | [] => None
  | (k', v) :: rest => if k' =? k then Some v else map_get rest k
  end.

Definition map_has (m : list (Z * V)) (k : Z) : bool :=
  match map_get m k with Some _ => true | None => false end.

(** [m.set(k, v)]: an existing key keeps its position. *)
Fixpoint map_set (m : list (Z * V)) (k : Z) (v : V) : list (Z * V) :=
  match m with
  | [] => [(k, v)]
  | (k', v') :: rest =>
      if k' =? k then (k', v) :: rest else (k', v') :: map_set rest k v
  end.

(** [new Map(entries)] *)
Definition map_of (entries : list (Z * V)) : list (Z * V) :=
  foldl (fun m e => map_set m e.1 e.2) [] entries.

Definition map_keys (m : list (Z * V)) : list Z := m.*1.
End JsMap.

(** The value of a [BucketMap]: bucket numbers with the cards they hold.
    The functions that only read their argument are written over it. *)
Definition BucketMap := list (Z * JsSet).

(** [Math.max(k, ...ks)] and [Math.min(k, ...ks)] *)
Definition math_max (k : Z) (ks : list Z) : Z := foldl Z.max k ks.
Definition math_min (k : Z) (ks : list Z) : Z := foldl Z.min k ks.

(** ** toBucketSets *)

(** What a call does: it returns a value or throws. *)
Inductive JsError := RangeError.

Inductive Completion (A : Type) :=
  | Returns (x : A)
  | Throws (e : JsError).
Arguments Returns {A} x.
Arguments Throws {A} e.

(** [ToLength]: a length below 0 counts as 0, one above 2^53 - 1 as
    2^53 - 1. *)
Definition to_length (n : Z) : Z :=
  if n <=? 0 then 0 else Z.min n (2 ^ 53 - 1).

(** [Array.from({ length }, f)]: the array is created with [new Array(len)],
    which throws a [RangeError] when [len] is not below 2^32; then [f] gives
    the element of each index. *)
Definition array_from {A} (length : Z) (f : Z -> A) : Completion (list A) :=
  let len := to_length length in
  if 2 ^ 32 <=? len then Throws RangeError
  else Returns (f <$> seqZ 0 len).

(** The argument has type [BucketMap], so the test [!buckets] is false. *)
Definition toBucketSets (buckets : BucketMap) : Completion (list JsSet) :=
  match map_keys buckets with
  | [] => Returns []                           (* buckets.size === 0 *)
  | k :: ks =>
      let maxBucketIndex := math_max k ks in
      array_from (js_add maxBucketIndex 1)
        (fun index =>
           match map_get buckets index with
           | Some bucketCards => set_of bucketCards
           | None => []
           end)
  end.

(** ** getBucketRange *)

Record BucketRange := { minBucket : Z; maxBucket : Z }.

(** The reducer, from position [index] on. *)
Fixpoint valid_from (index : Z) (buckets : list JsSet) (acc : list Z) : list Z :=
  match buckets with
  | [] => acc
  | set :: rest =>
      valid_from (index + 1) rest
        (if 0 <? set_size set then acc ++ [index] else acc)
  end.

Definition getBucketRange (buckets : list JsSet) : option BucketRange :=
  let validBuckets := valid_from 0 buckets [] in
  match validBuckets with
  | [] => None
  | i :: rest =>
      Some {| minBucket := math_min i rest; maxBucket := math_max i rest |}
  end.

(** ** practice *)

(** [cards.forEach(card => acc.add(card))] *)
Definition add_all (acc : JsSet) (cards : JsSet) : JsSet := foldl set_add acc cards.

(** The second [forEach], from position [index] on.  [%] is the remainder
    of the truncated division, [Z.rem]. *)
Fixpoint practice_from (day : Z) (index : Z) (buckets : list JsSet)
    (practiceBuckets : JsSet) : JsSet :=
  match buckets with
  | [] => practiceBuckets
  | bucket :: rest =>
      practice_from day (index + 1) rest
        (if (0 <? index) && (0 <? set_size bucket) && (Z.rem day index =? 0)
         then add_all practiceBuckets bucket
         else practiceBuckets)
  end.

Definition practice (buckets : list JsSet) (day : Z) : JsSet :=
  let practiceBuckets :=
    match buckets !! 0%nat with
    | Some b0 => add_all [] b0
    | None => []
    end in
  practice_from day 0 buckets practiceBuckets.

(** ** computeProgress *)

Record HistoryEntry := {
  card : CardRef;
  timestamp : Z;
  difficulty : AnswerDifficulty
}.

(** The numbers of the result.  The counts are sums of set sizes and are
    written as integers; [averageBucket] and [successRate] are the binary64
    numbers that the divisions of the program return. *)
Record Progress := {
  totalCards : Z;
  cardsPerBucket : list (Z * Z);
  averageBucket : spec_float;
  masteredCards : Z;
  successRate : spec_float
}.

Definition is_wrong (d : AnswerDifficulty) : bool :=
  match d with Wrong => true | _ => false end.

(** The counting loop; the state is [(cardsPerBucket, totalCards, bucketSum)].
    [bucketSum += bucket * count] is a binary64 product followed by a
    binary64 sum. *)
Definition count_step (st : list (Z * Z) * Z * spec_float) (e : Z * JsSet)
    : list (Z * Z) * Z * spec_float :=
  let '(cardsPerBucket, totalCards, bucketSum) := st in
  let '(bucket, cards) := e in
  let count := set_size cards in
  (map_set cardsPerBucket bucket count, totalCards + count,
   Binary64.add bucketSum
     (Binary64.mul (Binary64.of_Z bucket) (Binary64.of_Z count))).

Definition computeProgress (buckets : BucketMap) (history : list HistoryEntry)
    : Progress :=
  let '(cardsPerBucket, totalCards, bucketSum) :=
    foldl count_step ([], 0, Binary64.zero) buckets in
  let averageBucket :=
    if 0 <? totalCards
    then Binary64.div bucketSum (Binary64.of_Z totalCards)
    else Binary64.zero in
  let masteredCards :=
    foldl (fun sum e => if 3 <=? e.1 then sum + e.2 else sum) 0 cardsPerBucket in
  let successCount :=
    Z.of_nat (length (List.filter (fun entry => negb (is_wrong (difficulty entry)))
                                  history)) in
  let successRate :=
    if 0 <? Z.of_nat (length history)
    then Binary64.mul
           (Binary64.div (Binary64.of_Z successCount)
                         (Binary64.of_Z (Z.of_nat (length history))))
           (Binary64.of_Z 100)
    else Binary64.zero in
  {| totalCards := totalCards;
     cardsPerBucket := cardsPerBucket;
     averageBucket := averageBucket;
     masteredCards := masteredCards;
     successRate := successRate |}.

(** ** The object store *)

(** [Set] and [Map] objects live in a store and are named by their address,
    the position at which they were allocated.  A [BucketMap] object maps
    bucket numbers to addresses of [Set] objects. *)
Record Store := {
  sets : list JsSet;
  maps : list (list (Z * nat))
}.

(** Code that reads and writes the store. *)
Definition State (A : Type) : Type := Store -> A * Store.

Definition ret {A} (x : A) : State A := fun st => (x, st).

Definition bind {A B} (m : State A) (f : A -> State B) : State B :=
  fun st => let '(x, st') := m st in f x st'.

Declare Scope state_scope.
Delimit Scope state_scope with state.
Notation "'let*' x ':=' m 'in' k" := (bind m (fun x => k))
  (at level 10, x pattern, m at level 100, k at level 200) : state_scope.
Notation "m ';;' k" := (bind m (fun _ => k))
  (at level 100, k at level 200, right associativity) : state_scope.

Section StoreOps.
Local Open Scope state_scope.

(** [new Set(elems)] *)
Definition new_Set (elems : list CardRef) : State nat :=
  fun st => (length (sets st),
             {| sets := sets st ++ [set_of elems]; maps := maps st |}).

(** The elements of the set at address [a].  A reference always names an
    allocated object; the default stands for the case that cannot occur. *)
Definition set_elems (a : nat) : State JsSet :=
  fun st => (default [] (sets st !! a), st).

(** A method that mutates the set at address [a]. *)
Definition modify_set (a : nat) (f : JsSet -> JsSet) : State unit :=
  fun st => (tt, {| sets := alter f a (sets st); maps := maps st |}).

(** [new Map(entries)] *)
Definition new_Map (entries : list (Z * nat)) : State nat :=
  fun st => (length (maps st),
             {| sets := sets st; maps := maps st ++ [map_of entries] |}).

(** [Array.from(m.entries())] *)
Definition map_entries (m : nat) : State (list (Z * nat)) :=
  fun st => (default [] (maps st !! m), st).

(** A method that mutates the map at address [m]. *)
Definition modify_map (m : nat) (f : list (Z * nat) -> list (Z * nat))
  : State unit :=
  fun st => (tt, {| sets := sets st; maps := alter f m (maps st) |}).

(** [entries.map(([bucket, cards]) => [bucket, new Set(cards)])] *)
Fixpoint copy_entries (entries : list (Z * nat)) : State (list (Z * nat)) :=
  match entries with
  | [] => ret []
  | (bucket, cards) :: rest =>
      let* elems := set_elems cards in
      let* fresh := new_Set elems in
      let* rest' := copy_entries rest in
      ret ((bucket, fresh) :: rest')
  end.

(** The [for ... of] loop of [update]: the first set that has the card
    loses it, and its bucket number is the result. *)
Fixpoint remove_first (entries : list (Z * nat)) (c : CardRef)
  : State (option Z) :=
  match entries with
  | [] => ret None
  | (bucket, cards) :: rest =>
      let* elems := set_elems cards in
      if set_has elems c
      then modify_set cards (fun s => set_delete s c);; ret (Some bucket)
      else remove_first rest c
  end.

(** The [switch] on the difficulty; its [default] branch is not reached by
    a value of the enumeration. *)
Definition new_bucket (difficulty : AnswerDifficulty) (currentBucket : Z) : Z :=
  match difficulty with
  | Wrong => 0
  | Hard => currentBucket
  | Easy => js_add currentBucket 1
  end.

(** [new Map(Array.from(buckets.entries()).map(...))]: a deep copy of the
    buckets map. *)
Definition deep_copy (buckets : nat) : State nat :=
  let* entries := map_entries buckets in
  let* copied := copy_entries entries in
  new_Map copied.

(** Find and remove the card from its current bucket. *)
Definition find_and_remove (updatedBuckets : nat) (c : CardRef)
  : State (option Z) :=
  let* entries := map_entries updatedBuckets in
  remove_first entries c.

(** Ensure the new bucket exists. *)
Definition ensure_exists (updatedBuckets : nat) (newBucket : Z) : State unit :=
  let* entries := map_entries updatedBuckets in
  if map_has entries newBucket then ret tt
  else
    let* fresh := new_Set [] in
    modify_map updatedBuckets (fun m => map_set m newBucket fresh).

(** [updatedBuckets.get(newBucket)!.add(card)] *)
Definition add_card (updatedBuckets : nat) (newBucket : Z) (c : CardRef)
  : State unit :=
  let* entries := map_entries updatedBuckets in
  match map_get entries newBucket with
  | Some cards => modify_set cards (fun s => set_add s c)
  | None => ret tt
  end.

(** ** update *)
Definition update (buckets : nat) (c : CardRef) (difficulty : AnswerDifficulty)
  : State nat :=
  let* updatedBuckets := deep_copy buckets in
  let* found := find_and_remove updatedBuckets c in
  (* if the card is not found, start at bucket 0 *)
  let currentBucket := default 0 found in
  let newBucket := new_bucket difficulty currentBucket in
  ensure_exists updatedBuckets newBucket;;
  add_card updatedBuckets newBucket c;;
  ret updatedBuckets.
End StoreOps.

(** The value of the [BucketMap] object at address [m]. *)
Definition view (st : Store) (m : nat) : BucketMap :=
  (fun e => (e.1, default [] (sets st !! e.2))) <$> default [] (maps st !! m).

(** A store in which [m] is a [BucketMap] object: it is allocated, so are
    the sets it refers to, and its keys are pairwise different. *)
Definition bucket_map_at (st : Store) (m : nat) : Prop :=
  exists entries,
    maps st !! m = Some entries
    /\ NoDup (map_keys entries)
    /\ Forall (fun e => (e.2 < length (sets st))%nat) entries.

(** ** The hint rule in the words of the specification *)

Module HintRule.

(** An answer text seen as letters and gaps. *)
Inductive item := Gap | Unit (c : N).

Definition drop_gap (l : list item) : list item :=
  match l with
  | Gap :: t => t
  | _ => l
  end.

(** Every maximal run of white space is one gap. *)
Fixpoint runs (s : jsstring) : list item :=
  match s with
  | [] => []
  | c :: rest =>
      if is_space c then Gap :: drop_gap (runs rest) else Unit c :: runs rest
  end.

Definition extend (w : jsstring) (ws : list jsstring) : list jsstring :=
  match ws with
  | [] => [w]
  | x :: xs => (w ++ x) :: xs
  end.

(** The words between the gaps. *)
Fixpoint words (l : list item) : list jsstring :=
  match l with
  | [] => [[]]
  | Gap :: t => [] :: words t
  | Unit c :: t => extend [c] (words t)
  end.

(** The first alphabetic character of a word, if it has one. *)
Definition first_alphabetic (w : jsstring) : option N :=
  head (List.filter is_ascii_letter w).

(** The first letter followed by (word length - 1) underscores. *)
Definition token (w : jsstring) : jsstring :=
  match first_alphabetic w with
  | Some c => c :: replicate (length w - 1) underscore
  | None => []
  end.


End HintRule.

(** ** Notions of the specification *)

(** A card has no authored hint when the field is absent, empty or blank. *)
Definition no_authored_hint (card : Flashcard) : Prop :=
  match hint card with
  | None => True
  | Some h => trim h = []
  end.

(** The answer "élan": U+00E9 followed by "lan". *)
Definition elan : jsstring := 233%N :: lit "lan".

(** The dense sequence of a bucket map: one set for every index from 0 to
    the greatest key, a copy of the bucket of that number or an empty set. *)
Definition dense_sets (buckets : BucketMap) : list JsSet :=
  match map_keys buckets with
  | [] => []
  | k :: ks =>
      (fun index =>
         match map_get buckets index with
         | Some bucketCards => set_of bucketCards
         | None => []
         end) <$> seqZ 0 (math_max k ks + 1)
  end.

(** Index [k] of a dense bucket sequence holds a non-empty set. *)
Definition occupied (buckets : list JsSet) (k : Z) : Prop :=
  exists (j : nat) (b : JsSet),
    buckets !! j = Some b /\ b <> [] /\ k = Z.of_nat j.

(** Card [c] is in bucket [k] of a bucket map. *)
Definition in_bucket (m : BucketMap) (k : Z) (c : CardRef) : Prop :=
  exists cards, map_get m k = Some cards /\ c ∈ cards.

(** The bucket a card is found in, scanning the entries in order. *)
Fixpoint found_bucket (m : BucketMap) (c : CardRef) : option Z :=
  match m with
  | [] => None
  | (k, cards) :: rest =>
      if bool_decide (c ∈ cards) then Some k else found_bucket rest c
  end.

(** Each card occupies at most one bucket. *)
Definition one_bucket_per_card (m : BucketMap) : Prop :=
  forall (c : CardRef) (k1 k2 : Z),
    in_bucket m k1 c -> in_bucket m k2 c -> k1 = k2.

Definition Zsum (l : list Z) : Z := foldr Z.add 0 l.

(** The sum of the bucket set sizes. *)
Definition card_count (m : BucketMap) : Z :=
  Zsum ((fun e => set_size e.2) <$> m).

(** The sum of bucket number times count. *)
Definition weighted_count (m : BucketMap) : Z :=
  Zsum ((fun e => e.1 * set_size e.2) <$> m).

(** The same sum as the loop computes it: in binary64, from the number 0,
    one product and one sum for each entry, in the order of the entries. *)
Definition weighted_sum_from (sum : spec_float) (m : BucketMap) : spec_float :=
  foldl (fun sum e =>
           Binary64.add sum
             (Binary64.mul (Binary64.of_Z e.1) (Binary64.of_Z (set_size e.2))))
        sum m.

Definition weighted_sum (m : BucketMap) : spec_float :=
  weighted_sum_from Binary64.zero m.

(** The number of cards in buckets numbered 3 or more. *)
Definition mastered_count (m : BucketMap) : Z :=
  card_count (List.filter (fun e => 3 <=? e.1) m).

(** The number of history entries whose difficulty is not [Wrong]. *)
Fixpoint success_count (history : list HistoryEntry) : Z :=
  match history with
  | [] => 0
  | entry :: rest =>
      match difficulty entry with
      | Wrong => success_count rest
      | _ => 1 + success_count rest
      end
  end.

(** The percentage of history entries that are not [Wrong], as a rational;
    0 for the empty history. *)
Definition percentage (history : list HistoryEntry) : Q :=
  match history with
  | [] => 0%Q
  | _ => (inject_Z (100 * success_count history)
          / inject_Z (Z.of_nat (length history)))%Q
  end.

(** The same percentage as the program computes it: a binary64 quotient,
    then a binary64 product. *)
Definition success_rate (history : list HistoryEntry) : spec_float :=
  match history with
  | [] => Binary64.zero
  | _ => Binary64.mul
           (Binary64.div (Binary64.of_Z (success_count history))
                         (Binary64.of_Z (Z.of_nat (length history))))
           (Binary64.of_Z 100)
  end.

(** ** The value computed by [update] *)

(** The steps of [update] on the value of the map it builds; the theorems
    on the store relate [update] to them. *)

(** The copy of every entry. *)
Definition copy_value (M : BucketMap) : BucketMap :=
  (fun e => (e.1, set_of e.2)) <$> M.

(** The first set that has the card loses it. *)
Fixpoint remove_first_value (B : BucketMap) (c : CardRef) : BucketMap :=
  match B with
  | [] => []
  | (k, cards) :: rest =>
      if set_has cards c then (k, set_delete cards c) :: rest
      else (k, cards) :: remove_first_value rest c
  end.

Definition ensure_bucket (B : BucketMap) (k : Z) : BucketMap :=
  if map_has B k then B else map_set B k [].

Fixpoint add_to_bucket (B : BucketMap) (k : Z) (c : CardRef) : BucketMap :=
  match B with
  | [] => []
  | (k', cards) :: rest =>
      if k' =? k then (k', set_add cards c) :: rest
      else (k', cards) :: add_to_bucket rest k c
  end.

(** The bucket taken as the current one: the first that has the card, or 0. *)
Definition current_bucket (M : BucketMap) (c : CardRef) : Z :=
  default 0 (found_bucket M c).

Definition update_value (M : BucketMap) (c : CardRef) (d : AnswerDifficulty)
    : BucketMap :=
  let B := copy_value M in
  let newBucket := new_bucket d (current_bucket B c) in
  add_to_bucket (ensure_bucket (remove_first_value B c) newBucket) newBucket c.

(** The store [old] extended by a new map of value [B] and by its sets. *)
Definition extend_store (old : Store) (B : BucketMap) : Store :=
  {| sets := sets old ++ B.*2;
     maps := maps old ++ [zip B.*1 (seq (length (sets old)) (length B))] |}.

(** The store of the tests of [update]: one map, at address 0, whose
    bucket 0 is empty and whose bucket 2 holds card 7. *)
Definition test_store : Store :=
  {| sets := [[]; [7%nat]]; maps := [[(0, 0%nat); (2, 1%nat)]] |}.

(** A card as the tests build it, [new Flashcard(front, back, hint, tags)],
    without tags. *)
Definition mkCard (f b h : string) : Flashcard :=
  {| front := lit f; back := Some (lit b); hint := Some (lit h); tags := [] |}.

(** ** Further notions *)

(** The card with its [hint] field left out. *)
Definition without_hint (card : Flashcard) : Flashcard :=
  {| front := front card; back := back card; hint := None; tags := tags card |}.

(** No set of the bucket map lists a card twice, as in every [Set]. *)
Definition sets_without_repetition (M : BucketMap) : Prop :=
  Forall (fun e => NoDup e.2) M.

(** ** toBucketSets on the store *)

Section ToBucketSetsStore.
Local Open Scope state_scope.

(** The callback of [Array.from], for each index in turn: a new [Set] is
    allocated for every index, a copy of the bucket or an empty one. *)
Fixpoint alloc_buckets (entries : list (Z * nat)) (indices : list Z)
  : State (list nat) :=
  match indices with
  | [] => ret []
  | index :: rest =>
      let* fresh :=
        match map_get entries index with
        | Some bucketCards =>
            let* elems := set_elems bucketCards in new_Set elems
        | None => new_Set []
        end in
      let* rest' := alloc_buckets entries rest in
      ret (fresh :: rest')
  end.

(** [toBucketSets] with the objects it allocates: the result is the array
    of the addresses of the new sets, or the [RangeError] of [Array.from],
    thrown before any set is allocated. *)
Definition toBucketSets_store (buckets : nat)
  : State (Completion (list nat)) :=
  let* entries := map_entries buckets in
  match map_keys entries with
  | [] => ret (Returns [])
  | k :: ks =>
      let maxBucketIndex := math_max k ks in
      let len := to_length (js_add maxBucketIndex 1) in
      if 2 ^ 32 <=? len then ret (Throws RangeError)
      else
        let* a := alloc_buckets entries (seqZ 0 len) in
        ret (Returns a)
  end.
End ToBucketSetsStore.

(** The value of an array of sets. *)
Definition view_array (st : Store) (a : list nat) : list JsSet :=
  (fun p => default [] (sets st !! p)) <$> a.

(** The value of the set that the callback of [toBucketSets] allocates
    for an index. *)
Definition bucket_copy (st : Store) (es : list (Z * nat)) (index : Z) : JsSet :=
  match map_get es index with
  | Some a => set_of (default [] (sets st !! a))
  | None => []
  end.

(** A store whose map, at address 0, holds card 7 in bucket 2^53, the
    first integer whose successor is not a number. *)
Definition big_store : Store :=
  {| sets := [[7%nat]]; maps := [[(2 ^ 53, 0%nat)]] |}.


(** * Properties *)

(** ** Numbers *)

Section NumberFacts.
Import Binary64.

(** Up to 2^53 in magnitude the integers are numbers. *)
Lemma round53_exact (z : Z) : Z.abs z <= 2 ^ 53 -> round53 z = z.
Proof.
  intros Hz. unfold round53.
  destruct (Z.leb_spec (Z.abs z) (2 ^ 53)); [done|lia].
Qed.

Lemma round53_mantissa (a : Z) :
  2 ^ 53 < a ->
  1 <= Z.log2 a - 52 /\ 2 ^ 52 <= a / 2 ^ (Z.log2 a - 52).
Proof.
  intros Ha.
  assert (53 <= Z.log2 a) as Hl.
  { rewrite <- (Z.log2_pow2 53) by lia. apply Z.log2_le_mono. lia. }
  split; [lia|].
  destruct (Z.log2_spec a) as [Hlo _]; [lia|].
  replace (Z.log2 a) with (52 + (Z.log2 a - 52)) in Hlo at 1 by lia.
  rewrite Z.pow_add_r in Hlo by lia.
  apply Z.div_le_lower_bound; [apply Z.pow_pos_nonneg; lia|]. lia.
Qed.

Lemma round53_rounded (a : Z) :
  2 ^ 53 < a ->
  let e := Z.log2 a - 52 in
  let q := a / 2 ^ e in
  let r := a mod 2 ^ e in
  let half := 2 ^ (e - 1) in
  2 ^ 53 <= (if r <? half then q
             else if half <? r then q + 1
             else if Z.even q then q else q + 1) * 2 ^ e.
Proof.
  intros Ha e q r half. destruct (round53_mantissa a Ha) as [He Hq].
  fold e in He, Hq. fold q in Hq.
  assert (2 <= 2 ^ e) as Hp.
  { change 2 with (2 ^ 1) at 1. apply Z.pow_le_mono_r; lia. }
  assert (q <= (if r <? half then q
                else if half <? r then q + 1
                else if Z.even q then q else q + 1)) as Hq'.
  { destruct (r <? half); [lia|]. destruct (half <? r); [lia|].
    destruct (Z.even q); lia. }
  change (2 ^ 53) with (2 ^ 52 * 2). nia.
Qed.

(** Beyond 2^53 the nearest number is at least 2^53 in magnitude, and has
    the sign of the integer. *)
Lemma round53_large (z : Z) : 2 ^ 53 < z -> 2 ^ 53 <= round53 z.
Proof.
  intros Hz. unfold round53. rewrite Z.abs_eq by lia.
  destruct (Z.leb_spec z (2 ^ 53)); [lia|].
  rewrite Z.sgn_pos by lia. rewrite Z.mul_1_l. by apply round53_rounded.
Qed.

Lemma round53_small (z : Z) : z < - 2 ^ 53 -> round53 z <= - 2 ^ 53.
Proof.
  intros Hz. unfold round53. rewrite Z.abs_neq by lia.
  destruct (Z.leb_spec (- z) (2 ^ 53)); [lia|].
  rewrite Z.sgn_neg by lia.
  pose proof (round53_rounded (- z) ltac:(lia)) as H'. simpl in H'. lia.
Qed.

(** The length of the array that [Array.from] is asked for, from the
    greatest key. *)
Lemma array_length_cases (m : Z) :
  (m + 1 < 2 ^ 32 -> to_length (js_add m 1) = Z.max 0 (m + 1))
  /\ (2 ^ 32 <= m + 1 -> 2 ^ 32 <= to_length (js_add m 1)).
Proof.
  unfold js_add, to_length. split.
  - intros Hm. destruct (Z_lt_le_dec (m + 1) (- 2 ^ 53)) as [Hs|Hs].
    + pose proof (round53_small _ Hs).
      destruct (Z.leb_spec (round53 (m + 1)) 0); lia.
    + rewrite round53_exact by lia.
      destruct (Z.leb_spec (m + 1) 0); lia.
  - intros Hm. destruct (Z_le_gt_dec (m + 1) (2 ^ 53)) as [Hs|Hs].
    + rewrite round53_exact by lia.
      destruct (Z.leb_spec (m + 1) 0); lia.
    + pose proof (round53_large (m + 1) ltac:(lia)).
      destruct (Z.leb_spec (round53 (m + 1)) 0); lia.
Qed.

(** The sum of a bucket number and 1 is exact up to 2^53. *)
Lemma js_add_exact (a b : Z) : Z.abs (a + b) <= 2 ^ 53 -> js_add a b = a + b.
Proof. apply round53_exact. Qed.
End NumberFacts.

(** [round53] agrees with the addition of binary64 where the sum is not an
    integer below 2^53: ties go to the even neighbour, on both sides of 0. *)
Example round53_is_binary64_add :
  Forall (fun '(a, b) =>
            Binary64.to_Z (Binary64.add (Binary64.of_Z a) (Binary64.of_Z b))
            = Some (Binary64.round53 (a + b)))
         [(2 ^ 53, 1); (2 ^ 53 + 2, 1); (2 ^ 53 + 4, 1); (2 ^ 53 - 1, 1);
          (2 ^ 53 - 1, 2); (2 ^ 54, 1); (2 ^ 54 + 4, 3); (2 ^ 60, 128);
          (2 ^ 60, 129); (2 ^ 60 + 256, 128); (- 2 ^ 53, 1);
          (- 2 ^ 53 - 2, 1); (- 2 ^ 53 - 2, -1); (41, 1); (-1, 1);
          (4294967295, 1); (2 ^ 1023, 1)].
Proof. repeat constructor. Qed.

Example js_add_rounds : js_add (2 ^ 53) 1 = 2 ^ 53.
Proof. reflexivity. Qed.

(** ** Numbers: rounding *)

(** Facts on the operations of binary64 as the Standard Library specifies
    them.  A finite number is [m * 2^e] with a mantissa [m] of 53 bits; an
    operation computes a mantissa of 53 bits or more, shifts it to 53 bits
    and rounds it to one of its two neighbours, to itself when nothing is
    lost. *)
Section Binary64Facts.
Import Binary64.

Lemma digits2_bounds (p : positive) :
  2 ^ (Z.pos (digits2_pos p) - 1) <= Z.pos p < 2 ^ Z.pos (digits2_pos p).
Proof.
  induction p as [p IH|p IH|]; simpl digits2_pos; [| |by vm_compute].
  - rewrite Pos2Z.inj_succ. replace (Z.succ (Z.pos (digits2_pos p)) - 1)
      with (Z.succ (Z.pos (digits2_pos p) - 1)) by lia.
    rewrite !Z.pow_succ_r by lia. lia.
  - rewrite Pos2Z.inj_succ. replace (Z.succ (Z.pos (digits2_pos p)) - 1)
      with (Z.succ (Z.pos (digits2_pos p) - 1)) by lia.
    rewrite !Z.pow_succ_r by lia. lia.
Qed.

Lemma digits2_unique (p : positive) (d : Z) :
  2 ^ (d - 1) <= Z.pos p < 2 ^ d -> Z.pos (digits2_pos p) = d.
Proof.
  intros [Hlo Hhi]. pose proof (digits2_bounds p) as [Hlo' Hhi'].
  assert (0 < d).
  { destruct (Z.ltb_spec 0 d); [done|].
    assert (2 ^ d <= 2 ^ 0) by (apply Z.pow_le_mono_r; lia). simpl in *. lia. }
  destruct (Z.lt_trichotomy (Z.pos (digits2_pos p)) d) as [Hlt|[Heq|Hgt]];
    [|done|].
  - assert (2 ^ Z.pos (digits2_pos p) <= 2 ^ (d - 1))
      by (apply Z.pow_le_mono_r; lia).
    lia.
  - assert (2 ^ d <= 2 ^ (Z.pos (digits2_pos p) - 1))
      by (apply Z.pow_le_mono_r; lia).
    lia.
Qed.

Lemma iter_xO (p : positive) (k : positive) :
  Z.pos (Pos.iter xO p k) = Z.pos p * 2 ^ Z.pos k.
Proof.
  revert p. induction k as [|k IH] using Pos.peano_ind; intros p.
  - simpl. lia.
  - rewrite Pos.iter_succ, Pos2Z.inj_succ, Z.pow_succ_r by lia.
    rewrite Pos2Z.inj_xO, IH. lia.
Qed.

(** A number with a 53-bit mantissa is left as it is by rounding. *)
Lemma round_aux_canonical (s : bool) (m : positive) (e : Z) :
  Z.pos (digits2_pos m) = 53 -> -1074 <= e <= 971 ->
  binary_round_aux 53 1024 s (Z.pos m) e loc_Exact = S754_finite s m e.
Proof.
  intros Hd He. unfold binary_round_aux, shr_fexp. simpl Zdigits2. rewrite Hd.
  unfold fexp, emin.
  replace (Z.max (53 + e - 53) (3 - 1024 - 53) - e) with 0 by lia.
  simpl. rewrite Hd.
  replace (Z.max (53 + e - 53) (3 - 1024 - 53) - e) with 0 by lia.
  simpl. destruct (Z.leb_spec e (1024 - 53)); [done|lia].
Qed.

Lemma round_small (s : bool) (m : positive) (e : Z) :
  Z.pos (digits2_pos m) <= 53 -> -1021 <= Z.pos (digits2_pos m) + e <= 1024 ->
  binary_round 53 1024 s m e
  = S754_finite s (Z.to_pos (Z.pos m * 2 ^ (53 - Z.pos (digits2_pos m))))
               (e - (53 - Z.pos (digits2_pos m))).
Proof.
  intros Hd He. unfold binary_round, shl_align, fexp, emin.
  set (d := Z.pos (digits2_pos m)) in *.
  replace (Z.max (d + e - 53) (3 - 1024 - 53) - e) with (d - 53) by lia.
  destruct (d - 53) as [|k|k] eqn:Hk; [| lia |].
  - replace (53 - d) with 0 by lia. rewrite Z.mul_1_r, Z.sub_0_r. simpl.
    apply round_aux_canonical; [unfold d in *; lia|lia].
  - replace (53 - d) with (Z.pos k) by lia.
    replace (Z.max (d + e - 53) (3 - 1024 - 53)) with (e - Z.pos k) by lia.
    rewrite <- iter_xO. simpl Z.to_pos.
    apply round_aux_canonical; [|lia].
    apply digits2_unique. rewrite iter_xO.
    pose proof (digits2_bounds m) as [Hlo Hhi]. fold d in Hlo, Hhi.
    replace 53 with (d + Z.pos k) at 2 by lia.
    replace (53 - 1) with ((d - 1) + Z.pos k) by lia.
    rewrite !Z.pow_add_r by lia. nia.
Qed.

Lemma shr_1_m (mrs : shr_record) :
  0 <= shr_m mrs -> shr_m (shr_1 mrs) = shr_m mrs / 2.
Proof.
  destruct mrs as [m r s]. cbn [shr_m]. intros Hm.
  destruct m as [|[p|p|]|p]; cbn [shr_1 shr_m]; try lia; try done.
  - apply Z.div_unique with 1; lia.
  - apply Z.div_unique with 0; lia.
Qed.

Lemma shr_iter_m (p : positive) :
  forall mrs : shr_record,
    0 <= shr_m mrs ->
    shr_m (SpecFloat.iter_pos shr_1 p mrs) = shr_m mrs / 2 ^ Z.pos p.
Proof.
  induction p as [p IH|p IH|]; intros mrs Hm; cbn [SpecFloat.iter_pos].
  - assert (0 <= shr_m (shr_1 mrs)) as H1.
    { rewrite shr_1_m by done. by apply Z.div_pos. }
    assert (0 <= shr_m (SpecFloat.iter_pos shr_1 p (shr_1 mrs))) as H2.
    { rewrite IH by done. apply Z.div_pos; [done|].
      by apply Z.pow_pos_nonneg. }
    rewrite IH, IH, shr_1_m by done.
    rewrite !Z.div_div by (try apply Z.pow_pos_nonneg; lia).
    f_equal. change 2 with (2 ^ 1) at 1.
    rewrite <- !Z.pow_add_r by lia. f_equal. lia.
  - assert (0 <= shr_m (SpecFloat.iter_pos shr_1 p mrs)) as H2.
    { rewrite IH by done. apply Z.div_pos; [done|].
      by apply Z.pow_pos_nonneg. }
    rewrite IH, IH by done.
    rewrite !Z.div_div by (try apply Z.pow_pos_nonneg; lia).
    f_equal. rewrite <- !Z.pow_add_r by lia. f_equal. lia.
  - by rewrite shr_1_m.
Qed.

Lemma shr_1_exact (m : Z) :
  0 <= m -> m mod 2 = 0 ->
  shr_1 (Build_shr_record m false false)
  = Build_shr_record (m / 2) false false.
Proof.
  intros Hm Hr.
  destruct m as [|[p|p|]|p]; cbn [shr_1 orb]; try lia; try done.
  - rewrite <- (Z.mod_unique (Z.pos p~1) 2 (Z.pos p) 1) in Hr; lia.
  - f_equal. apply Z.div_unique with 0; lia.
Qed.

Lemma mod_pow2_split (m a b : Z) :
  0 <= a -> 0 <= b -> m mod 2 ^ (a + b) = 0 ->
  m mod 2 ^ a = 0 /\ (m / 2 ^ a) mod 2 ^ b = 0.
Proof.
  intros Ha Hb Hm.
  assert (0 < 2 ^ a) by (by apply Z.pow_pos_nonneg).
  assert (0 < 2 ^ b) by (by apply Z.pow_pos_nonneg).
  rewrite Z.pow_add_r in Hm by done.
  apply Z.mod_divide in Hm; [|lia]. destruct Hm as [q Hq]. subst m.
  split.
  - replace (q * (2 ^ a * 2 ^ b)) with (q * 2 ^ b * 2 ^ a) by lia.
    by apply Z.mod_mul; lia.
  - replace (q * (2 ^ a * 2 ^ b)) with (q * 2 ^ b * 2 ^ a) by lia.
    rewrite Z.div_mul by lia. apply Z.mod_mul; lia.
Qed.

Lemma shr_iter_exact (p : positive) :
  forall m : Z,
    0 <= m -> m mod 2 ^ Z.pos p = 0 ->
    SpecFloat.iter_pos shr_1 p (Build_shr_record m false false)
    = Build_shr_record (m / 2 ^ Z.pos p) false false.
Proof.
  induction p as [p IH|p IH|]; intros m Hm Hr; cbn [SpecFloat.iter_pos].
  - replace (Z.pos p~1) with (1 + (Z.pos p + Z.pos p)) in * by lia.
    apply mod_pow2_split in Hr as [H1 H2]; [|lia..].
    apply mod_pow2_split in H2 as [H2 H3]; [|lia..].
    change (2 ^ 1) with 2 in *.
    assert (0 <= m / 2) by (by apply Z.div_pos).
    assert (0 < 2 ^ Z.pos p) by (by apply Z.pow_pos_nonneg).
    rewrite shr_1_exact, IH, IH by (try apply Z.div_pos; done || lia).
    f_equal. rewrite !Z.div_div by lia. f_equal.
    rewrite !Z.pow_add_r by lia. lia.
  - replace (Z.pos p~0) with (Z.pos p + Z.pos p) in * by lia.
    apply mod_pow2_split in Hr as [H2 H3]; [|lia..].
    assert (0 < 2 ^ Z.pos p) by (by apply Z.pow_pos_nonneg).
    rewrite IH, IH by (try apply Z.div_pos; done || lia).
    f_equal. rewrite !Z.div_div by lia. f_equal.
    rewrite !Z.pow_add_r by lia. lia.
  - by apply shr_1_exact.
Qed.

Lemma shr_m_record_of_loc (m : Z) (l : location) :
  shr_m (shr_record_of_loc m l) = m.
Proof. by destruct l as [|[]]. Qed.

Lemma round_nearest_even_cases (m : Z) (l : location) :
  (round_nearest_even m l = m \/ round_nearest_even m l = m + 1)
  /\ (l = loc_Exact -> round_nearest_even m l = m).
Proof.
  destruct l as [|[]]; simpl; (split; [|done]); auto.
  destruct (IntDef.Z.even m); auto.
Qed.

Lemma shr_fexp_pos (m : positive) (e : Z) (l : location) :
  let k := Z.pos (digits2_pos m) - 53 in
  0 <= k -> -1074 <= e + k ->
  exists mrs,
    shr_fexp 53 1024 (Z.pos m) e l = (mrs, e + k)
    /\ shr_m mrs = Z.pos m / 2 ^ k
    /\ (l = loc_Exact -> Z.pos m mod 2 ^ k = 0 ->
        mrs = Build_shr_record (Z.pos m / 2 ^ k) false false).
Proof.
  intros k Hk He. unfold shr_fexp, fexp, emin. cbn [Zdigits2].
  replace (Z.max (Z.pos (digits2_pos m) + e - 53) (3 - 1024 - 53) - e)
    with k by lia.
  destruct k as [|p|p] eqn:Ek; [| |lia].
  - exists (shr_record_of_loc (Z.pos m) l). cbn [shr].
    rewrite Z.add_0_r, Z.pow_0_r, Z.div_1_r, shr_m_record_of_loc.
    split; [done|]. split; [done|]. by intros ->.
  - exists (SpecFloat.iter_pos shr_1 p (shr_record_of_loc (Z.pos m) l)).
    cbn [shr]. split; [done|]. split.
    + rewrite shr_iter_m; rewrite shr_m_record_of_loc; [done|lia].
    + intros -> Hr. by apply shr_iter_exact.
Qed.

Lemma round_aux_form (s : bool) (m : positive) (e : Z) (l : location) :
  let k := Z.pos (digits2_pos m) - 53 in
  0 <= k -> -1074 <= e + k <= 970 ->
  exists (M : positive) (E : Z),
    binary_round_aux 53 1024 s (Z.pos m) e l = S754_finite s M E
    /\ Z.pos (digits2_pos M) = 53
    /\ ((E = e + k
         /\ (Z.pos M = Z.pos m / 2 ^ k \/ Z.pos M = Z.pos m / 2 ^ k + 1))
        \/ (E = e + k + 1 /\ Z.pos M = 2 ^ 52
            /\ Z.pos m / 2 ^ k + 1 = 2 ^ 53))
    /\ (l = loc_Exact -> Z.pos m mod 2 ^ k = 0 ->
        E = e + k /\ Z.pos M = Z.pos m / 2 ^ k).
Proof.
  intros k Hk He.
  destruct (shr_fexp_pos m e l Hk ltac:(lia)) as (mrs & Hshr & Hm & Hex).
  fold k in Hshr, Hm, Hex.
  unfold binary_round_aux. rewrite Hshr.
  pose proof (digits2_bounds m) as [Hlo Hhi].
  assert (2 ^ 52 <= Z.pos m / 2 ^ k < 2 ^ 53) as HM.
  { assert (0 < 2 ^ k) by (by apply Z.pow_pos_nonneg).
    replace (Z.pos (digits2_pos m)) with (53 + k) in Hhi by lia.
    replace (Z.pos (digits2_pos m) - 1) with (52 + k) in Hlo by lia.
    rewrite Z.pow_add_r in Hlo, Hhi by lia. split.
    - apply Z.div_le_lower_bound; lia.
    - apply Z.div_lt_upper_bound; lia. }
  set (Mq := Z.pos m / 2 ^ k) in *.
  destruct (round_nearest_even_cases (shr_m mrs) (loc_of_shr_record mrs))
    as [HR HRex].
  set (R := round_nearest_even (shr_m mrs) (loc_of_shr_record mrs)) in *.
  rewrite Hm in HR.
  assert (l = loc_Exact -> Z.pos m mod 2 ^ k = 0 -> R = Mq) as HRq.
  { intros Hl Hr. specialize (Hex Hl Hr). subst mrs. by apply HRex. }
  clearbody R. clear HRex Hex Hshr Hm mrs.
  destruct R as [|r|r]; [lia| |lia].
  destruct (decide (Z.pos r = 2 ^ 53)) as [Htop|Htop].
  - assert (r = 9007199254740992%positive) as -> by lia.
    exists 4503599627370496%positive, (e + k + 1).
    split.
    { assert (Z.pos (digits2_pos 9007199254740992) = 54) as Hd
        by (by vm_compute).
      unfold shr_fexp, fexp, emin. cbn [Zdigits2]. rewrite Hd.
      replace (Z.max (54 + (e + k) - 53) (3 - 1024 - 53) - (e + k))
        with 1 by lia.
      cbn. destruct (Z.leb_spec (e + k + 1) (1024 - 53)); [done|lia]. }
    split; [done|]. split; [right; lia|].
    intros Hl Hr. specialize (HRq Hl Hr). lia.
  - assert (Z.pos (digits2_pos r) = 53) as Hd.
    { apply digits2_unique. lia. }
    exists r, (e + k). split.
    { unfold shr_fexp, fexp, emin. cbn [Zdigits2]. rewrite Hd.
      replace (Z.max (53 + (e + k) - 53) (3 - 1024 - 53) - (e + k))
        with 0 by lia.
      cbn. destruct (Z.leb_spec (e + k) (1024 - 53)); [done|lia]. }
    split; [done|]. split; [left; split; [done|lia]|].
    intros Hl Hr. specialize (HRq Hl Hr). lia.
Qed.

Lemma leb_pos (m1 : positive) (e1 : Z) (m2 : positive) (e2 : Z) :
  leb (S754_finite false m1 e1) (S754_finite false m2 e2) = true
  <-> e1 < e2 \/ (e1 = e2 /\ Z.pos m1 <= Z.pos m2).
Proof.
  unfold leb, SFleb, SFcompare.
  destruct (Z.compare_spec e1 e2) as [->|Hlt|Hgt].
  - change (Pos.compare_cont Eq m1 m2) with (Pos.compare m1 m2).
    destruct (Pos.compare_spec m1 m2); split; try done; try lia.
  - split; [lia|done].
  - split; [done|lia].
Qed.

Lemma leb_antisym (m1 : positive) (e1 : Z) (m2 : positive) (e2 : Z) :
  leb (S754_finite false m1 e1) (S754_finite false m2 e2) = true ->
  leb (S754_finite false m2 e2) (S754_finite false m1 e1) = true ->
  S754_finite false m1 e1 = S754_finite false m2 e2.
Proof.
  rewrite !leb_pos. intros H1 H2.
  assert (e1 = e2 /\ m1 = m2) as [-> ->] by lia. done.
Qed.

(** A rounded mantissa against a number of the same exponent. *)
Lemma round_aux_le (m : positive) (e : Z) (l : location)
    (mb : positive) (eb : Z) :
  let k := Z.pos (digits2_pos m) - 53 in
  0 <= k -> -1074 <= e + k <= 970 ->
  Z.pos (digits2_pos mb) = 53 ->
  e + k <= eb ->
  (e + k = eb ->
   Z.pos m <= Z.pos mb * 2 ^ k
   /\ (l <> loc_Exact -> Z.pos m + 1 <= Z.pos mb * 2 ^ k)) ->
  exists M E,
    binary_round_aux 53 1024 false (Z.pos m) e l = S754_finite false M E
    /\ Z.pos (digits2_pos M) = 53
    /\ e + k <= E <= e + k + 1
    /\ leb (S754_finite false M E) (S754_finite false mb eb) = true.
Proof.
  intros k Hk He Hdb H1 H2.
  destruct (round_aux_form false m e l Hk He)
    as (M & E & Hr & HdM & Hcases & Hex).
  fold k in Hcases, Hex.
  exists M, E. split; [done|]. split; [done|]. split; [lia|].
  apply leb_pos.
  pose proof (digits2_bounds mb) as [Hblo Hbhi]. rewrite Hdb in Hblo, Hbhi.
  change (53 - 1) with 52 in Hblo.
  assert (0 < 2 ^ k) as Hpk by (by apply Z.pow_pos_nonneg).
  destruct (decide (e + k = eb)) as [Heq|Hne].
  - destruct (H2 Heq) as [Hle Hlt].
    assert (Z.pos m / 2 ^ k <= Z.pos mb) as Hq.
    { apply Z.div_le_upper_bound; lia. }
    destruct (decide (Z.pos m / 2 ^ k = Z.pos mb)) as [Hqe|Hqn].
    + assert (Z.pos m = Z.pos mb * 2 ^ k) as Hm.
      { pose proof (Z.mul_div_le (Z.pos m) (2 ^ k) Hpk). nia. }
      assert (l = loc_Exact) as Hl.
      { destruct l as [|c]; [done|]. exfalso.
        assert (Z.pos m + 1 <= Z.pos mb * 2 ^ k) by (by apply Hlt). lia. }
      destruct Hex as [HE HM]; [done| |lia].
      rewrite Hm. by apply Z.mod_mul; lia.
    + destruct Hcases as [[HE HM]|(HE & HM & Hc)]; lia.
  - destruct Hcases as [[HE HM]|(HE & HM & Hc)]; lia.
Qed.

Lemma round_aux_ge (m : positive) (e : Z) (l : location)
    (mb : positive) (eb : Z) :
  let k := Z.pos (digits2_pos m) - 53 in
  0 <= k -> -1074 <= e + k <= 970 ->
  Z.pos (digits2_pos mb) = 53 ->
  eb <= e + k ->
  (e + k = eb -> Z.pos mb * 2 ^ k <= Z.pos m) ->
  exists M E,
    binary_round_aux 53 1024 false (Z.pos m) e l = S754_finite false M E
    /\ Z.pos (digits2_pos M) = 53
    /\ e + k <= E <= e + k + 1
    /\ leb (S754_finite false mb eb) (S754_finite false M E) = true.
Proof.
  intros k Hk He Hdb H1 H2.
  destruct (round_aux_form false m e l Hk He)
    as (M & E & Hr & HdM & Hcases & Hex).
  fold k in Hcases, Hex.
  exists M, E. split; [done|]. split; [done|]. split; [lia|].
  apply leb_pos.
  assert (0 < 2 ^ k) as Hpk by (by apply Z.pow_pos_nonneg).
  destruct (decide (e + k = eb)) as [Heq|Hne].
  - specialize (H2 Heq).
    assert (Z.pos mb <= Z.pos m / 2 ^ k) as Hq.
    { apply Z.div_le_lower_bound; lia. }
    destruct Hcases as [[HE HM]|(HE & HM & Hc)]; lia.
  - destruct Hcases as [[HE HM]|(HE & HM & Hc)]; lia.
Qed.

Lemma of_Z_pos (z : Z) :
  0 < z < 2 ^ 53 ->
  exists m e,
    of_Z z = S754_finite false m e
    /\ Z.pos (digits2_pos m) = 53 /\ -52 <= e <= 0
    /\ Z.pos m = z * 2 ^ (- e).
Proof.
  intros [Hz0 Hz]. destruct z as [|p|p]; [lia| |lia].
  pose proof (digits2_bounds p) as [Hlo Hhi].
  set (d := Z.pos (digits2_pos p)) in *.
  assert (1 <= d <= 53) as Hd.
  { split; [unfold d; lia|].
    destruct (Z.leb_spec d 53); [done|].
    assert (2 ^ 53 <= 2 ^ (d - 1)) by (apply Z.pow_le_mono_r; lia). lia. }
  assert (0 < Z.pos p * 2 ^ (53 - d)) as Hpos.
  { apply Z.mul_pos_pos; [lia|]. apply Z.pow_pos_nonneg; lia. }
  exists (Z.to_pos (Z.pos p * 2 ^ (53 - d))), (0 - (53 - d)).
  split; [apply round_small; fold d; lia|].
  rewrite Z2Pos.id by done.
  split; [|split; [lia|f_equal; f_equal; lia]].
  apply digits2_unique. rewrite Z2Pos.id by done.
  assert (2 ^ 53 = 2 ^ d * 2 ^ (53 - d)) as H53.
  { rewrite <- Z.pow_add_r by lia. f_equal. lia. }
  assert (2 ^ (53 - 1) = 2 ^ (d - 1) * 2 ^ (53 - d)) as H52.
  { rewrite <- Z.pow_add_r by lia. f_equal. lia. }
  rewrite H53, H52.
  assert (0 < 2 ^ (53 - d)) by (apply Z.pow_pos_nonneg; lia). nia.
Qed.

Lemma canonical_bounds (m : positive) :
  Z.pos (digits2_pos m) = 53 -> 2 ^ 52 <= Z.pos m < 2 ^ 53.
Proof. intros Hd. pose proof (digits2_bounds m). by rewrite Hd in *. Qed.

Lemma new_location_exact (n r : Z) :
  new_location n r <> loc_Exact -> r <> 0.
Proof.
  intros Hl ->. apply Hl. unfold new_location, new_location_even,
    new_location_odd. by destruct (IntDef.Z.even n).
Qed.

(** The quotient of two numbers with 53-bit mantissas, before rounding. *)
Lemma div_core (mx : positive) (ex : Z) (my : positive) (ey : Z) :
  Z.pos (digits2_pos mx) = 53 -> Z.pos (digits2_pos my) = 53 ->
  -1021 <= ex - ey ->
  exists (q : positive) (r : Z),
    div (S754_finite false mx ex) (S754_finite false my ey)
    = binary_round_aux 53 1024 false (Z.pos q) (ex - ey - 53)
        (new_location (Z.pos my) r)
    /\ Z.pos mx * 2 ^ 53 = Z.pos my * Z.pos q + r
    /\ 0 <= r < Z.pos my
    /\ 2 ^ 52 <= Z.pos q < 2 ^ 54.
Proof.
  intros Hdx Hdy He.
  pose proof (canonical_bounds mx Hdx) as Hx.
  pose proof (canonical_bounds my Hdy) as Hy.
  unfold div, SFdiv, SFdiv_core_binary, prec, emax. cbn [Zdigits2 xorb].
  rewrite Hdx, Hdy. unfold fexp, emin.
  replace (Z.min (Z.max (53 + ex - (53 + ey) - 53) (3 - 1024 - 53)) (ex - ey))
    with (ex - ey - 53) by lia.
  replace (ex - ey - (ex - ey - 53)) with 53 by lia.
  cbv iota beta.
  rewrite Z.shiftl_mul_pow2 by lia.
  pose proof (Z_div_mod (Z.pos mx * 2 ^ 53) (Z.pos my) ltac:(lia)) as Hdiv.
  destruct (Z.div_eucl (Z.pos mx * 2 ^ 53) (Z.pos my)) as [q r].
  destruct Hdiv as [Heq Hr].
  assert (2 ^ 52 <= q < 2 ^ 54) as Hq by nia.
  destruct q as [|q|q]; [lia| |lia].
  exists q, r. done.
Qed.

Lemma div_le (mx : positive) (ex : Z) (my : positive) (ey : Z)
    (mb : positive) (eb : Z) :
  Z.pos (digits2_pos mx) = 53 -> Z.pos (digits2_pos my) = 53 ->
  Z.pos (digits2_pos mb) = 53 ->
  -1021 <= ex - ey <= 1021 ->
  (0 <= ex - ey - eb ->
   Z.pos mx * 2 ^ (ex - ey - eb) <= Z.pos mb * Z.pos my) ->
  (ex - ey - eb < 0 ->
   Z.pos mx <= Z.pos mb * Z.pos my * 2 ^ (eb - (ex - ey))) ->
  exists M E,
    div (S754_finite false mx ex) (S754_finite false my ey)
    = S754_finite false M E
    /\ Z.pos (digits2_pos M) = 53
    /\ ex - ey - 53 <= E <= ex - ey - 51
    /\ leb (S754_finite false M E) (S754_finite false mb eb) = true.
Proof.
  intros Hdx Hdy Hdb He Hpos Hneg.
  pose proof (canonical_bounds mx Hdx) as Hx.
  pose proof (canonical_bounds my Hdy) as Hy.
  pose proof (canonical_bounds mb Hdb) as Hb.
  destruct (div_core mx ex my ey Hdx Hdy ltac:(lia))
    as (q & r & -> & Heq & Hr & Hq).
  set (t := ex - ey - eb) in *.
  assert (Z.pos (digits2_pos q) = 53 /\ Z.pos q < 2 ^ 53
          \/ Z.pos (digits2_pos q) = 54 /\ 2 ^ 53 <= Z.pos q) as Hdq.
  { destruct (Z.ltb_spec (Z.pos q) (2 ^ 53)).
    - left. split; [|done]. apply digits2_unique. lia.
    - right. split; [|done]. apply digits2_unique. lia. }
  destruct (round_aux_le q (ex - ey - 53) (new_location (Z.pos my) r) mb eb)
    as (M & E & HM & HdM & HE & Hle); try done; try lia.
  - (* the exponent *)
    destruct (Z.leb_spec (ex - ey - 53 + (Z.pos (digits2_pos q) - 53)) eb)
      as [|Hgt]; [done|exfalso].
    assert (0 <= t - 53) as Hu by lia.
    specialize (Hpos ltac:(lia)).
    replace t with (53 + (t - 53)) in Hpos by lia.
    rewrite Z.pow_add_r in Hpos by lia.
    assert (0 < 2 ^ (t - 53)) as Hp by (by apply Z.pow_pos_nonneg).
    destruct Hdq as [[Hd _]|[Hd Hq53]]; rewrite Hd in Hgt.
    + assert (2 <= 2 ^ (t - 53)).
      { change 2 with (2 ^ 1) at 1. apply Z.pow_le_mono_r; lia. }
      nia.
    + nia.
  - (* the mantissa *)
    intros HE.
    assert (forall k, k = Z.pos (digits2_pos q) - 53 ->
                      Z.pos mx * 2 ^ 53 <= Z.pos mb * 2 ^ k * Z.pos my) as Hk.
    { intros k Hk. assert (t = 53 - k) as Ht by lia.
      specialize (Hpos ltac:(lia)). rewrite Ht in Hpos.
      destruct Hdq as [[Hd _]|[Hd _]]; rewrite Hd in Hk; subst k;
        simpl in Hpos |- *; lia. }
    specialize (Hk _ eq_refl). split; [nia|].
    intros Hl. apply new_location_exact in Hl. nia.
  - exists M, E. split; [done|]. split; [done|]. split; [|done].
    destruct Hdq as [[Hd _]|[Hd _]]; rewrite Hd in HE; lia.
Qed.

Lemma div_ge (mx : positive) (ex : Z) (my : positive) (ey : Z)
    (mb : positive) (eb : Z) :
  Z.pos (digits2_pos mx) = 53 -> Z.pos (digits2_pos my) = 53 ->
  Z.pos (digits2_pos mb) = 53 ->
  -1021 <= ex - ey <= 1021 ->
  (0 <= ex - ey - eb ->
   Z.pos mb * Z.pos my <= Z.pos mx * 2 ^ (ex - ey - eb)) ->
  (ex - ey - eb < 0 ->
   Z.pos mb * Z.pos my * 2 ^ (eb - (ex - ey)) <= Z.pos mx) ->
  exists M E,
    div (S754_finite false mx ex) (S754_finite false my ey)
    = S754_finite false M E
    /\ Z.pos (digits2_pos M) = 53
    /\ ex - ey - 53 <= E <= ex - ey - 51
    /\ leb (S754_finite false mb eb) (S754_finite false M E) = true.
Proof.
  intros Hdx Hdy Hdb He Hpos Hneg.
  pose proof (canonical_bounds mx Hdx) as Hx.
  pose proof (canonical_bounds my Hdy) as Hy.
  pose proof (canonical_bounds mb Hdb) as Hb.
  destruct (div_core mx ex my ey Hdx Hdy ltac:(lia))
    as (q & r & -> & Heq & Hr & Hq).
  set (t := ex - ey - eb) in *.
  assert (Z.pos (digits2_pos q) = 53 /\ Z.pos q < 2 ^ 53
          \/ Z.pos (digits2_pos q) = 54 /\ 2 ^ 53 <= Z.pos q) as Hdq.
  { destruct (Z.ltb_spec (Z.pos q) (2 ^ 53)).
    - left. split; [|done]. apply digits2_unique. lia.
    - right. split; [|done]. apply digits2_unique. lia. }
  destruct (round_aux_ge q (ex - ey - 53) (new_location (Z.pos my) r) mb eb)
    as (M & E & HM & HdM & HE & Hle); try done; try lia.
  - (* the exponent *)
    destruct (Z.leb_spec eb (ex - ey - 53 + (Z.pos (digits2_pos q) - 53)))
      as [|Hgt]; [done|exfalso].
    destruct (Z.ltb_spec t 0) as [Ht|Ht].
    + specialize (Hneg Ht).
      assert (1 <= 2 ^ (eb - (ex - ey))).
      { change 1 with (2 ^ 0). apply Z.pow_le_mono_r; lia. }
      nia.
    + specialize (Hpos Ht).
      destruct Hdq as [[Hd Hq53]|[Hd _]]; rewrite Hd in Hgt.
      * assert (2 ^ t <= 2 ^ 52) by (apply Z.pow_le_mono_r; lia). nia.
      * assert (2 ^ t <= 2 ^ 51) by (apply Z.pow_le_mono_r; lia). nia.
  - (* the mantissa *)
    intros HE.
    assert (forall k, k = Z.pos (digits2_pos q) - 53 ->
                      Z.pos mb * 2 ^ k * Z.pos my <= Z.pos mx * 2 ^ 53) as Hk.
    { intros k Hk. assert (t = 53 - k) as Ht by lia.
      specialize (Hpos ltac:(lia)). rewrite Ht in Hpos.
      destruct Hdq as [[Hd _]|[Hd _]]; rewrite Hd in Hk; subst k;
        simpl in Hpos |- *; lia. }
    specialize (Hk _ eq_refl). nia.
  - exists M, E. split; [done|]. split; [done|]. split; [|done].
    destruct Hdq as [[Hd _]|[Hd _]]; rewrite Hd in HE; lia.
Qed.

(** The product of two 53-bit mantissas has 105 or 106 bits. *)
Lemma mul_digits (mx my : positive) :
  Z.pos (digits2_pos mx) = 53 -> Z.pos (digits2_pos my) = 53 ->
  Z.pos (digits2_pos (mx * my)) = 105 /\ Z.pos (mx * my) < 2 ^ 105
  \/ Z.pos (digits2_pos (mx * my)) = 106 /\ 2 ^ 105 <= Z.pos (mx * my).
Proof.
  intros Hdx Hdy.
  pose proof (canonical_bounds mx Hdx) as Hx.
  pose proof (canonical_bounds my Hdy) as Hy.
  rewrite Pos2Z.inj_mul.
  assert (2 ^ 104 <= Z.pos mx * Z.pos my < 2 ^ 106) as Hp by nia.
  destruct (Z.ltb_spec (Z.pos mx * Z.pos my) (2 ^ 105)).
  - left. split; [|done]. apply digits2_unique. rewrite Pos2Z.inj_mul. lia.
  - right. split; [|done]. apply digits2_unique. rewrite Pos2Z.inj_mul. lia.
Qed.

Lemma mul_le (mx : positive) (ex : Z) (my : positive) (ey : Z)
    (mb : positive) (eb : Z) :
  Z.pos (digits2_pos mx) = 53 -> Z.pos (digits2_pos my) = 53 ->
  Z.pos (digits2_pos mb) = 53 ->
  -1126 <= ex + ey <= 917 ->
  ex + ey - eb < 0 ->
  Z.pos mx * Z.pos my <= Z.pos mb * 2 ^ (eb - (ex + ey)) ->
  exists M E,
    mul (S754_finite false mx ex) (S754_finite false my ey)
    = S754_finite false M E
    /\ Z.pos (digits2_pos M) = 53
    /\ ex + ey + 52 <= E <= ex + ey + 54
    /\ leb (S754_finite false M E) (S754_finite false mb eb) = true.
Proof.
  intros Hdx Hdy Hdb He Ht Hle.
  pose proof (canonical_bounds mb Hdb) as Hb.
  pose proof (mul_digits mx my Hdx Hdy) as Hd.
  unfold mul, SFmul. cbn [xorb].
  destruct (round_aux_le (mx * my) (ex + ey) loc_Exact mb eb)
    as (M & E & HM & HdM & HE & Hl); try done; try lia.
  - destruct (Z.leb_spec (ex + ey + (Z.pos (digits2_pos (mx * my)) - 53)) eb)
      as [|Hgt]; [done|exfalso].
    rewrite Pos2Z.inj_mul in Hd.
    destruct Hd as [[Hd Hlt]|[Hd Hge]]; rewrite Hd in Hgt.
    + assert (2 ^ (eb - (ex + ey)) <= 2 ^ 51) by (apply Z.pow_le_mono_r; lia).
      assert (2 ^ 104 <= Z.pos mx * Z.pos my).
      { pose proof (canonical_bounds mx Hdx).
        pose proof (canonical_bounds my Hdy). nia. }
      nia.
    + assert (2 ^ (eb - (ex + ey)) <= 2 ^ 52) by (apply Z.pow_le_mono_r; lia).
      nia.
  - intros HE. split; [|done]. rewrite Pos2Z.inj_mul.
    replace (Z.pos (digits2_pos (mx * my)) - 53) with (eb - (ex + ey)) by lia.
    done.
  - exists M, E. split; [done|]. split; [done|]. split; [|done].
    destruct Hd as [[Hd _]|[Hd _]]; rewrite Hd in HE; lia.
Qed.

Lemma mul_ge (mx : positive) (ex : Z) (my : positive) (ey : Z)
    (mb : positive) (eb : Z) :
  Z.pos (digits2_pos mx) = 53 -> Z.pos (digits2_pos my) = 53 ->
  Z.pos (digits2_pos mb) = 53 ->
  -1126 <= ex + ey <= 917 ->
  ex + ey - eb < 0 ->
  Z.pos mb * 2 ^ (eb - (ex + ey)) <= Z.pos mx * Z.pos my ->
  exists M E,
    mul (S754_finite false mx ex) (S754_finite false my ey)
    = S754_finite false M E
    /\ Z.pos (digits2_pos M) = 53
    /\ ex + ey + 52 <= E <= ex + ey + 54
    /\ leb (S754_finite false mb eb) (S754_finite false M E) = true.
Proof.
  intros Hdx Hdy Hdb He Ht Hle.
  pose proof (canonical_bounds mb Hdb) as Hb.
  pose proof (mul_digits mx my Hdx Hdy) as Hd.
  unfold mul, SFmul. cbn [xorb].
  destruct (round_aux_ge (mx * my) (ex + ey) loc_Exact mb eb)
    as (M & E & HM & HdM & HE & Hl); try done; try lia.
  - destruct (Z.leb_spec eb (ex + ey + (Z.pos (digits2_pos (mx * my)) - 53)))
      as [|Hgt]; [done|exfalso].
    rewrite Pos2Z.inj_mul in Hd.
    assert (Z.pos mx * Z.pos my < 2 ^ 106).
    { pose proof (canonical_bounds mx Hdx).
      pose proof (canonical_bounds my Hdy). nia. }
    destruct Hd as [[Hd Hlt]|[Hd Hge]]; rewrite Hd in Hgt.
    + assert (2 ^ 53 <= 2 ^ (eb - (ex + ey))) by (apply Z.pow_le_mono_r; lia).
      nia.
    + assert (2 ^ 54 <= 2 ^ (eb - (ex + ey))) by (apply Z.pow_le_mono_r; lia).
      nia.
  - intros HE. rewrite Pos2Z.inj_mul.
    replace (Z.pos (digits2_pos (mx * my)) - 53) with (eb - (ex + ey)) by lia.
    done.
  - exists M, E. split; [done|]. split; [done|]. split; [|done].
    destruct Hd as [[Hd _]|[Hd _]]; rewrite Hd in HE; lia.
Qed.

Lemma pow2_add (a b : Z) : 0 <= a -> 0 <= b -> 2 ^ a * 2 ^ b = 2 ^ (a + b).
Proof. intros. by rewrite Z.pow_add_r. Qed.

Lemma pow2_pos (a : Z) : 0 <= a -> 0 < 2 ^ a.
Proof. intros. by apply Z.pow_pos_nonneg. Qed.

(** The quotient of two positive integers below 2^53 against a number
    [mb * 2^eb], [eb <= 0]. *)
Lemma quotient_le (s n : Z) (mb : positive) (eb : Z) :
  0 < s < 2 ^ 53 -> 0 < n < 2 ^ 53 ->
  Z.pos (digits2_pos mb) = 53 -> eb <= 0 ->
  s * 2 ^ (- eb) <= Z.pos mb * n ->
  exists M E,
    div (of_Z s) (of_Z n) = S754_finite false M E
    /\ Z.pos (digits2_pos M) = 53 /\ -105 <= E <= 1
    /\ leb (S754_finite false M E) (S754_finite false mb eb) = true.
Proof.
  intros Hs Hn Hdb Heb Hle.
  destruct (of_Z_pos s Hs) as (ms & es & -> & Hds & Hes & Hms).
  destruct (of_Z_pos n Hn) as (mn & en & -> & Hdn & Hen & Hmn).
  destruct (div_le ms es mn en mb eb) as (M & E & HM & HdM & HE & Hl);
    try done; try lia.
  - intros Ht. rewrite Hms, Hmn.
    replace (s * 2 ^ (- es) * 2 ^ (es - en - eb))
      with (s * 2 ^ (- eb) * 2 ^ (- en)).
    { pose proof (pow2_pos (- en) ltac:(lia)). nia. }
    rewrite <- !Z.mul_assoc, !pow2_add by lia. do 2 f_equal. lia.
  - intros Ht. rewrite Hms, Hmn.
    replace (Z.pos mb * (n * 2 ^ (- en)) * 2 ^ (eb - (es - en)))
      with (Z.pos mb * n * 2 ^ (eb - es)).
    { replace (2 ^ (- es)) with (2 ^ (- eb) * 2 ^ (eb - es)).
      - pose proof (pow2_pos (eb - es) ltac:(lia)). nia.
      - rewrite pow2_add by lia. f_equal. lia. }
    rewrite <- !Z.mul_assoc, !pow2_add by lia. do 3 f_equal. lia.
  - exists M, E. split; [done|]. split; [done|]. split; [lia|done].
Qed.

Lemma quotient_ge (s n : Z) (mb : positive) (eb : Z) :
  0 < s < 2 ^ 53 -> 0 < n < 2 ^ 53 ->
  Z.pos (digits2_pos mb) = 53 -> eb <= 0 ->
  Z.pos mb * n <= s * 2 ^ (- eb) ->
  exists M E,
    div (of_Z s) (of_Z n) = S754_finite false M E
    /\ Z.pos (digits2_pos M) = 53 /\ -105 <= E <= 1
    /\ leb (S754_finite false mb eb) (S754_finite false M E) = true.
Proof.
  intros Hs Hn Hdb Heb Hle.
  destruct (of_Z_pos s Hs) as (ms & es & -> & Hds & Hes & Hms).
  destruct (of_Z_pos n Hn) as (mn & en & -> & Hdn & Hen & Hmn).
  destruct (div_ge ms es mn en mb eb) as (M & E & HM & HdM & HE & Hl);
    try done; try lia.
  - intros Ht. rewrite Hms, Hmn.
    replace (s * 2 ^ (- es) * 2 ^ (es - en - eb))
      with (s * 2 ^ (- eb) * 2 ^ (- en)).
    { pose proof (pow2_pos (- en) ltac:(lia)). nia. }
    rewrite <- !Z.mul_assoc, !pow2_add by lia. do 2 f_equal. lia.
  - intros Ht. rewrite Hms, Hmn.
    replace (Z.pos mb * (n * 2 ^ (- en)) * 2 ^ (eb - (es - en)))
      with (Z.pos mb * n * 2 ^ (eb - es)).
    { replace (2 ^ (- es)) with (2 ^ (- eb) * 2 ^ (eb - es)).
      - pose proof (pow2_pos (eb - es) ltac:(lia)). nia.
      - rewrite pow2_add by lia. f_equal. lia. }
    rewrite <- !Z.mul_assoc, !pow2_add by lia. do 3 f_equal. lia.
  - exists M, E. split; [done|]. split; [done|]. split; [lia|done].
Qed.

Lemma of_Z_100 : of_Z 100 = S754_finite false 7036874417766400 (-46).
Proof. by vm_compute. Qed.

(** [x * 100] for a number [x] between 0 and 1 - 2^-32. *)
Lemma percent_lt (mq : positive) (eq : Z) :
  Z.pos (digits2_pos mq) = 53 -> -105 <= eq ->
  leb (S754_finite false mq eq)
      (S754_finite false 9007199252643840 (-53)) = true ->
  exists M E,
    mul (S754_finite false mq eq) (S754_finite false 7036874417766400 (-46))
    = S754_finite false M E
    /\ leb (S754_finite false M E)
           (S754_finite false 7036874416128000 (-46)) = true.
Proof.
  intros Hd He Hle. apply leb_pos in Hle.
  pose proof (canonical_bounds mq Hd) as Hq.
  destruct (mul_le mq eq 7036874417766400 (-46) 7036874416128000 (-46))
    as (M & E & HM & _ & _ & Hl); try done; try lia.
  - replace (-46 - (eq + -46)) with (- eq) by lia.
    destruct Hle as [Hlt|[-> Hm]].
    + assert (2 ^ 54 <= 2 ^ (- eq)) by (apply Z.pow_le_mono_r; lia). nia.
    + change (2 ^ (- -53)) with 9007199254740992. lia.
  - by exists M, E.
Qed.

Lemma rate_none (n : Z) :
  0 < n < 2 ^ 53 -> mul (div (of_Z 0) (of_Z n)) (of_Z 100) = zero.
Proof.
  intros Hn.
  destruct (of_Z_pos n Hn) as (mn & en & -> & _). by rewrite of_Z_100.
Qed.

Lemma rate_all (n : Z) :
  0 < n < 2 ^ 53 -> mul (div (of_Z n) (of_Z n)) (of_Z 100) = of_Z 100.
Proof.
  intros Hn. rewrite of_Z_100.
  destruct (quotient_le n n 4503599627370496 (-52))
    as (mq & eq & Hq & Hd & He & Hle); try done; try lia.
  destruct (quotient_ge n n 4503599627370496 (-52))
    as (mq' & eq' & Hq' & _ & _ & Hge); try done; try lia.
  rewrite Hq in Hq'. injection Hq' as <- <-.
  rewrite Hq. rewrite (leb_antisym _ _ _ _ Hle Hge).
  by vm_compute.
Qed.

Lemma rate_part (s n : Z) :
  0 < s < n -> n < 2 ^ 32 ->
  exists M E,
    mul (div (of_Z s) (of_Z n)) (of_Z 100) = S754_finite false M E
    /\ leb (S754_finite false M E)
           (S754_finite false 7036874416128000 (-46)) = true.
Proof.
  intros Hs Hn. rewrite of_Z_100.
  destruct (quotient_le s n 9007199252643840 (-53))
    as (mq & eq & -> & Hd & He & Hle); try done; try lia.
  apply percent_lt; [done|lia|done].
Qed.

(** Rounding a mantissa that stands for a number: nothing is lost. *)
Lemma binary_round_exact (S : positive) (e : Z) (m' : positive) (e' c : Z) :
  Z.pos (digits2_pos m') = 53 -> -1074 <= e' <= 970 ->
  c <= e -> c <= e' ->
  Z.pos S * 2 ^ (e - c) = Z.pos m' * 2 ^ (e' - c) ->
  binary_round 53 1024 false S e = S754_finite false m' e'.
Proof.
  intros Hd' He' Hc Hc' Hv.
  pose proof (canonical_bounds m' Hd') as Hm'.
  pose proof (digits2_bounds S) as HS.
  set (d := Z.pos (digits2_pos S)) in *.
  assert (1 <= d) as Hd1 by (unfold d; lia).
  pose proof (pow2_pos (e - c) ltac:(lia)) as Hpe.
  pose proof (pow2_pos (e' - c) ltac:(lia)) as Hpe'.
  assert (d + e = 53 + e') as Hde.
  { assert (2 ^ (d - 1) * 2 ^ (e - c) < 2 ^ 53 * 2 ^ (e' - c)) as H1 by nia.
    assert (2 ^ 52 * 2 ^ (e' - c) < 2 ^ d * 2 ^ (e - c)) as H2 by nia.
    rewrite !pow2_add in H1, H2 by lia.
    apply Z.pow_lt_mono_r_iff in H1; [|lia..].
    apply Z.pow_lt_mono_r_iff in H2; [|lia..]. lia. }
  destruct (Z.leb_spec d 53) as [Hle|Hgt].
  - rewrite round_small by (fold d; lia). fold d.
    assert (Z.pos S * 2 ^ (53 - d) = Z.pos m') as Hm.
    { replace (e - c) with ((e' - c) + (53 - d)) in Hv by lia.
      rewrite <- pow2_add in Hv by lia. nia. }
    rewrite Hm. simpl Z.to_pos. f_equal. lia.
  - unfold binary_round, shl_align, fexp, emin. fold d.
    replace (Z.max (d + e - 53) (3 - 1024 - 53) - e) with (d - 53) by lia.
    destruct (d - 53) as [|k|k] eqn:Hk; [lia| |lia].
    assert (Z.pos S = Z.pos m' * 2 ^ Z.pos k) as HSm.
    { replace (e' - c) with ((e - c) + Z.pos k) in Hv by lia.
      rewrite <- pow2_add in Hv by lia. nia. }
    destruct (round_aux_form false S e loc_Exact) as (M & E & -> & _ & _ & Hex);
      [fold d; lia | fold d; lia |].
    fold d in Hex. rewrite Hk in Hex.
    pose proof (pow2_pos (Z.pos k) ltac:(lia)) as Hpk.
    destruct Hex as [-> HM]; [done| |].
    + rewrite HSm. apply Z.mod_mul. lia.
    + rewrite HSm, Z.div_mul in HM by lia. f_equal; lia.
Qed.

Lemma shl_align_value (m : positive) (e ez : Z) :
  ez <= e -> Z.pos (shl_align m e ez).1 = Z.pos m * 2 ^ (e - ez).
Proof.
  intros He. unfold shl_align.
  destruct (ez - e) as [|k|k] eqn:Hk; cbn [fst].
  - replace (e - ez) with 0 by lia. lia.
  - lia.
  - rewrite iter_xO. do 2 f_equal. lia.
Qed.

(** Integers whose sum or product is below 2^53: the operations are
    exact. *)
Lemma add_exact (a b : Z) :
  0 <= a -> 0 <= b -> a + b < 2 ^ 53 -> add (of_Z a) (of_Z b) = of_Z (a + b).
Proof.
  intros Ha Hb Hab.
  destruct (decide (a = 0)) as [->|Ha0].
  { rewrite Z.add_0_l. destruct (decide (b = 0)) as [->|Hb0]; [done|].
    by destruct (of_Z_pos b ltac:(lia)) as (mb & eb & -> & _). }
  destruct (decide (b = 0)) as [->|Hb0].
  { rewrite Z.add_0_r.
    by destruct (of_Z_pos a ltac:(lia)) as (ma & ea & -> & _). }
  destruct (of_Z_pos a ltac:(lia)) as (ma & ea & -> & Hda & Hea & Hma).
  destruct (of_Z_pos b ltac:(lia)) as (mb & eb & -> & Hdb & Heb & Hmb).
  destruct (of_Z_pos (a + b) ltac:(lia)) as (mp & ep & -> & Hdp & Hep & Hmp).
  unfold add, SFadd. cbn [cond_Zopp].
  set (ez := Z.min ea eb).
  rewrite <- Pos2Z.inj_add. cbn [binary_normalize].
  apply binary_round_exact with (c := Z.min ez ep); [done|lia|lia|lia|].
  rewrite Pos2Z.inj_add, !shl_align_value by lia. rewrite Hma, Hmb, Hmp.
  set (c := Z.min ez ep).
  rewrite Z.mul_add_distr_r, <- !Z.mul_assoc, !pow2_add by lia.
  replace (- ea + (ea - ez + (ez - c))) with (- c) by lia.
  replace (- eb + (eb - ez + (ez - c))) with (- c) by lia.
  replace (- ep + (ep - c)) with (- c) by lia. lia.
Qed.

Lemma mul_exact (a b : Z) :
  0 <= a < 2 ^ 53 -> 0 <= b < 2 ^ 53 -> a * b < 2 ^ 53 ->
  mul (of_Z a) (of_Z b) = of_Z (a * b).
Proof.
  intros Ha Hb Hab.
  destruct (decide (a = 0)) as [->|Ha0].
  { rewrite Z.mul_0_l. destruct (decide (b = 0)) as [->|Hb0]; [done|].
    by destruct (of_Z_pos b ltac:(lia)) as (mb & eb & -> & _). }
  destruct (decide (b = 0)) as [->|Hb0].
  { rewrite Z.mul_0_r.
    by destruct (of_Z_pos a ltac:(lia)) as (ma & ea & -> & _). }
  assert (0 < a * b) as Hpos by nia.
  destruct (of_Z_pos a ltac:(lia)) as (ma & ea & -> & Hda & Hea & Hma).
  destruct (of_Z_pos b ltac:(lia)) as (mb & eb & -> & Hdb & Heb & Hmb).
  destruct (of_Z_pos (a * b) ltac:(lia)) as (mp & ep & -> & Hdp & Hep & Hmp).
  pose proof (canonical_bounds ma Hda) as Hba.
  pose proof (canonical_bounds mb Hdb) as Hbb.
  pose proof (canonical_bounds mp Hdp) as Hbp.
  assert (Z.pos ma * Z.pos mb * 2 ^ (- ep) = Z.pos mp * 2 ^ (- ea - eb))
    as Hv.
  { rewrite Hma, Hmb, Hmp.
    replace (2 ^ (- ea - eb)) with (2 ^ (- ea) * 2 ^ (- eb)); [ring|].
    by rewrite pow2_add by lia. }
  assert (ea + eb < ep) as Ht.
  { destruct (Z.ltb_spec (ea + eb) ep); [done|exfalso].
    assert (2 ^ (- ea - eb) <= 2 ^ (- ep)) by (apply Z.pow_le_mono_r; lia).
    pose proof (pow2_pos (- ea - eb) ltac:(lia)).
    assert (2 ^ 104 <= Z.pos ma * Z.pos mb) by nia.
    assert (Z.pos mp * 2 ^ (- ea - eb) <= Z.pos mp * 2 ^ (- ep)) by nia.
    assert (2 ^ 104 * 2 ^ (- ep) <= Z.pos ma * Z.pos mb * 2 ^ (- ep)) by nia.
    nia. }
  assert (Z.pos ma * Z.pos mb = Z.pos mp * 2 ^ (ep - (ea + eb))) as Heq.
  { replace (- ea - eb) with ((ep - (ea + eb)) + (- ep)) in Hv by lia.
    rewrite <- pow2_add in Hv by lia.
    pose proof (pow2_pos (- ep) ltac:(lia)). nia. }
  destruct (mul_le ma ea mb eb mp ep) as (M & E & HM & _ & _ & Hle);
    try done; try lia.
  destruct (mul_ge ma ea mb eb mp ep) as (M' & E' & HM' & _ & _ & Hge);
    try done; try lia.
  rewrite HM in HM'. injection HM' as <- <-.
  rewrite HM. by apply leb_antisym.
Qed.

Lemma to_Z_of_Z (z : Z) : 0 <= z < 2 ^ 53 -> to_Z (of_Z z) = Some z.
Proof.
  intros Hz. destruct (decide (z = 0)) as [->|Hz0]; [done|].
  destruct (of_Z_pos z ltac:(lia)) as (m & e & -> & _ & He & Hm).
  unfold to_Z. destruct (Z.leb_spec 0 e) as [He0|He0].
  - assert (e = 0) as -> by lia. simpl in Hm. f_equal. lia.
  - pose proof (pow2_pos (- e) ltac:(lia)).
    rewrite Hm, Z.mod_mul, Z.div_mul by lia. done.
Qed.

(** Below 2^53 the sum of two integers from 0 on, as [js_add] gives it, is
    the sum that the addition of binary64 returns. *)
Lemma js_add_is_binary64_add (a b : Z) :
  0 <= a -> 0 <= b -> a + b < 2 ^ 53 ->
  to_Z (add (of_Z a) (of_Z b)) = Some (js_add a b).
Proof.
  intros Ha Hb Hab. rewrite add_exact, to_Z_of_Z by lia.
  by rewrite js_add_exact by lia.
Qed.
End Binary64Facts.

(** ** Strings *)

Section SplitFacts.
Import HintRule.

Lemma drop_gap_runs (s : jsstring) :
  drop_gap (runs s) = runs (drop_while is_space s).
Proof.
  induction s as [|c rest IH]; simpl; [done|].
  destruct (is_space c) eqn:Hc; simpl; rewrite ?Hc; [|done].
  rewrite <- IH. by destruct (runs rest) as [|[|] ?].
Qed.

Lemma extend_extend (u v : jsstring) (ws : list jsstring) :
  extend u (extend v ws) = extend (u ++ v) ws.
Proof. destruct ws; simpl; by rewrite <- ?app_assoc. Qed.

Lemma words_nonempty (l : list item) : words l <> [].
Proof.
  induction l as [|[|c] t IH]; simpl; try done.
  by destruct (words t).
Qed.

Lemma extend_nil (ws : list jsstring) : ws <> [] -> extend [] ws = ws.
Proof. by destruct ws. Qed.

(** The scanning loop yields the words between the gaps, the pending
    substring being the beginning of the first of them. *)
Lemma split_scan_words (s : jsstring) :
  (forall word, split_scan word false s = extend word (words (runs s)))
  /\ split_scan [] true s = words (runs (drop_while is_space s)).
Proof.
  induction s as [|c rest [IHf IHt]]; simpl.
  - split; [intros word; by rewrite app_nil_r | done].
  - destruct (is_space c) eqn:Hc; simpl.
    + split; [|done].
      intros word. by rewrite IHt, drop_gap_runs, app_nil_r.
    + rewrite Hc. split.
      * intros word. by rewrite IHf, extend_extend.
      * by rewrite IHf.
Qed.

Lemma split_ws_words (s : jsstring) : split_ws s = words (runs s).
Proof.
  destruct s as [|c rest]; [done|].
  unfold split_ws. destruct (split_scan_words (c :: rest)) as [-> _].
  apply extend_nil, words_nonempty.
Qed.

(** A text made of white space only splits into two empty words. *)
Lemma split_ws_blank (s : jsstring) :
  s <> [] -> forallb is_space s = true -> split_ws s = [[]; []].
Proof.
  intros Hne Hall. rewrite split_ws_words.
  destruct s as [|c rest]; [done|]. simpl in *.
  apply andb_true_iff in Hall as [-> Hrest]. f_equal.
  rewrite drop_gap_runs.
  assert (drop_while is_space rest = []) as ->; [|done].
  clear c Hne. induction rest as [|c rest IH]; simpl in *; [done|].
  apply andb_true_iff in Hrest as [-> Hrest]. auto.
Qed.
End SplitFacts.

(** ** getHint *)

Example getHint_custom :
  getHint (mkCard "Question" "Answer" "This is a custom hint")
  = lit "This is a custom hint".
Proof. reflexivity. Qed.

Example getHint_two_words :
  getHint (mkCard "Q" "hello  (big) world" "") = lit "h____ b____ w____".
Proof. reflexivity. Qed.

Example getHint_digits : getHint (mkCard "Q" "42 is it" " ") = lit " i_ i_".
Proof. reflexivity. Qed.

Example getHint_leading_space : getHint (mkCard "Q" " x " "") = lit " x ".
Proof. reflexivity. Qed.

Section HintFacts.
Import HintRule.

Lemma head_drop_while_filter (p : N -> bool) (w : jsstring) :
  head (drop_while (fun c => negb (p c)) w) = head (List.filter p w).
Proof.
  induction w as [|c w IH]; simpl; [done|].
  by destruct (p c).
Qed.

Lemma repeat_unit_pred (w : jsstring) (c : N) :
  repeat_unit c (Z.max 0 (str_length w - 1)) = replicate (length w - 1) c.
Proof. unfold repeat_unit, str_length. f_equal. lia. Qed.

(** The callback computes the token of the rule. *)
Lemma hint_word_token (w : jsstring) : hint_word w = token w.
Proof.
  unfold hint_word, token, first_alphabetic.
  rewrite <- head_drop_while_filter.
  destruct w as [|a w]; [done|].
  assert ((str_length (a :: w) =? 0) = false) as ->.
  { apply Z.eqb_neq. unfold str_length. simpl length. lia. }
  destruct (drop_while _ (a :: w)) as [|c ?]; simpl; [done|].
  by rewrite repeat_unit_pred.
Qed.

Lemma masked_rule (b : jsstring) :
  masked b = join space (map token (words (runs b))).
Proof.
  unfold masked. rewrite split_ws_words. f_equal.
  apply map_ext, hint_word_token.
Qed.

(** Leading code units outside [a-zA-Z] are skipped, the first one inside
    is shown, and every code unit of the word counts for the length. *)
Lemma hint_word_first_letter (pre rest : jsstring) (c : N) :
  Forall (fun x => is_ascii_letter x = false) pre ->
  is_ascii_letter c = true ->
  hint_word (pre ++ c :: rest)
  = c :: replicate (length pre + length rest) underscore.
Proof.
  intros Hpre Hc. rewrite hint_word_token. unfold token, first_alphabetic.
  assert (List.filter is_ascii_letter (pre ++ c :: rest)
          = c :: List.filter is_ascii_letter rest) as ->.
  { induction Hpre as [|x pre Hx _ IH]; simpl.
    - by rewrite Hc.
    - by rewrite Hx. }
  simpl. do 2 f_equal. rewrite length_app. simpl. lia.
Qed.

Lemma is_ascii_letter_spec (c : N) :
  is_ascii_letter c = true <-> (97 <= c <= 122)%N \/ (65 <= c <= 90)%N.
Proof.
  unfold is_ascii_letter, between.
  rewrite orb_true_iff, !andb_true_iff, !N.leb_le. tauto.
Qed.
End HintFacts.

Lemma getHint_no_authored (card : Flashcard) :
  no_authored_hint card ->
  getHint card = match back card with
                 | None | Some [] => []
                 | Some b => masked b
                 end.
Proof.
  unfold no_authored_hint, getHint. destruct (hint card) as [[|c h]|]; try done.
  intros ->. done.
Qed.


(** C9. For a card without authored hint whose answer is not empty and made
    of white space only, [getHint] returns one space: the split yields two
    empty words, whose empty tokens are joined by the separator. *)
Theorem getHint_blank_answer (card : Flashcard) (b : jsstring) :
  no_authored_hint card ->
  back card = Some b ->
  b <> [] ->
  Forall (fun c => is_space c = true) b ->
  split_ws b = [[]; []] /\ getHint card = space.
Proof.
  intros Hh Hb Hne Hall.
  assert (split_ws b = [[]; []]) as Hs.
  { apply split_ws_blank; [done|].
    apply forallb_forall. intros c Hc.
    rewrite Forall_forall in Hall. by apply Hall, list_elem_of_In. }
  split; [done|].
  rewrite getHint_no_authored, Hb by done.
  destruct b; [done|]. unfold masked. by rewrite Hs.
Qed.

Lemma getHint_blank_answer_witness :
  getHint (mkCard "Q" "   " "") = lit " "
  /\ getHint {| front := lit "Q"; back := Some (lit " "); hint := None;
                tags := [] |} = lit " ".
Proof.
  split.
  - apply (getHint_blank_answer (mkCard "Q" "   " "") (lit "   "));
      [reflexivity | reflexivity | discriminate | by repeat constructor].
  - refine (proj2 (getHint_blank_answer _ (lit " ") _ _ _ _));
      [exact I | reflexivity | discriminate | by repeat constructor].
Defined.

(** C10. In the masking step a letter is one of the code units of a-z and
    A-Z only: any other leading code unit, such as the accented letter
    U+00E9, is skipped like punctuation while it still counts for the length
    of the word; the answer "élan" without authored hint gives "l___". *)
Theorem getHint_ascii_letters_only :
  (forall c : N,
      is_ascii_letter c = true <-> (97 <= c <= 122)%N \/ (65 <= c <= 90)%N)
  /\ (forall (pre rest : jsstring) (c : N),
         Forall (fun x => (128 <= x)%N \/ is_ascii_letter x = false) pre ->
         is_ascii_letter c = true ->
         hint_word (pre ++ c :: rest)
         = c :: replicate (length (pre ++ c :: rest) - 1) underscore)
  /\ getHint {| front := lit "Q"; back := Some elan; hint := None; tags := [] |}
     = lit "l___".
Proof.
  split; [apply is_ascii_letter_spec|]. split; [|reflexivity].
  intros pre rest c Hpre Hc.
  rewrite hint_word_first_letter; [| |done].
  - do 2 f_equal. rewrite length_app. simpl. lia.
  - eapply Forall_impl; [exact Hpre|]. intros x [Hx|Hx]; [|done].
    destruct (is_ascii_letter x) eqn:E; [|done].
    apply is_ascii_letter_spec in E. lia.
Qed.

Lemma getHint_ascii_letters_only_witness :
  hint_word elan = lit "l___".
Proof.
  apply (proj1 (proj2 getHint_ascii_letters_only) [233%N] (lit "an") 108%N).
  - constructor; [left; lia | constructor].
  - reflexivity.
Defined.

(** ** Sets *)

Section SetFacts.
Implicit Types (s acc cards : JsSet) (c x : CardRef).

Lemma set_has_true s c : set_has s c = true <-> c ∈ s.
Proof. unfold set_has. apply bool_decide_eq_true. Qed.

Lemma set_has_false s c : set_has s c = false <-> c ∉ s.
Proof. unfold set_has. apply bool_decide_eq_false. Qed.

Lemma elem_of_set_add s c x : x ∈ set_add s c <-> x ∈ s \/ x = c.
Proof.
  unfold set_add. destruct (set_has s c) eqn:E.
  - apply set_has_true in E. split; [auto|]. by intros [?| ->].
  - rewrite elem_of_app, list_elem_of_singleton. tauto.
Qed.

Lemma NoDup_set_add s c : NoDup s -> NoDup (set_add s c).
Proof.
  intros Hs. unfold set_add. destruct (set_has s c) eqn:E; [done|].
  apply set_has_false in E. apply NoDup_app. split; [done|].
  split; [|apply NoDup_singleton].
  intros x Hx ->%list_elem_of_singleton. done.
Qed.

Lemma elem_of_add_all cards acc x :
  x ∈ add_all acc cards <-> x ∈ acc \/ x ∈ cards.
Proof.
  unfold add_all. revert acc.
  induction cards as [|c cards IH]; intros acc; simpl.
  - rewrite elem_of_nil. tauto.
  - rewrite IH, elem_of_set_add, elem_of_cons. tauto.
Qed.

Lemma NoDup_add_all cards acc : NoDup acc -> NoDup (add_all acc cards).
Proof.
  unfold add_all. revert acc.
  induction cards as [|c cards IH]; intros acc Hacc; simpl; [done|].
  by apply IH, NoDup_set_add.
Qed.

Lemma elem_of_set_of (l : list CardRef) x : x ∈ set_of l <-> x ∈ l.
Proof.
  change (set_of l) with (add_all [] l).
  rewrite elem_of_add_all, elem_of_nil. tauto.
Qed.

Lemma elem_of_set_delete s c x : x ∈ set_delete s c <-> x ∈ s /\ x <> c.
Proof.
  unfold set_delete.
  rewrite !list_elem_of_In, filter_In, negb_true_iff, bool_decide_eq_false.
  done.
Qed.

Lemma set_size_pos s : (0 <? set_size s) = true <-> s <> [].
Proof.
  unfold set_size. rewrite Z.ltb_lt. destruct s; simpl; split; try done; lia.
Qed.
End SetFacts.

(** ** practice *)

Lemma rem_zero_iff_mod_zero (day i : Z) :
  i <> 0 -> Z.rem day i = 0 <-> day `mod` i = 0.
Proof. intros Hi. by rewrite Z.rem_divide, Z.mod_divide. Qed.

(** What the second loop adds, starting at position [index]. *)
Lemma elem_of_practice_from (day : Z) (buckets : list JsSet) :
  forall (index : Z) (acc : JsSet) (c : CardRef),
    c ∈ practice_from day index buckets acc <->
    c ∈ acc \/
    exists (j : nat) (b : JsSet),
      buckets !! j = Some b /\ 0 < index + Z.of_nat j /\ c ∈ b
      /\ Z.rem day (index + Z.of_nat j) = 0.
Proof.
  induction buckets as [|bucket rest IH]; intros index acc c; simpl.
  - split; [auto|]. intros [?|(j & b & Hj & _)]; [done|]. by destruct j.
  - rewrite IH. split.
    + intros [Hc|(j & b & Hj & Hpos & Hb & Hrem)].
      * destruct (_ && _ && _) eqn:E; [|auto].
        apply elem_of_add_all in Hc as [?|Hc]; [auto|].
        apply andb_true_iff in E as [[Hi _]%andb_true_iff Hr].
        right. exists 0%nat, bucket. rewrite Z.add_0_r.
        repeat split; [lia|done|lia].
      * right. exists (S j), b. rewrite Nat2Z.inj_succ.
        replace (index + Z.succ (Z.of_nat j)) with (index + 1 + Z.of_nat j) by lia.
        done.
    + intros [Hc|(j & b & Hj & Hpos & Hb & Hrem)].
      * left. destruct (_ && _ && _); [|done]. apply elem_of_add_all. auto.
      * destruct j as [|j]; simpl in Hj.
        -- injection Hj as ->. left. rewrite Z.add_0_r in Hpos, Hrem.
           assert ((0 <? index) && (0 <? set_size b)
                   && (Z.rem day index =? 0) = true) as ->.
           { rewrite !andb_true_iff, Z.eqb_eq, set_size_pos, Z.ltb_lt.
             repeat split; [done| |done]. intros ->. by apply elem_of_nil in Hb. }
           apply elem_of_add_all. auto.
        -- right. exists j, b. rewrite Nat2Z.inj_succ in Hpos, Hrem.
           replace (index + 1 + Z.of_nat j) with (index + Z.succ (Z.of_nat j))
             by lia.
           done.
Qed.

Lemma NoDup_practice_from (day : Z) (buckets : list JsSet) :
  forall (index : Z) (acc : JsSet),
    NoDup acc -> NoDup (practice_from day index buckets acc).
Proof.
  induction buckets as [|bucket rest IH]; intros index acc Hacc; simpl; [done|].
  apply IH. destruct (_ && _ && _); [|done]. by apply NoDup_add_all.
Qed.

Lemma elem_of_practice (buckets : list JsSet) (day : Z) (c : CardRef) :
  c ∈ practice buckets day <->
  (exists b0, buckets !! 0%nat = Some b0 /\ c ∈ b0)
  \/ (exists (i : nat) (b : JsSet),
         (0 < i)%nat /\ buckets !! i = Some b /\ c ∈ b
         /\ Z.rem day (Z.of_nat i) = 0).
Proof.
  unfold practice. rewrite elem_of_practice_from. simpl.
  f_equiv.
  - destruct (buckets !! 0%nat) as [b0|] eqn:E.
    + rewrite elem_of_add_all, elem_of_nil. split.
      * intros [[]|?]. eauto.
      * intros (b & [= <-] & ?). auto.
    + rewrite elem_of_nil. split; [done|]. by intros (b & ? & _).
  - split; intros (i & b & H); exists i, b; intuition lia.
Qed.

(** C3. A card is practised on [day] exactly when it is in bucket 0, or in
    a bucket [i > 0] with [day mod i = 0]; this holds for every integer
    [day], negative ones and zero included.  In particular the cards of
    bucket 0 are always practised. *)
Theorem practice_membership (buckets : list JsSet) (day : Z) :
  (forall c : CardRef,
      c ∈ practice buckets day <->
      (exists b0, buckets !! 0%nat = Some b0 /\ c ∈ b0)
      \/ (exists (i : nat) (b : JsSet),
             (0 < i)%nat /\ buckets !! i = Some b /\ c ∈ b
             /\ day `mod` Z.of_nat i = 0))
  /\ (forall b0, buckets !! 0%nat = Some b0 -> b0 ⊆ practice buckets day).
Proof.
  split.
  - intros c. rewrite elem_of_practice. apply or_iff_compat_l.
    split; intros (i & b & Hi & Hb & Hc & Hd); exists i, b;
      repeat split; try done; apply rem_zero_iff_mod_zero in Hd; (done || lia).
  - intros b0 Hb0 c Hc. apply elem_of_practice. left. eauto.
Qed.

Lemma practice_membership_witness :
  [1%nat; 2%nat] ⊆ practice [[1%nat; 2%nat]; []; [3%nat]] (-4).
Proof.
  apply (proj2 (practice_membership [[1%nat; 2%nat]; []; [3%nat]] (-4))).
  reflexivity.
Defined.

(** C4. On day 0 every bucket is practised: the result is the union of the
    cards of all buckets (those of the empty ones adding nothing), without
    repetition. *)
Theorem practice_day_zero (buckets : list JsSet) :
  (forall c : CardRef,
      c ∈ practice buckets 0 <->
      exists (i : nat) (b : JsSet), buckets !! i = Some b /\ b <> [] /\ c ∈ b)
  /\ NoDup (practice buckets 0).
Proof.
  split.
  - intros c. rewrite elem_of_practice. split.
    + intros [(b0 & H0 & Hc)|(i & b & _ & Hb & Hc & _)];
        [exists 0%nat, b0 | exists i, b]; repeat split; try done;
        intros ->; by apply elem_of_nil in Hc.
    + intros (i & b & Hb & _ & Hc). destruct i as [|i]; [left; eauto|].
      right. exists (S i), b. repeat split; [lia|done|done].
  - unfold practice. apply NoDup_practice_from.
    destruct (buckets !! 0%nat); [apply NoDup_add_all|]; apply NoDup_nil_2.
Qed.


Lemma practice_day_zero_witness : 3%nat ∈ practice [[1%nat]; []; [3%nat]] 0.
Proof.
  apply (proj1 (practice_day_zero [[1%nat]; []; [3%nat]])).
  exists 2%nat, [3%nat]. repeat split; [done|]. left.
Defined.

(** ** getBucketRange *)

Lemma math_min_spec (ks : list Z) :
  forall k, math_min k ks ∈ k :: ks /\ forall x, x ∈ k :: ks -> math_min k ks <= x.
Proof.
  unfold math_min. induction ks as [|k' ks IH]; intros k; simpl.
  - split; [left|]. intros x ->%list_elem_of_singleton. lia.
  - destruct (IH (Z.min k k')) as [Hin Hle]. split.
    + apply elem_of_cons in Hin as [->|Hin].
      * destruct (Z.min_spec k k') as [[_ ->]|[_ ->]];
          [left | right; left].
      * by do 2 right.
    + intros x Hx. apply elem_of_cons in Hx as [->|Hx].
      * specialize (Hle (Z.min k k')). pose proof (Hle (list_elem_of_here _ _)). lia.
      * apply elem_of_cons in Hx as [->|Hx].
        -- pose proof (Hle (Z.min k k') (list_elem_of_here _ _)). lia.
        -- apply Hle. by right.
Qed.

Lemma math_max_spec (ks : list Z) :
  forall k, math_max k ks ∈ k :: ks /\ forall x, x ∈ k :: ks -> x <= math_max k ks.
Proof.
  unfold math_max. induction ks as [|k' ks IH]; intros k; simpl.
  - split; [left|]. intros x ->%list_elem_of_singleton. lia.
  - destruct (IH (Z.max k k')) as [Hin Hle]. split.
    + apply elem_of_cons in Hin as [->|Hin].
      * destruct (Z.max_spec k k') as [[_ ->]|[_ ->]];
          [right; left | left].
      * by do 2 right.
    + intros x Hx. apply elem_of_cons in Hx as [->|Hx].
      * pose proof (Hle (Z.max k k') (list_elem_of_here _ _)). lia.
      * apply elem_of_cons in Hx as [->|Hx].
        -- pose proof (Hle (Z.max k k') (list_elem_of_here _ _)). lia.
        -- apply Hle. by right.
Qed.

(** The reducer collects the positions of the non-empty sets. *)
Lemma elem_of_valid_from (buckets : list JsSet) :
  forall (index : Z) (acc : list Z) (k : Z),
    k ∈ valid_from index buckets acc <->
    k ∈ acc \/
    exists (j : nat) (b : JsSet),
      buckets !! j = Some b /\ b <> [] /\ k = index + Z.of_nat j.
Proof.
  induction buckets as [|set rest IH]; intros index acc k; simpl.
  - split; [auto|]. intros [?|(j & b & Hj & _)]; [done|]. by destruct j.
  - rewrite IH. split.
    + intros [Hk|(j & b & Hj & Hb & ->)].
      * destruct (0 <? set_size set) eqn:E; [|auto].
        apply elem_of_app in Hk as [?|Hk]; [auto|].
        apply list_elem_of_singleton in Hk as ->.
        right. exists 0%nat, set. apply set_size_pos in E.
        repeat split; [done|lia].
      * right. exists (S j), b. repeat split; [done..|lia].
    + intros [Hk|(j & b & Hj & Hb & ->)].
      * left. destruct (0 <? set_size set); [|done]. apply elem_of_app. auto.
      * destruct j as [|j]; simpl in Hj.
        -- injection Hj as ->. left. apply set_size_pos in Hb. rewrite Hb.
           apply elem_of_app. right. apply list_elem_of_singleton. lia.
        -- right. exists j, b. repeat split; [done..|lia].
Qed.

Lemma elem_of_valid (buckets : list JsSet) (k : Z) :
  k ∈ valid_from 0 buckets [] <-> occupied buckets k.
Proof.
  rewrite elem_of_valid_from, elem_of_nil. unfold occupied.
  split.
  - intros [[]|(j & b & ? & ? & ->)]. by exists j, b.
  - intros (j & b & ? & ? & ->). right. by exists j, b.
Qed.

Lemma occupied_none_iff (buckets : list JsSet) :
  (forall k, ~ occupied buckets k) <-> Forall (fun b => b = []) buckets.
Proof.
  rewrite Forall_lookup. split.
  - intros H j b Hj. destruct b as [|c b]; [done|].
    destruct (H (Z.of_nat j)). by exists j, (c :: b).
  - intros H k (j & b & Hj & Hb & _). by apply Hb, (H j).
Qed.

(** C6. [getBucketRange] returns [undefined] exactly when the sequence is
    empty or all its sets are empty; otherwise it returns the least and the
    greatest index holding a non-empty set, which are the same index [k]
    when [k] is the only one. *)
Theorem getBucketRange_spec (buckets : list JsSet) :
  (getBucketRange buckets = None <->
   buckets = [] \/ Forall (fun b => b = []) buckets)
  /\ (forall r, getBucketRange buckets = Some r ->
        occupied buckets (minBucket r) /\ occupied buckets (maxBucket r)
        /\ forall k, occupied buckets k -> minBucket r <= k <= maxBucket r)
  /\ (forall k, occupied buckets k ->
        (forall k', occupied buckets k' -> k' = k) ->
        getBucketRange buckets = Some {| minBucket := k; maxBucket := k |}).
Proof.
  assert (forall r, getBucketRange buckets = Some r ->
        occupied buckets (minBucket r) /\ occupied buckets (maxBucket r)
        /\ forall k, occupied buckets k -> minBucket r <= k <= maxBucket r)
    as Hsome.
  { intros r. unfold getBucketRange.
    destruct (valid_from 0 buckets []) as [|i rest] eqn:E; [done|].
    intros [= <-]. simpl.
    destruct (math_min_spec rest i) as [Hmin Hle].
    destruct (math_max_spec rest i) as [Hmax Hge].
    rewrite <- E in Hmin, Hmax, Hle, Hge.
    setoid_rewrite elem_of_valid in Hle. setoid_rewrite elem_of_valid in Hge.
    apply elem_of_valid in Hmin, Hmax. repeat split; auto. }
  assert (getBucketRange buckets = None <-> forall k, ~ occupied buckets k)
    as Hnone.
  { unfold getBucketRange. setoid_rewrite <- elem_of_valid.
    destruct (valid_from 0 buckets []) as [|i rest]; split; try done.
    - intros _ k. apply not_elem_of_nil.
    - intros H. destruct (H i). left. }
  split; [|split; [done|]].
  - rewrite Hnone, occupied_none_iff. split; [auto|].
    intros [->|?]; [constructor|done].
  - intros k Hk Honly.
    destruct (getBucketRange buckets) as [[lo hi]|] eqn:E.
    + destruct (Hsome _ eq_refl) as (Hlo & Hhi & _). simpl in *.
      by rewrite (Honly _ Hlo), (Honly _ Hhi).
    + by destruct (proj1 Hnone eq_refl k).
Qed.


(** ** Maps *)

Section MapFacts.
Context {V : Type}.
Implicit Types (m : list (Z * V)) (k : Z) (v : V).

Lemma map_get_None m k : map_get m k = None <-> k ∉ map_keys m.
Proof.
  unfold map_keys. induction m as [|[k' v'] m IH]; simpl.
  - split; [intros _; apply not_elem_of_nil | done].
  - rewrite not_elem_of_cons. destruct (Z.eqb_spec k' k) as [->|Hne].
    + split; [done | by intros [? _]].
    + rewrite IH. split; [auto | tauto].
Qed.

Lemma map_get_Some_key m k v : map_get m k = Some v -> k ∈ map_keys m.
Proof.
  intros H. destruct (decide (k ∈ map_keys m)) as [|Hn]; [done|].
  apply map_get_None in Hn. congruence.
Qed.

Lemma map_has_true m k : map_has m k = true <-> k ∈ map_keys m.
Proof.
  unfold map_has. destruct (map_get m k) eqn:E.
  - split; [intros _; by eapply map_get_Some_key | done].
  - apply map_get_None in E. split; [done | tauto].
Qed.
End MapFacts.

(** ** toBucketSets *)

Lemma dense_sets_nonempty (e : Z * JsSet) (rest : BucketMap) :
  dense_sets (e :: rest)
  = (fun index =>
       match map_get (e :: rest) index with
       | Some bucketCards => set_of bucketCards
       | None => []
       end) <$> seqZ 0 (math_max e.1 (map_keys rest) + 1).
Proof. by destruct e. Qed.

Lemma dense_sets_lookup (M : BucketMap) (i : nat) :
  (i < length (dense_sets M))%nat ->
  dense_sets M !! i
  = Some (match map_get M (Z.of_nat i) with
          | Some bucketCards => set_of bucketCards
          | None => []
          end).
Proof.
  destruct M as [|e rest]; [simpl; lia|].
  rewrite dense_sets_nonempty, length_fmap, length_seqZ. intros Hi.
  rewrite list_lookup_fmap, lookup_seqZ_lt by lia. done.
Qed.

(** The dense sequence of a bucket map with non-negative keys. *)
Lemma dense_sets_facts (M : BucketMap) :
  Forall (fun k => 0 <= k) (map_keys M) ->
  (M = [] -> length (dense_sets M) = 0%nat)
  /\ (M <> [] ->
      exists kmax,
        kmax ∈ map_keys M /\ (forall k, k ∈ map_keys M -> k <= kmax)
        /\ Z.of_nat (length (dense_sets M)) = kmax + 1)
  /\ (forall k cards,
        map_get M k = Some cards ->
        exists s, dense_sets M !! Z.to_nat k = Some s
                  /\ forall c, c ∈ s <-> c ∈ cards)
  /\ (forall i : nat,
        (i < length (dense_sets M))%nat -> Z.of_nat i ∉ map_keys M ->
        dense_sets M !! i = Some []).
Proof.
  intros Hkeys.
  assert (M <> [] ->
      exists kmax,
        kmax ∈ map_keys M /\ (forall k, k ∈ map_keys M -> k <= kmax)
        /\ Z.of_nat (length (dense_sets M)) = kmax + 1) as Hlen.
  { destruct M as [|e rest]; [done|]. intros _.
    exists (math_max e.1 (map_keys rest)).
    destruct (math_max_spec (map_keys rest) e.1) as [Hin Hle].
    change (e.1 :: map_keys rest) with (map_keys (e :: rest)) in Hin, Hle.
    repeat split; [done..|].
    rewrite dense_sets_nonempty, length_fmap, length_seqZ.
    rewrite Forall_forall in Hkeys. apply Hkeys in Hin. lia. }
  split; [by intros ->|]. split; [done|]. split.
  - intros k cards Hk. exists (set_of cards). split; [|apply elem_of_set_of].
    assert (M <> []) as Hne by (by intros ->).
    destruct (Hlen Hne) as (kmax & _ & Hmax & Hl).
    pose proof (map_get_Some_key _ _ _ Hk) as Hin.
    rewrite Forall_forall in Hkeys. pose proof (Hkeys _ Hin).
    pose proof (Hmax _ Hin).
    rewrite dense_sets_lookup by lia.
    rewrite Z2Nat.id by lia. by rewrite Hk.
  - intros i Hi Hnot. rewrite dense_sets_lookup by done.
    apply map_get_None in Hnot. by rewrite Hnot.
Qed.

(** When [toBucketSets] returns, it returns the dense sequence; it returns
    when the greatest key is below 2^32 - 1 and throws otherwise. *)
Lemma toBucketSets_cases (e : Z * JsSet) (rest : BucketMap) :
  let kmax := math_max e.1 (map_keys rest) in
  (kmax < 2 ^ 32 - 1 ->
   toBucketSets (e :: rest) = Returns (dense_sets (e :: rest)))
  /\ (2 ^ 32 - 1 <= kmax -> toBucketSets (e :: rest) = Throws RangeError).
Proof.
  intros kmax. destruct (array_length_cases kmax) as [Hlo Hhi].
  assert (toBucketSets (e :: rest)
          = array_from (js_add kmax 1)
              (fun index =>
                 match map_get (e :: rest) index with
                 | Some bucketCards => set_of bucketCards
                 | None => []
                 end)) as -> by (by destruct e).
  unfold array_from. split.
  - intros Hk. rewrite Hlo by lia.
    destruct (Z.leb_spec (2 ^ 32) (Z.max 0 (kmax + 1))); [lia|].
    rewrite dense_sets_nonempty. fold kmax. f_equal. f_equal.
    unfold seqZ. f_equal. f_equal. lia.
  - intros Hk. specialize (Hhi ltac:(lia)).
    by destruct (Z.leb_spec (2 ^ 32) (to_length (js_add kmax 1))); [|lia].
Qed.

Lemma toBucketSets_returns (M : BucketMap) (T : list JsSet) :
  toBucketSets M = Returns T -> T = dense_sets M.
Proof.
  destruct M as [|e rest]; [by intros [= <-]|].
  destruct (toBucketSets_cases e rest) as [Hlo Hhi].
  destruct (Z_lt_le_dec (math_max e.1 (map_keys rest)) (2 ^ 32 - 1)) as [Hk|Hk].
  - rewrite (Hlo Hk). by intros [= <-].
  - by rewrite (Hhi Hk).
Qed.

(** C5. For a bucket map with non-negative keys, [toBucketSets]
    returns the empty array when the map is empty.  Otherwise, when the
    greatest key is below 2^32 - 1, it returns an array of length (greatest
    key + 1) that holds, at the index of a key, exactly the cards of that
    bucket and at every other index an empty set; when the greatest key is
    2^32 - 1 or more, it throws a [RangeError], the length being no array
    length. *)
Theorem toBucketSets_spec (M : BucketMap) :
  Forall (fun k => 0 <= k) (map_keys M) ->
  (M = [] -> toBucketSets M = Returns [])
  /\ (M <> [] ->
      exists kmax,
        kmax ∈ map_keys M /\ (forall k, k ∈ map_keys M -> k <= kmax)
        /\ (2 ^ 32 - 1 <= kmax -> toBucketSets M = Throws RangeError)
        /\ (kmax < 2 ^ 32 - 1 ->
            exists T,
              toBucketSets M = Returns T
              /\ Z.of_nat (length T) = kmax + 1
              /\ (forall k cards,
                    map_get M k = Some cards ->
                    exists s, T !! Z.to_nat k = Some s
                              /\ forall c, c ∈ s <-> c ∈ cards)
              /\ (forall i : nat,
                    (i < length T)%nat -> Z.of_nat i ∉ map_keys M ->
                    T !! i = Some []))).
Proof.
  intros Hkeys. split; [by intros ->|]. intros Hne.
  destruct (dense_sets_facts M Hkeys) as (_ & Hlen & Hkey & Hgap).
  destruct M as [|e rest]; [done|].
  exists (math_max e.1 (map_keys rest)).
  destruct (math_max_spec (map_keys rest) e.1) as [Hin Hle].
  destruct (toBucketSets_cases e rest) as [Hlo Hhi].
  split; [exact Hin|]. split; [exact Hle|]. split; [exact Hhi|].
  intros Hk. exists (dense_sets (e :: rest)). split; [by apply Hlo|].
  split; [|split; [exact Hkey | exact Hgap]].
  rewrite dense_sets_nonempty, length_fmap, length_seqZ.
  rewrite Forall_forall in Hkeys. apply Hkeys in Hin. lia.
Qed.

Lemma toBucketSets_spec_witness :
  Forall (fun k => 0 <= k) (map_keys [(0, [1%nat]); (3, [2%nat])])
  /\ exists T,
       toBucketSets [(0, [1%nat]); (3, [2%nat])] = Returns T
       /\ Z.of_nat (length T) = 4
       /\ T !! 1%nat = Some [].
Proof.
  assert (Forall (fun k => 0 <= k) (map_keys [(0, [1%nat]); (3, [2%nat])]))
    as Hkeys.
  { apply Forall_forall. intros k Hk. simpl in Hk.
    rewrite !elem_of_cons, elem_of_nil in Hk. lia. }
  split; [exact Hkeys|].
  destruct (proj2 (toBucketSets_spec _ Hkeys) ltac:(discriminate))
    as (kmax & Hin & Hmax & _ & Hret).
  assert (kmax = 3) as ->.
  { pose proof (Hmax 3) as H3. simpl in Hin, H3.
    rewrite !elem_of_cons, elem_of_nil in Hin, H3. lia. }
  destruct (Hret ltac:(lia)) as (T & HT & Hlen & _ & Hgap).
  exists T. split; [exact HT|]. split; [exact Hlen|].
  apply Hgap; [lia|]. simpl. rewrite !elem_of_cons, elem_of_nil. lia.
Defined.

(** With the key 2^32 - 1 no array of length (greatest key + 1) is
    returned: the call throws. *)
Lemma toBucketSets_spec_counterexample :
  Forall (fun k => 0 <= k) (map_keys [(4294967295, [1%nat])])
  /\ toBucketSets [(4294967295, [1%nat])] = Throws RangeError
  /\ ~ exists T, toBucketSets [(4294967295, [1%nat])] = Returns T.
Proof.
  split; [apply Forall_cons; split; [simpl; lia|constructor]|].
  split; [by vm_compute|].
  intros (T & HT). vm_compute in HT. discriminate.
Qed.

Lemma getBucketRange_spec_witness :
  getBucketRange [[1%nat]; []; []] = Some {| minBucket := 0; maxBucket := 0 |}.
Proof.
  apply (proj2 (proj2 (getBucketRange_spec [[1%nat]; []; []])) 0).
  - exists 0%nat, [1%nat]. by repeat split.
  - intros k' (j & b & Hj & Hb & ->).
    destruct j as [|[|[|j]]]; by simplify_eq/=.
Defined.

(** ** computeProgress *)

Lemma map_set_fresh {V} (m : list (Z * V)) (k : Z) (v : V) :
  k ∉ map_keys m -> map_set m k v = m ++ [(k, v)].
Proof.
  unfold map_keys. induction m as [|[k' v'] m IH]; simpl; [done|].
  rewrite not_elem_of_cons. intros [Hne Hm].
  destruct (Z.eqb_spec k' k); [congruence|]. by rewrite IH.
Qed.

Lemma card_count_cons (e : Z * JsSet) (m : BucketMap) :
  card_count (e :: m) = set_size e.2 + card_count m.
Proof. done. Qed.

Lemma weighted_count_cons (e : Z * JsSet) (m : BucketMap) :
  weighted_count (e :: m) = e.1 * set_size e.2 + weighted_count m.
Proof. done. Qed.

Lemma card_count_nonneg (m : BucketMap) : 0 <= card_count m.
Proof.
  induction m as [|e m IH]; [done|].
  rewrite card_count_cons. unfold set_size. lia.
Qed.

(** The counting loop, from any intermediate state. *)
Lemma count_loop (M : BucketMap) :
  forall (perBucket : list (Z * Z)) (total : Z) (sum : spec_float),
    NoDup (map_keys perBucket ++ map_keys M) ->
    foldl count_step (perBucket, total, sum) M
    = (perBucket ++ ((fun e => (e.1, set_size e.2)) <$> M),
       total + card_count M, weighted_sum_from sum M).
Proof.
  induction M as [|[k cards] M IH]; intros perBucket total sum Hnd; simpl.
  - rewrite app_nil_r. unfold card_count. simpl. by rewrite Z.add_0_r.
  - unfold map_keys in *. simpl in Hnd.
    apply NoDup_app in Hnd as (Hp & Hdisj & HM).
    apply NoDup_cons in HM as [HkM HM].
    assert (k ∉ perBucket.*1) as Hk.
    { intros Hin. apply (Hdisj _ Hin). left. }
    rewrite map_set_fresh by done. rewrite IH.
    + rewrite <- app_assoc, card_count_cons. simpl.
      by rewrite !Z.add_assoc.
    + rewrite fmap_app. simpl. rewrite <- app_assoc. simpl.
      apply NoDup_app. split; [done|]. split; [|by apply NoDup_cons].
      intros x Hx. apply Hdisj in Hx as Hx'. exact Hx'.
Qed.

Lemma mastered_loop (M : BucketMap) :
  forall acc : Z,
    foldl (fun sum (e : Z * Z) => if 3 <=? e.1 then sum + e.2 else sum) acc
          ((fun e => (e.1, set_size e.2)) <$> M)
    = acc + mastered_count M.
Proof.
  unfold mastered_count.
  induction M as [|[k cards] M IH]; intros acc; simpl.
  - unfold card_count. simpl. lia.
  - rewrite IH. destruct (3 <=? k); [|done].
    rewrite card_count_cons. simpl. lia.
Qed.

Lemma success_filter (history : list HistoryEntry) :
  Z.of_nat (length (List.filter (fun entry => negb (is_wrong (difficulty entry)))
                                history))
  = success_count history.
Proof.
  induction history as [|entry rest IH]; simpl; [done|].
  destruct (difficulty entry); simpl; lia.
Qed.

Lemma success_count_bounds (history : list HistoryEntry) :
  0 <= success_count history <= Z.of_nat (length history).
Proof.
  induction history as [|entry rest IH]; simpl; [lia|].
  destruct (difficulty entry); lia.
Qed.

Lemma successRate_unfold (M : BucketMap) (history : list HistoryEntry) :
  successRate (computeProgress M history) = success_rate history.
Proof.
  unfold computeProgress. destruct (foldl count_step _ M) as [[? ?] ?].
  cbn [successRate]. rewrite success_filter.
  destruct history as [|entry rest]; [done|].
  unfold success_rate.
  by destruct (Z.ltb_spec 0 (Z.of_nat (length (entry :: rest)))).
Qed.

Lemma computeProgress_unfold (M : BucketMap) (history : list HistoryEntry) :
  NoDup (map_keys M) ->
  computeProgress M history
  = {| totalCards := card_count M;
       cardsPerBucket := (fun e => (e.1, set_size e.2)) <$> M;
       averageBucket :=
         if 0 <? card_count M
         then Binary64.div (weighted_sum M) (Binary64.of_Z (card_count M))
         else Binary64.zero;
       masteredCards := mastered_count M;
       successRate := success_rate history |}.
Proof.
  intros Hnd. rewrite <- (successRate_unfold M history).
  unfold computeProgress.
  rewrite (count_loop M [] 0 Binary64.zero) by done. simpl.
  by rewrite mastered_loop.
Qed.

Lemma weighted_count_nonneg (M : BucketMap) :
  Forall (fun e => 0 <= e.1) M -> 0 <= weighted_count M.
Proof.
  induction M as [|[k cards] M IH]; intros HM; [done|].
  apply Forall_cons in HM as [Hk HM]. rewrite weighted_count_cons.
  simpl in *. specialize (IH HM). unfold set_size. nia.
Qed.

(** With bucket numbers from 0 on and sums below 2^53, the sum that the
    loop accumulates in binary64 is the sum of the integers. *)
Lemma weighted_sum_exact (M : BucketMap) :
  forall acc : Z,
    0 <= acc ->
    Forall (fun e => 0 <= e.1 < 2 ^ 53) M ->
    card_count M < 2 ^ 53 ->
    acc + weighted_count M < 2 ^ 53 ->
    weighted_sum_from (Binary64.of_Z acc) M
    = Binary64.of_Z (acc + weighted_count M).
Proof.
  induction M as [|[k cards] M IH]; intros acc Hacc HM Hc Hw.
  - unfold weighted_count. simpl. by rewrite Z.add_0_r.
  - apply Forall_cons in HM as [Hk HM]. simpl in Hk.
    rewrite card_count_cons in Hc. rewrite weighted_count_cons in Hw.
    simpl in Hc, Hw.
    pose proof (card_count_nonneg M) as HcM.
    assert (0 <= weighted_count M) as HwM.
    { apply weighted_count_nonneg. eapply Forall_impl; [exact HM|].
      intros e He. simpl in He. lia. }
    assert (0 <= set_size cards) as Hs by (unfold set_size; lia).
    assert (0 <= k * set_size cards) as Hp by nia.
    cbn [weighted_sum_from foldl fst snd].
    rewrite mul_exact by lia. rewrite add_exact by lia.
    change (foldl ?f ?a M) with (weighted_sum_from a M).
    rewrite IH by (done || lia).
    rewrite weighted_count_cons. simpl. f_equal. lia.
Qed.

Lemma success_rate_cases (history : list HistoryEntry) :
  history <> [] ->
  Z.of_nat (length history) < 2 ^ 32 ->
  let s := success_count history in
  let n := Z.of_nat (length history) in
  (s = 0 /\ success_rate history = Binary64.zero)
  \/ (s = n /\ success_rate history = Binary64.of_Z 100)
  \/ (0 < s < n
      /\ exists M E,
          success_rate history = S754_finite false M E
          /\ Binary64.leb (S754_finite false M E)
               (S754_finite false 7036874416128000 (-46)) = true).
Proof.
  intros Hne Hlen s n.
  assert (success_rate history
          = Binary64.mul (Binary64.div (Binary64.of_Z s) (Binary64.of_Z n))
                         (Binary64.of_Z 100)) as ->.
  { by destruct history. }
  assert (0 < n) as Hn.
  { subst n. destruct history; [done|]. simpl length. lia. }
  pose proof (success_count_bounds history) as Hs. fold s n in Hs, Hlen.
  destruct (decide (s = 0)) as [Hs0|Hs0].
  { left. split; [done|]. rewrite Hs0. apply rate_none. lia. }
  destruct (decide (s = n)) as [Hsn|Hsn].
  { right. left. split; [done|]. rewrite Hsn. apply rate_all. lia. }
  right. right. split; [lia|]. apply rate_part; lia.
Qed.

(** C8. [computeProgress] returns the sum of the bucket sizes as
    [totalCards] and the number of cards in buckets 3 and above as
    [masteredCards].  [averageBucket] is 0 without cards, and otherwise the
    binary64 quotient by [totalCards] of the sum of bucket number times
    count, itself accumulated in binary64; the accumulated sum is the sum
    of the integers when the bucket numbers are not negative and the sums
    are below 2^53.  [successRate] is 0 for an empty history, and otherwise
    the binary64 quotient of the number of entries that are not [Wrong] by
    the number of entries, multiplied in binary64 by 100: a number between
    0 and 100 that need not be the percentage.  With one card in bucket 0,
    one in bucket 1, and a history of one [Hard] and one [Easy] entry the
    result is 2, 1/2, 0 and 100. *)
Theorem computeProgress_spec :
  (forall (M : BucketMap) (history : list HistoryEntry),
      NoDup (map_keys M) ->
      let p := computeProgress M history in
      totalCards p = card_count M
      /\ (card_count M = 0 -> averageBucket p = Binary64.zero)
      /\ (card_count M <> 0 ->
          averageBucket p
          = Binary64.div (weighted_sum M) (Binary64.of_Z (card_count M)))
      /\ (Forall (fun e => 0 <= e.1 < 2 ^ 53) M ->
          card_count M < 2 ^ 53 -> weighted_count M < 2 ^ 53 ->
          weighted_sum M = Binary64.of_Z (weighted_count M))
      /\ masteredCards p = mastered_count M
      /\ (history = [] -> successRate p = Binary64.zero)
      /\ (history <> [] ->
          successRate p
          = Binary64.mul
              (Binary64.div (Binary64.of_Z (success_count history))
                            (Binary64.of_Z (Z.of_nat (length history))))
              (Binary64.of_Z 100))
      /\ (history <> [] -> Z.of_nat (length history) < 2 ^ 32 ->
          Binary64.leb Binary64.zero (successRate p) = true
          /\ Binary64.leb (successRate p) (Binary64.of_Z 100) = true))
  /\ (let p := computeProgress
                 [(0, [1%nat]); (1, [2%nat])]
                 [ {| card := 1%nat; timestamp := 1; difficulty := Hard |};
                   {| card := 2%nat; timestamp := 2; difficulty := Easy |} ] in
      totalCards p = 2
      /\ Binary64.value (averageBucket p) = Some (1 # 2)
      /\ masteredCards p = 0
      /\ successRate p = Binary64.of_Z 100).
Proof.
  split; [|by vm_compute].
  intros M history Hnd p. subst p. rewrite computeProgress_unfold by done.
  cbn [totalCards averageBucket masteredCards successRate].
  pose proof (card_count_nonneg M) as Hc.
  split; [done|]. split; [|split; [|split; [|split; [done|split; [|split]]]]].
  - intros ->. done.
  - intros Hne. by destruct (Z.ltb_spec 0 (card_count M)); [|lia].
  - intros HM Hcard Hw.
    apply (weighted_sum_exact M 0); [lia|done|done|lia].
  - intros ->. done.
  - intros Hne. by destruct history.
  - intros Hne Hlen.
    destruct (success_rate_cases history Hne Hlen)
      as [[_ ->]|[[_ ->]|(_ & m & e & -> & Hle)]].
    + by vm_compute.
    + by vm_compute.
    + split; [done|]. rewrite of_Z_100.
      apply leb_pos in Hle. apply leb_pos. lia.
Qed.

Lemma computeProgress_spec_witness :
  NoDup (map_keys [(0, [1%nat]); (3, [2%nat; 3%nat])])
  /\ totalCards (computeProgress [(0, [1%nat]); (3, [2%nat; 3%nat])] []) = 3
  /\ masteredCards (computeProgress [(0, [1%nat]); (3, [2%nat; 3%nat])] []) = 2
  /\ averageBucket (computeProgress [(0, [1%nat]); (3, [2%nat; 3%nat])] [])
     = Binary64.of_Z 2
  /\ successRate (computeProgress [(0, [1%nat]); (3, [2%nat; 3%nat])] [])
     = Binary64.zero.
Proof.
  assert (NoDup (map_keys [(0, [1%nat]); (3, [2%nat; 3%nat])])) as Hnd.
  { apply (bool_decide_unpack _). by vm_compute. }
  destruct (proj1 computeProgress_spec _ [] Hnd)
    as (Ht & _ & Ha & _ & Hm & Hs & _).
  split; [done|]. split; [exact Ht|]. split; [exact Hm|].
  split; [|by apply Hs]. rewrite Ha by done. by vm_compute.
Defined.

(** With 11 entries that are not [Wrong] among 20, the percentage is 55,
    which is a number, and [successRate] is the next number above it,
    55.00000000000001: the quotient 11/20 is rounded before it is
    multiplied. *)
Lemma computeProgress_spec_counterexample :
  let history :=
    replicate 11 {| card := 1%nat; timestamp := 0; difficulty := Easy |}
    ++ replicate 9 {| card := 1%nat; timestamp := 0; difficulty := Wrong |} in
  (percentage history == 55)%Q
  /\ successRate (computeProgress [] history)
     = S754_finite false 7740561859543041 (-47)
  /\ Binary64.of_Z 55 = S754_finite false 7740561859543040 (-47)
  /\ exists q, Binary64.value (successRate (computeProgress [] history))
               = Some q
               /\ ~ (q == percentage history)%Q.
Proof.
  split; [by vm_compute|]. split; [by vm_compute|]. split; [by vm_compute|].
  eexists. split; [by vm_compute|]. by vm_compute.
Qed.

(** ** update: the run on the store *)

Section StoreRun.
Implicit Types (st old : Store) (B M : BucketMap) (c : CardRef) (k : Z).

Lemma map_of_NoDup {V} (l : list (Z * V)) : NoDup (map_keys l) -> map_of l = l.
Proof.
  unfold map_of.
  assert (forall acc : list (Z * V),
             NoDup (map_keys acc ++ map_keys l) ->
             foldl (fun m e => map_set m e.1 e.2) acc l = acc ++ l) as H.
  { induction l as [|[k v] l IH]; intros acc Hnd; simpl.
    - by rewrite app_nil_r.
    - unfold map_keys in *. simpl in Hnd.
      rewrite map_set_fresh.
      + rewrite IH; [by rewrite <- app_assoc|].
        rewrite fmap_app, <- app_assoc. done.
      + apply NoDup_app in Hnd as (_ & Hdisj & _).
        intros Hin. apply (Hdisj _ Hin). left. }
  intros Hnd. by apply (H []).
Qed.

(** Copying the entries allocates one set per entry, in order. *)
Lemma copy_entries_run (es : list (Z * nat)) :
  forall st,
    Forall (fun e => (e.2 < length (sets st))%nat) es ->
    copy_entries es st
    = (zip es.*1 (seq (length (sets st)) (length es)),
       {| sets := sets st
                  ++ ((fun e => set_of (default [] (sets st !! e.2))) <$> es);
          maps := maps st |}).
Proof.
  induction es as [|[k a] es IH]; intros st Hes; simpl.
  - unfold ret. rewrite app_nil_r. by destruct st.
  - apply Forall_cons in Hes as [Ha Hes]. simpl in Ha.
    unfold bind, set_elems, new_Set, ret. simpl.
    rewrite IH; simpl.
    + rewrite length_app, Nat.add_1_r, <- app_assoc. simpl.
      do 4 f_equal. apply Forall_fmap_ext_1.
      eapply Forall_impl; [exact Hes|]. intros e He. simpl in *.
      by rewrite lookup_app_l.
    + eapply Forall_impl; [exact Hes|]. intros e He. simpl in *.
      rewrite length_app. lia.
Qed.

Lemma view_entries st m (es : list (Z * nat)) :
  maps st !! m = Some es ->
  view st m = (fun e => (e.1, default [] (sets st !! e.2))) <$> es.
Proof. unfold view. by intros ->. Qed.

(** The first three steps of [update] build a copy of the value of the
    map, in new objects. *)
Lemma deep_copy_run st m :
  bucket_map_at st m ->
  deep_copy m st
  = (length (maps st), extend_store st (copy_value (view st m))).
Proof.
  intros (es & Hm & Hnd & Hes).
  unfold deep_copy, bind, map_entries. rewrite Hm. simpl.
  rewrite copy_entries_run by done.
  unfold new_Map, extend_store. simpl.
  rewrite (view_entries _ _ _ Hm). unfold copy_value.
  rewrite !length_fmap, <- !list_fmap_compose.
  rewrite map_of_NoDup.
  - do 3 f_equal.
  - unfold map_keys. rewrite fst_zip; [done|].
    rewrite length_fmap, length_seq. done.
Qed.

Lemma extend_store_entries old B :
  map_entries (length (maps old)) (extend_store old B)
  = (zip B.*1 (seq (length (sets old)) (length B)), extend_store old B).
Proof.
  unfold map_entries, extend_store. simpl.
  by rewrite list_lookup_middle.
Qed.

Lemma remove_first_value_keys B c :
  (remove_first_value B c).*1 = B.*1.
Proof.
  induction B as [|[k cards] B IH]; simpl; [done|].
  destruct (set_has cards c); simpl; [done|]. f_equal. exact IH.
Qed.

Lemma remove_first_value_length B c :
  length (remove_first_value B c) = length B.
Proof.
  induction B as [|[k cards] B IH]; simpl; [done|].
  destruct (set_has cards c); simpl; [done|]. by rewrite IH.
Qed.

(** The loop acts on the new sets as [remove_first_value] on their value. *)
Lemma remove_first_loop B c :
  forall (pre : list JsSet) (mp : list (list (Z * nat))),
    remove_first (zip B.*1 (seq (length pre) (length B))) c
                 {| sets := pre ++ B.*2; maps := mp |}
    = (found_bucket B c,
       {| sets := pre ++ (remove_first_value B c).*2; maps := mp |}).
Proof.
  induction B as [|[k cards] B IH]; intros pre mp; simpl; [done|].
  unfold bind, set_elems. simpl.
  rewrite list_lookup_middle by done. simpl.
  unfold set_has. destruct (bool_decide (c ∈ cards)) eqn:E.
  - unfold modify_set, ret. simpl.
    replace (length pre) with (length pre + 0)%nat at 1 by lia.
    by rewrite alter_app_r.
  - specialize (IH (pre ++ [cards]) mp).
    rewrite length_app, Nat.add_1_r, <- !app_assoc in IH. simpl in IH.
    exact IH.
Qed.

Lemma find_and_remove_run old B c :
  find_and_remove (length (maps old)) c (extend_store old B)
  = (found_bucket B c, extend_store old (remove_first_value B c)).
Proof.
  unfold find_and_remove, bind. rewrite extend_store_entries.
  unfold extend_store. rewrite remove_first_loop.
  by rewrite remove_first_value_keys, remove_first_value_length.
Qed.
Lemma map_has_same_keys {V W} (m : list (Z * V)) (m' : list (Z * W)) k :
  map_keys m = map_keys m' -> map_has m k = map_has m' k.
Proof.
  intros Hk. destruct (map_has m' k) eqn:E.
  - apply map_has_true. rewrite Hk. by apply map_has_true.
  - destruct (map_has m k) eqn:E'; [|done].
    apply map_has_true in E'. rewrite Hk in E'. apply map_has_true in E'.
    congruence.
Qed.

Lemma entries_keys old B :
  map_keys (zip B.*1 (seq (length (sets old)) (length B))) = map_keys B.
Proof.
  unfold map_keys. apply fst_zip. by rewrite length_fmap, length_seq.
Qed.

Lemma extend_store_snoc old B k :
  extend_store old (B ++ [(k, [])])
  = {| sets := (sets old ++ B.*2) ++ [[]];
       maps := maps old
               ++ [zip B.*1 (seq (length (sets old)) (length B))
                   ++ [(k, length (sets old ++ B.*2))]] |}.
Proof.
  unfold extend_store. rewrite !fmap_app, !length_app, length_fmap. simpl.
  rewrite seq_app, app_assoc. simpl. f_equal. f_equal.
  rewrite (zip_with_app pair); [done|].
  by rewrite length_fmap, length_seq.
Qed.

Lemma ensure_exists_run old B k :
  ensure_exists (length (maps old)) k (extend_store old B)
  = (tt, extend_store old (ensure_bucket B k)).
Proof.
  unfold ensure_exists, ensure_bucket, bind. rewrite extend_store_entries.
  rewrite (map_has_same_keys _ B) by apply entries_keys.
  destruct (map_has B k) eqn:E; [done|].
  assert (k ∉ map_keys B) as Hk.
  { intros Hin. apply map_has_true in Hin. congruence. }
  rewrite (map_set_fresh B) by done. rewrite extend_store_snoc.
  unfold new_Set, modify_map, extend_store. simpl.
  replace (length (maps old)) with (length (maps old) + 0)%nat at 1 by lia.
  rewrite alter_app_r. simpl.
  rewrite map_set_fresh; [done|]. by rewrite entries_keys.
Qed.

Lemma add_to_bucket_keys B k c : (add_to_bucket B k c).*1 = B.*1.
Proof.
  induction B as [|[k' cards] B IH]; simpl; [done|].
  destruct (k' =? k); simpl; [done|]. f_equal. exact IH.
Qed.

Lemma add_to_bucket_length B k c : length (add_to_bucket B k c) = length B.
Proof.
  induction B as [|[k' cards] B IH]; simpl; [done|].
  destruct (k' =? k); simpl; [done|]. by rewrite IH.
Qed.

(** Adding the card through the address found under the key changes the
    value of the key. *)
Lemma add_card_loop B k c :
  forall (pre : list JsSet) (mp : list (list (Z * nat))),
    match map_get (zip B.*1 (seq (length pre) (length B))) k with
    | Some cards => modify_set cards (fun s => set_add s c)
    | None => ret tt
    end {| sets := pre ++ B.*2; maps := mp |}
    = (tt, {| sets := pre ++ (add_to_bucket B k c).*2; maps := mp |}).
Proof.
  induction B as [|[k' cards] B IH]; intros pre mp; simpl; [done|].
  destruct (k' =? k) eqn:E.
  - unfold modify_set. simpl.
    replace (length pre) with (length pre + 0)%nat at 1 by lia.
    by rewrite alter_app_r.
  - specialize (IH (pre ++ [cards]) mp).
    rewrite length_app, Nat.add_1_r, <- !app_assoc in IH. exact IH.
Qed.

Lemma add_card_run old B k c :
  add_card (length (maps old)) k c (extend_store old B)
  = (tt, extend_store old (add_to_bucket B k c)).
Proof.
  unfold add_card, bind. rewrite extend_store_entries.
  unfold extend_store. rewrite add_card_loop.
  by rewrite add_to_bucket_keys, add_to_bucket_length.
Qed.

Lemma found_bucket_copy M c :
  found_bucket (copy_value M) c = found_bucket M c.
Proof.
  induction M as [|[k cards] M IH]; simpl; [done|].
  by rewrite IH, (bool_decide_ext _ _ (elem_of_set_of cards c)).
Qed.

(** [update] allocates a new map and new sets next to the objects of the
    store, and the value of the new map is [update_value]. *)
Lemma update_run st m c d :
  bucket_map_at st m ->
  update m c d st
  = (length (maps st), extend_store st (update_value (view st m) c d)).
Proof.
  intros Hm. unfold update, bind.
  rewrite deep_copy_run by done.
  rewrite find_and_remove_run, ensure_exists_run, add_card_run.
  done.
Qed.

Lemma view_block B :
  forall pre : list JsSet,
    (fun e : Z * nat => (e.1, default [] ((pre ++ B.*2) !! e.2)))
      <$> zip B.*1 (seq (length pre) (length B))
    = B.
Proof.
  induction B as [|[k v] B IH]; intros pre; simpl; [done|].
  rewrite list_lookup_middle by done. simpl. f_equal.
  specialize (IH (pre ++ [v])).
  rewrite length_app, Nat.add_1_r, <- !app_assoc in IH. exact IH.
Qed.

Lemma view_extend_store old B :
  view (extend_store old B) (length (maps old)) = B.
Proof.
  unfold view, extend_store. simpl. rewrite list_lookup_middle by done.
  apply view_block.
Qed.

(** The objects of the old store keep their address and their value. *)
Lemma view_extend_store_old old B m :
  bucket_map_at old m -> view (extend_store old B) m = view old m.
Proof.
  intros (es & Hm & _ & Hes). unfold view, extend_store. simpl.
  rewrite lookup_app_l by (by eapply lookup_lt_Some).
  rewrite Hm. simpl. apply Forall_fmap_ext_1.
  eapply Forall_impl; [exact Hes|]. intros e He. simpl in *.
  by rewrite lookup_app_l.
Qed.
End StoreRun.

(** ** update: the value of the new map *)

Section UpdateValue.
Implicit Types (B M : BucketMap) (c x : CardRef) (k : Z).

Lemma map_get_copy M k : map_get (copy_value M) k = set_of <$> map_get M k.
Proof.
  induction M as [|[k' cards] M IH]; simpl; [done|].
  by destruct (k' =? k).
Qed.

Lemma copy_value_keys M : map_keys (copy_value M) = map_keys M.
Proof.
  unfold map_keys, copy_value. rewrite <- list_fmap_compose.
  by apply list_fmap_ext.
Qed.

Lemma found_bucket_key B c k : found_bucket B c = Some k -> k ∈ map_keys B.
Proof.
  unfold map_keys. induction B as [|[k' cards] B IH]; simpl; [done|].
  case_bool_decide.
  - intros [= ->]. left.
  - intros H'. right. auto.
Qed.

Lemma found_bucket_in B c k :
  NoDup (map_keys B) -> found_bucket B c = Some k -> in_bucket B k c.
Proof.
  unfold in_bucket, map_keys.
  induction B as [|[k' cards] B IH]; simpl; [done|].
  intros Hnd. apply NoDup_cons in Hnd as [Hk' HB]. case_bool_decide as Hc.
  - intros [= ->]. exists cards. by rewrite Z.eqb_refl.
  - intros Hf. destruct (Z.eqb_spec k' k) as [->|Hne]; [|auto].
    by apply found_bucket_key in Hf.
Qed.

Lemma found_bucket_None B c k : found_bucket B c = None -> ~ in_bucket B k c.
Proof.
  unfold in_bucket. induction B as [|[k' cards] B IH]; simpl.
  - by intros _ (? & ? & _).
  - case_bool_decide as Hc; [done|]. intros Hf (s & Hs & Hin).
    destruct (k' =? k); [by simplify_eq|]. apply IH; eauto.
Qed.

Lemma map_get_remove_first B c k :
  NoDup (map_keys B) ->
  map_get (remove_first_value B c) k
  = if decide (found_bucket B c = Some k)
    then (fun s => set_delete s c) <$> map_get B k
    else map_get B k.
Proof.
  unfold map_keys. induction B as [|[k' cards] B IH]; simpl.
  - done.
  - intros Hnd. apply NoDup_cons in Hnd as [Hk' HB]. unfold set_has.
    case_bool_decide as Hc; simpl.
    + destruct (Z.eqb_spec k' k) as [->|Hne].
      * by rewrite decide_True.
      * rewrite decide_False; [done|congruence].
    + destruct (Z.eqb_spec k' k) as [->|Hne]; [|auto].
      rewrite decide_False; [done|].
      intros Hf. by apply found_bucket_key in Hf.
Qed.

Lemma map_get_set_eq {V} (m : list (Z * V)) k (v : V) :
  k ∉ map_keys m -> map_get (map_set m k v) k = Some v.
Proof.
  unfold map_keys. induction m as [|[k' v'] m IH]; simpl.
  - by rewrite Z.eqb_refl.
  - rewrite not_elem_of_cons. intros [Hne Hm].
    destruct (Z.eqb_spec k' k) as [->|_]; [done|]. simpl.
    destruct (Z.eqb_spec k' k) as [->|_]; [done|]. auto.
Qed.

Lemma map_get_set_ne {V} (m : list (Z * V)) k k' (v : V) :
  k <> k' -> map_get (map_set m k v) k' = map_get m k'.
Proof.
  intros Hne. induction m as [|[k0 v0] m IH]; simpl.
  - destruct (Z.eqb_spec k k'); [done|done].
  - destruct (Z.eqb_spec k0 k) as [->|_]; simpl.
    + by destruct (Z.eqb_spec k k').
    + by rewrite IH.
Qed.

Lemma map_get_ensure B k k' :
  map_get (ensure_bucket B k) k'
  = if decide (k' = k) then Some (default [] (map_get B k)) else map_get B k'.
Proof.
  unfold ensure_bucket, map_has. destruct (map_get B k) as [s|] eqn:E.
  - case_decide as Hk; [by subst|done].
  - case_decide as Hk.
    + subst. apply map_get_set_eq. by apply map_get_None.
    + by apply map_get_set_ne.
Qed.

Lemma map_get_add B k c k' :
  map_get (add_to_bucket B k c) k'
  = if decide (k' = k) then (fun s => set_add s c) <$> map_get B k
    else map_get B k'.
Proof.
  induction B as [|[k0 cards] B IH]; simpl.
  - by case_decide.
  - destruct (Z.eqb_spec k0 k) as [->|Hne]; simpl.
    + destruct (Z.eqb_spec k k') as [->|Hne'].
      * by rewrite decide_True.
      * by rewrite decide_False.
    + rewrite IH. destruct (Z.eqb_spec k0 k') as [->|Hne']; [|done].
      by rewrite decide_False.
Qed.

Lemma ensure_bucket_keys B k :
  NoDup (map_keys B) ->
  NoDup (map_keys (ensure_bucket B k)) /\ k ∈ map_keys (ensure_bucket B k).
Proof.
  intros HB. unfold ensure_bucket. destruct (map_has B k) eqn:E.
  - split; [done|]. by apply map_has_true.
  - assert (k ∉ map_keys B) as Hk.
    { intros Hin. apply map_has_true in Hin. congruence. }
    rewrite map_set_fresh by done. unfold map_keys in *.
    rewrite fmap_app. simpl. split.
    + apply NoDup_app. split; [done|]. split; [|apply NoDup_singleton].
      intros y Hy ->%list_elem_of_singleton. done.
    + apply elem_of_app. right. left.
Qed.

Lemma update_value_keys M c d :
  NoDup (map_keys M) -> NoDup (map_keys (update_value M c d)).
Proof.
  intros HM. unfold update_value, map_keys.
  rewrite add_to_bucket_keys. apply ensure_bucket_keys.
  unfold map_keys. rewrite remove_first_value_keys.
  fold (map_keys (copy_value M)). by rewrite copy_value_keys.
Qed.

(** Where the cards are after [update]. *)
Lemma in_bucket_update_value M c d k x :
  NoDup (map_keys M) ->
  in_bucket (update_value M c d) k x <->
  (k = new_bucket d (current_bucket M c) /\ x = c)
  \/ (in_bucket M k x /\ ~ (x = c /\ found_bucket M c = Some k)).
Proof.
  intros HM. unfold in_bucket, update_value, current_bucket.
  rewrite found_bucket_copy.
  set (nb := new_bucket d (default 0 (found_bucket M c))).
  assert (NoDup (map_keys (copy_value M))) as HB by (by rewrite copy_value_keys).
  assert (forall k', map_get (remove_first_value (copy_value M) c) k'
                     = (fun s => if decide (found_bucket M c = Some k')
                                 then set_delete (set_of s) c else set_of s)
                         <$> map_get M k') as Hrem.
  { intros k'. rewrite map_get_remove_first, found_bucket_copy, map_get_copy by done.
    case_decide; by destruct (map_get M k'). }
  rewrite map_get_add, map_get_ensure.
  rewrite (decide_True (P := nb = nb)) by done.
  case_decide as Hk.
  - subst k. simpl. rewrite Hrem. split.
    + intros (s & [= <-] & Hx). rewrite elem_of_set_add in Hx.
      destruct Hx as [Hx| ->]; [|auto].
      destruct (decide (x = c)) as [->|Hne]; [auto|]. right.
      destruct (map_get M nb) as [s|]; simpl in Hx; [|by apply elem_of_nil in Hx].
      split; [|by intros [? _]]. exists s. split; [done|].
      case_decide; rewrite ?elem_of_set_delete, elem_of_set_of in Hx; tauto.
    + intros [[_ ->]|[(s & Hs & Hx) Hnot]].
      * eexists. split; [done|]. rewrite elem_of_set_add. auto.
      * eexists. split; [done|]. rewrite elem_of_set_add. left.
        rewrite Hs. simpl.
        case_decide as Hf; rewrite ?elem_of_set_delete, elem_of_set_of;
          [split; [done|]; intros ->; auto | done].
  - rewrite map_get_ensure, decide_False by done. rewrite Hrem. split.
    + intros (s' & Hs' & Hx). right.
      destruct (map_get M k) as [s|]; simpl in Hs'; [|done].
      injection Hs' as <-.
      case_decide as Hf; rewrite ?elem_of_set_delete, elem_of_set_of in Hx.
      * split; [exists s; tauto|]. intros [? _]. tauto.
      * split; [eauto|]. by intros [_ ?].
    + intros [[? _]|[(s & Hs & Hx) Hnot]]; [done|].
      rewrite Hs. simpl. eexists. split; [done|].
      case_decide as Hf; rewrite ?elem_of_set_delete, elem_of_set_of;
        [split; [done|]; intros ->; auto | done].
Qed.

Lemma current_bucket_absent M c :
  (forall k, ~ in_bucket M k c) -> NoDup (map_keys M) -> current_bucket M c = 0.
Proof.
  intros Habs HM. unfold current_bucket.
  destruct (found_bucket M c) as [k|] eqn:E; [|done].
  destruct (Habs k). by apply found_bucket_in.
Qed.

Lemma current_bucket_present M c k :
  NoDup (map_keys M) -> in_bucket M k c ->
  exists k', found_bucket M c = Some k' /\ in_bucket M k' c.
Proof.
  intros HM Hin. destruct (found_bucket M c) as [k'|] eqn:E.
  - exists k'. split; [done|]. by apply found_bucket_in.
  - by apply found_bucket_None with (k := k) in E.
Qed.
End UpdateValue.

(** ** update *)

Lemma view_keys_NoDup (st : Store) (m : nat) :
  bucket_map_at st m -> NoDup (map_keys (view st m)).
Proof.
  intros (es & Hm & Hnd & _). rewrite (view_entries _ _ _ Hm).
  unfold map_keys in *. rewrite <- list_fmap_compose.
  match goal with
  | |- NoDup ?l => assert (l = es.*1) as -> by (by apply list_fmap_ext)
  end.
  done.
Qed.

Example test_store_at : bucket_map_at test_store 0.
Proof.
  eexists. split; [reflexivity|]. split.
  - apply (bool_decide_unpack _). by vm_compute.
  - repeat constructor; simpl; lia.
Qed.

Example test_store_one_bucket : one_bucket_per_card (view test_store 0).
Proof.
  intros x k1 k2 (s1 & H1 & Hx1) (s2 & H2 & Hx2).
  change (view _ 0) with [(0, @nil CardRef); (2, [7%nat])] in H1, H2.
  cbn [map_get] in H1, H2.
  destruct (Z.eqb_spec 0 k1); [simplify_eq; by apply elem_of_nil in Hx1|].
  destruct (Z.eqb_spec 0 k2); [simplify_eq; by apply elem_of_nil in Hx2|].
  destruct (Z.eqb_spec 2 k1); [|done].
  destruct (Z.eqb_spec 2 k2); [|done]. congruence.
Qed.

Example update_wrong_test :
  view (update 0 7%nat Wrong test_store).2 (update 0 7%nat Wrong test_store).1
  = [(0, [7%nat]); (2, [])].
Proof. reflexivity. Qed.

Example update_hard_test :
  view (update 0 7%nat Hard test_store).2 (update 0 7%nat Hard test_store).1
  = [(0, []); (2, [7%nat])].
Proof. reflexivity. Qed.

Example update_easy_absent_test :
  view (update 0 9%nat Easy test_store).2 (update 0 9%nat Easy test_store).1
  = [(0, []); (2, [7%nat]); (1, [9%nat])].
Proof. reflexivity. Qed.

(** C1. [update] moves the card: to bucket 0 for [Wrong], to its
    current bucket for [Hard], and for [Easy] to the bucket whose number is
    the binary64 sum of the current bucket and 1, which is (current bucket
    + 1) as long as that is at most 2^53 in magnitude.  The current bucket is
    a bucket of the input that holds the card, the first in the order of the
    entries, and 0 when no bucket holds it, so that an absent card answered
    [Easy] ends in bucket 1.  Unless it is the new bucket, the current bucket
    does not hold the card any more. *)
Theorem update_places_card
    (st : Store) (m : nat) (c : CardRef) (d : AnswerDifficulty) :
  bucket_map_at st m ->
  let M := view st m in
  let M' := view (update m c d st).2 (update m c d st).1 in
  let cur := current_bucket M c in
  let newBucket :=
    match d with
    | Wrong => 0
    | Hard => cur
    | Easy => js_add cur 1
    end in
  ((forall k, ~ in_bucket M k c) -> cur = 0)
  /\ (forall k, in_bucket M k c -> in_bucket M cur c)
  /\ (forall k, in_bucket M k c -> (forall k', in_bucket M k' c -> k' = k) ->
      cur = k)
  /\ in_bucket M' newBucket c
  /\ (cur <> newBucket -> ~ in_bucket M' cur c)
  /\ (d = Easy -> Z.abs (cur + 1) <= 2 ^ 53 -> in_bucket M' (cur + 1) c)
  /\ ((forall k, ~ in_bucket M k c) -> d = Easy -> in_bucket M' 1 c).
Proof.
  intros Hm M M' cur newBucket.
  pose proof (view_keys_NoDup _ _ Hm) as HM. fold M in HM.
  assert (newBucket = new_bucket d cur) as Hnb by (by destruct d).
  assert (forall k, in_bucket M k c -> in_bucket M cur c) as Hcur.
  { intros k Hk. destruct (current_bucket_present _ _ _ HM Hk) as (k' & Hf & Hin).
    subst cur. unfold current_bucket. by rewrite Hf. }
  assert (forall k x,
      in_bucket M' k x <->
      (k = newBucket /\ x = c)
      \/ (in_bucket M k x /\ ~ (x = c /\ found_bucket M c = Some k))) as Hall.
  { intros k x. subst M'. rewrite update_run by done. simpl.
    rewrite view_extend_store, Hnb. by apply in_bucket_update_value. }
  assert (in_bucket M' newBucket c) as Hnew by (apply Hall; by left).
  assert ((forall k, ~ in_bucket M k c) -> cur = 0) as Habs.
  { intros Habs. by apply current_bucket_absent. }
  split; [done|]. split; [done|]. split; [|split; [done|split; [|split]]].
  - intros k Hk Honly. apply Honly. by apply (Hcur k).
  - intros Hne Hin. apply Hall in Hin as [[? _]|[Hin Hnot]]; [done|].
    destruct (current_bucket_present _ _ _ HM Hin) as (k' & Hf & _).
    apply Hnot. split; [done|]. rewrite Hf. f_equal.
    subst cur. unfold current_bucket. by rewrite Hf.
  - intros -> Hsafe. subst newBucket. simpl in Hnew.
    by rewrite js_add_exact in Hnew.
  - intros Hno ->. subst newBucket. simpl in Hnew.
    by rewrite (Habs Hno) in Hnew.
Qed.

Lemma update_places_card_witness :
  bucket_map_at test_store 0
  /\ in_bucket (view (update 0 7%nat Easy test_store).2
                     (update 0 7%nat Easy test_store).1) 3 7%nat
  /\ ~ in_bucket (view (update 0 7%nat Easy test_store).2
                       (update 0 7%nat Easy test_store).1) 2 7%nat.
Proof.
  split; [exact test_store_at|].
  destruct (update_places_card test_store 0 7%nat Easy test_store_at)
    as (_ & _ & _ & Hnew & Hleft & _).
  split; [exact Hnew|]. apply Hleft. by vm_compute.
Defined.

Example big_store_at : bucket_map_at big_store 0.
Proof.
  eexists. split; [reflexivity|]. split.
  - apply (bool_decide_unpack _). by vm_compute.
  - repeat constructor; simpl; lia.
Qed.

(** At bucket 2^53 the sum rounds: answered [Easy], the card is put back
    in bucket 2^53, and no bucket 2^53 + 1 holds it. *)
Lemma update_places_card_counterexample :
  bucket_map_at big_store 0
  /\ (forall k, in_bucket (view big_store 0) k 7%nat <-> k = 2 ^ 53)
  /\ in_bucket (view (update 0 7%nat Easy big_store).2
                     (update 0 7%nat Easy big_store).1) (2 ^ 53) 7%nat
  /\ ~ in_bucket (view (update 0 7%nat Easy big_store).2
                       (update 0 7%nat Easy big_store).1) (2 ^ 53 + 1) 7%nat.
Proof.
  split; [exact big_store_at|]. split; [|split].
  - intros k. change (view big_store 0) with [(2 ^ 53, [7%nat])].
    unfold in_bucket. cbn [map_get]. split.
    + intros (s & Hs & _). destruct (Z.eqb_spec (2 ^ 53) k); [done|done].
    + intros ->. exists [7%nat]. rewrite Z.eqb_refl. split; [done|left].
  - exists [7%nat]. split; [by vm_compute | left].
  - intros (s & Hs & _). vm_compute in Hs. discriminate.
Qed.

(** C2. When every card of the input is in at most one bucket, the map
    returned by [update] holds the card in exactly one bucket and every
    other card in the buckets it was in; the call changes no object of the
    store it starts from, so the input map and its sets keep their value. *)
Theorem update_moves_only_card
    (st : Store) (m : nat) (c : CardRef) (d : AnswerDifficulty) :
  bucket_map_at st m ->
  one_bucket_per_card (view st m) ->
  let st' := (update m c d st).2 in
  let M := view st m in
  let M' := view st' (update m c d st).1 in
  NoDup (map_keys M')
  /\ (exists k, in_bucket M' k c /\ forall k', in_bucket M' k' c -> k' = k)
  /\ (forall x k, x <> c -> in_bucket M' k x <-> in_bucket M k x)
  /\ (forall a s, sets st !! a = Some s -> sets st' !! a = Some s)
  /\ (forall a es, maps st !! a = Some es -> maps st' !! a = Some es)
  /\ view st' m = M.
Proof.
  intros Hm Hone st' M M'.
  pose proof (view_keys_NoDup _ _ Hm) as HM. fold M in HM.
  assert (st' = extend_store st (update_value M c d)) as Hst'.
  { subst st'. by rewrite update_run. }
  assert (M' = update_value M c d) as HM'.
  { subst M'. rewrite Hst'. rewrite update_run by done. simpl.
    apply view_extend_store. }
  rewrite HM', Hst'. split; [by apply update_value_keys|].
  split; [|split; [|split; [|split]]].
  - exists (new_bucket d (current_bucket M c)). split.
    + apply in_bucket_update_value; [done|]. by left.
    + intros k' Hk'. apply in_bucket_update_value in Hk'; [|done].
      destruct Hk' as [[-> _]|[Hin Hnot]]; [done|].
      destruct (current_bucket_present _ _ _ HM Hin) as (k'' & Hf & Hin'').
      destruct Hnot. split; [done|]. by rewrite (Hone c k' k'').
  - intros x k Hx. rewrite in_bucket_update_value by done. split.
    + by intros [[_ ->]|[Hin _]].
    + intros Hin. right. split; [done|]. by intros [-> _].
  - intros a s Ha. simpl. rewrite lookup_app_l; [done|]. by eapply lookup_lt_Some.
  - intros a es Ha. simpl. rewrite lookup_app_l; [done|]. by eapply lookup_lt_Some.
  - by apply view_extend_store_old.
Qed.

Lemma update_moves_only_card_witness :
  bucket_map_at test_store 0
  /\ one_bucket_per_card (view test_store 0)
  /\ view (update 0 7%nat Wrong test_store).2 0 = view test_store 0
  /\ exists k, in_bucket (view (update 0 7%nat Wrong test_store).2
                               (update 0 7%nat Wrong test_store).1) k 7%nat.
Proof.
  split; [exact test_store_at|]. split; [exact test_store_one_bucket|].
  destruct (update_moves_only_card test_store 0 7%nat Wrong
              test_store_at test_store_one_bucket)
    as (_ & (k & Hk & _) & _ & _ & _ & Hview).
  split; [exact Hview|]. by exists k.
Defined.

(** * Further properties *)

(** ** toBucketSets, for every bucket map *)

Lemma NoDup_set_of (l : list CardRef) : NoDup (set_of l).
Proof. apply (NoDup_add_all l []), NoDup_nil_2. Qed.

Lemma dense_sets_length (e : Z * JsSet) (rest : BucketMap) :
  length (dense_sets (e :: rest))
  = Z.to_nat (math_max e.1 (map_keys rest) + 1).
Proof. by rewrite dense_sets_nonempty, length_fmap, length_seqZ. Qed.

Lemma dense_sets_index_of_key (M : BucketMap) (k : Z) :
  0 <= k -> k ∈ map_keys M -> (Z.to_nat k < length (dense_sets M))%nat.
Proof.
  intros Hk Hin. destruct M as [|e rest]; [by apply elem_of_nil in Hin|].
  rewrite dense_sets_length.
  destruct (math_max_spec (map_keys rest) e.1) as [_ Hle].
  specialize (Hle k Hin). lia.
Qed.

(** The cards at an index of the result are those of the bucket with that
    number. *)
Lemma dense_sets_elem (M : BucketMap) (i : nat) (c : CardRef) :
  (exists b, dense_sets M !! i = Some b /\ c ∈ b)
  <-> in_bucket M (Z.of_nat i) c.
Proof.
  unfold in_bucket. split.
  - intros (b & Hb & Hc). pose proof (lookup_lt_Some _ _ _ Hb) as Hi.
    rewrite dense_sets_lookup in Hb by done. injection Hb as <-.
    destruct (map_get M (Z.of_nat i)) as [cards|]; [|by apply elem_of_nil in Hc].
    exists cards. split; [done|]. by apply elem_of_set_of.
  - intros (cards & Hk & Hc).
    assert (i < length (dense_sets M))%nat as Hi.
    { rewrite <- (Nat2Z.id i). apply dense_sets_index_of_key; [lia|].
      by eapply map_get_Some_key. }
    exists (set_of cards). rewrite dense_sets_lookup, Hk by done.
    split; [done|]. by apply elem_of_set_of.
Qed.

(** X1. For every non-empty bucket map, whatever the sign of its keys:
    when the greatest key is below 2^32 - 1, [toBucketSets] returns an array
    of length (greatest key + 1) cut off at 0, so that with negative keys
    only it returns the empty array and the cards are dropped; when the
    greatest key is 2^32 - 1 or more, it throws a [RangeError]. *)
Theorem toBucketSets_length_any (M : BucketMap) :
  M <> [] ->
  exists kmax,
    kmax ∈ map_keys M /\ (forall k, k ∈ map_keys M -> k <= kmax)
    /\ (kmax < 2 ^ 32 - 1 ->
        exists T, toBucketSets M = Returns T
                  /\ length T = Z.to_nat (kmax + 1))
    /\ (kmax < 0 -> toBucketSets M = Returns [])
    /\ (2 ^ 32 - 1 <= kmax -> toBucketSets M = Throws RangeError).
Proof.
  destruct M as [|e rest]; [done|]. intros _.
  exists (math_max e.1 (map_keys rest)).
  destruct (math_max_spec (map_keys rest) e.1) as [Hin Hle].
  destruct (toBucketSets_cases e rest) as [Hlo Hhi].
  split; [exact Hin|]. split; [exact Hle|]. split; [|split; [|exact Hhi]].
  - intros Hk. exists (dense_sets (e :: rest)). split; [by apply Hlo|].
    apply dense_sets_length.
  - intros Hneg. rewrite Hlo by lia. f_equal.
    apply length_zero_iff_nil. rewrite dense_sets_length. lia.
Qed.

Lemma toBucketSets_length_any_witness :
  [(-2, [5%nat]); (-1, [6%nat])] <> ([] : BucketMap)
  /\ toBucketSets [(-2, [5%nat]); (-1, [6%nat])] = Returns [].
Proof.
  split; [discriminate|].
  destruct (toBucketSets_length_any [(-2, [5%nat]); (-1, [6%nat])])
    as (kmax & Hin & _ & _ & Hneg & _); [discriminate|].
  apply Hneg. simpl in Hin. rewrite !elem_of_cons, elem_of_nil in Hin. lia.
Defined.

Lemma dense_sets_sound (M : BucketMap) (i : nat) (s : JsSet) :
  dense_sets M !! i = Some s ->
  NoDup s /\ forall c, c ∈ s <-> in_bucket M (Z.of_nat i) c.
Proof.
  intros Hs. split.
  - pose proof (lookup_lt_Some _ _ _ Hs) as Hi.
    rewrite dense_sets_lookup in Hs by done. injection Hs as <-.
    destruct (map_get M (Z.of_nat i)); [apply NoDup_set_of | apply NoDup_nil_2].
  - intros c. rewrite <- dense_sets_elem. split.
    + intros Hc. by exists s.
    + intros (b & Hb & Hc). congruence.
Qed.

(** X2. Every set of the array that [toBucketSets] returns lists no card
    twice and holds exactly the cards of the bucket whose number is its
    index; no hypothesis on the keys is needed, so no card comes from a
    negative bucket number. *)
Theorem toBucketSets_sound
    (M : BucketMap) (T : list JsSet) (i : nat) (s : JsSet) :
  toBucketSets M = Returns T ->
  T !! i = Some s ->
  NoDup s /\ forall c, c ∈ s <-> in_bucket M (Z.of_nat i) c.
Proof.
  intros HT Hs. apply toBucketSets_returns in HT as ->.
  by apply dense_sets_sound.
Qed.

Lemma toBucketSets_sound_witness :
  toBucketSets [(1, [4%nat; 4%nat]); (-1, [9%nat])] = Returns [[]; [4%nat]]
  /\ NoDup [4%nat]
  /\ forall c, c ∈ [4%nat] <->
               in_bucket [(1, [4%nat; 4%nat]); (-1, [9%nat])] 1 c.
Proof.
  split; [reflexivity|].
  exact (toBucketSets_sound [(1, [4%nat; 4%nat]); (-1, [9%nat])]
           [[]; [4%nat]] 1 [4%nat] eq_refl eq_refl).
Defined.

(** ** getBucketRange and practice after toBucketSets *)

Lemma getBucketRange_occupied (buckets : list JsSet) :
  match getBucketRange buckets with
  | None => forall k, ~ occupied buckets k
  | Some r =>
      occupied buckets (minBucket r) /\ occupied buckets (maxBucket r)
      /\ forall k, occupied buckets k -> minBucket r <= k <= maxBucket r
  end.
Proof.
  unfold getBucketRange.
  destruct (valid_from 0 buckets []) as [|i rest] eqn:E.
  - intros k Hk. apply elem_of_valid in Hk. rewrite E in Hk.
    by apply elem_of_nil in Hk.
  - simpl. destruct (math_min_spec rest i) as [Hmin Hle].
    destruct (math_max_spec rest i) as [Hmax Hge].
    rewrite <- E in Hmin, Hmax, Hle, Hge.
    setoid_rewrite elem_of_valid in Hle. setoid_rewrite elem_of_valid in Hge.
    apply elem_of_valid in Hmin, Hmax. repeat split; auto.
Qed.

Lemma occupied_dense_sets (M : BucketMap) (k : Z) :
  occupied (dense_sets M) k <-> 0 <= k /\ exists c, in_bucket M k c.
Proof.
  unfold occupied. split.
  - intros (j & b & Hb & Hne & ->). split; [lia|].
    destruct b as [|c b]; [done|]. exists c.
    apply dense_sets_elem. exists (c :: b). split; [done|left].
  - intros (Hk & c & Hc). rewrite <- (Z2Nat.id k) in Hc by done.
    apply dense_sets_elem in Hc as (b & Hb & Hc).
    exists (Z.to_nat k), b. repeat split; [done| |lia].
    intros ->. by apply elem_of_nil in Hc.
Qed.

Lemma getBucketRange_dense_sets (M : BucketMap) :
  (getBucketRange (dense_sets M) = None <->
   forall k c, 0 <= k -> ~ in_bucket M k c)
  /\ (forall r, getBucketRange (dense_sets M) = Some r ->
        0 <= minBucket r
        /\ (exists c, in_bucket M (minBucket r) c)
        /\ (exists c, in_bucket M (maxBucket r) c)
        /\ forall k c, 0 <= k -> in_bucket M k c ->
                       minBucket r <= k <= maxBucket r).
Proof.
  pose proof (getBucketRange_occupied (dense_sets M)) as H.
  destruct (getBucketRange (dense_sets M)) as [r|].
  - destruct H as (Hlo & Hhi & Hall).
    apply occupied_dense_sets in Hlo as [Hlo0 Hlo].
    apply occupied_dense_sets in Hhi as [_ Hhi]. split.
    + split; [done|]. intros Hnone. destruct Hlo as [c Hc].
      by destruct (Hnone _ c Hlo0).
    + intros r' [= <-]. repeat split; try done.
      all: apply Hall, occupied_dense_sets; eauto.
  - split; [|done]. split; [|done]. intros _ k c Hk Hc.
    apply (H k), occupied_dense_sets. eauto.
Qed.

(** X3. When [toBucketSets] returns, the range of the array is absent
    exactly when no bucket with a number from 0 on holds a card; otherwise it
    is made of the least and the greatest such number of a bucket that holds
    a card. *)
Theorem getBucketRange_toBucketSets (M : BucketMap) (T : list JsSet) :
  toBucketSets M = Returns T ->
  (getBucketRange T = None <-> forall k c, 0 <= k -> ~ in_bucket M k c)
  /\ (forall r, getBucketRange T = Some r ->
        0 <= minBucket r
        /\ (exists c, in_bucket M (minBucket r) c)
        /\ (exists c, in_bucket M (maxBucket r) c)
        /\ forall k c, 0 <= k -> in_bucket M k c ->
                       minBucket r <= k <= maxBucket r).
Proof.
  intros HT. apply toBucketSets_returns in HT as ->.
  apply getBucketRange_dense_sets.
Qed.

Lemma getBucketRange_toBucketSets_witness :
  toBucketSets [(4, []); (1, [3%nat]); (2, [5%nat])]
  = Returns [[]; [3%nat]; [5%nat]; []; []]
  /\ getBucketRange [[]; [3%nat]; [5%nat]; []; []]
     = Some {| minBucket := 1; maxBucket := 2 |}
  /\ 1 <= 2 <= 2.
Proof.
  split; [reflexivity|]. split; [reflexivity|].
  destruct (proj2 (getBucketRange_toBucketSets
                     [(4, []); (1, [3%nat]); (2, [5%nat])]
                     [[]; [3%nat]; [5%nat]; []; []] eq_refl)
                  {| minBucket := 1; maxBucket := 2 |} eq_refl)
    as (_ & _ & _ & Hall).
  apply (Hall 2 5%nat); [lia|].
  exists [5%nat]. split; [reflexivity|left].
Defined.

Lemma practice_dense_sets (M : BucketMap) (day : Z) (c : CardRef) :
  c ∈ practice (dense_sets M) day <->
  in_bucket M 0 c
  \/ exists k, 0 < k /\ in_bucket M k c /\ day `mod` k = 0.
Proof.
  rewrite elem_of_practice.
  rewrite (dense_sets_elem M 0 c). simpl.
  apply or_iff_compat_l. split.
  - intros (i & b & Hi & Hb & Hc & Hd). exists (Z.of_nat i).
    split; [lia|]. split.
    + apply dense_sets_elem. eauto.
    + apply rem_zero_iff_mod_zero; [lia|done].
  - intros (k & Hk & Hc & Hd). rewrite <- (Z2Nat.id k) in Hc, Hd by lia.
    apply dense_sets_elem in Hc as (b & Hb & Hc).
    exists (Z.to_nat k), b. repeat split; [lia|done|done|].
    apply rem_zero_iff_mod_zero; [lia|done].
Qed.

(** X4. When [toBucketSets] returns, a card of the bucket map is
    practised on [day] exactly when it is in bucket 0, or in a bucket
    [k > 0] with [day mod k = 0]; cards under negative bucket numbers are
    never practised. *)
Theorem practice_toBucketSets
    (M : BucketMap) (T : list JsSet) (day : Z) (c : CardRef) :
  toBucketSets M = Returns T ->
  c ∈ practice T day <->
  in_bucket M 0 c
  \/ exists k, 0 < k /\ in_bucket M k c /\ day `mod` k = 0.
Proof.
  intros HT. apply toBucketSets_returns in HT as ->.
  apply practice_dense_sets.
Qed.

Lemma practice_toBucketSets_witness :
  toBucketSets [(3, [5%nat]); (0, [1%nat]); (-1, [9%nat])]
  = Returns [[1%nat]; []; []; [5%nat]]
  /\ 5%nat ∈ practice [[1%nat]; []; []; [5%nat]] (-6).
Proof.
  split; [reflexivity|].
  apply (practice_toBucketSets [(3, [5%nat]); (0, [1%nat]); (-1, [9%nat])]
           [[1%nat]; []; []; [5%nat]] (-6) 5%nat eq_refl).
  right. exists 3. split; [lia|]. split; [|reflexivity].
  exists [5%nat]. split; [reflexivity|left].
Defined.

(** X5. The range returned by [getBucketRange] lies within the sequence:
    0 <= minBucket <= maxBucket < length. *)
Theorem getBucketRange_bounds (buckets : list JsSet) (r : BucketRange) :
  getBucketRange buckets = Some r ->
  0 <= minBucket r <= maxBucket r /\ maxBucket r < Z.of_nat (length buckets).
Proof.
  intros Hr. pose proof (getBucketRange_occupied buckets) as H.
  rewrite Hr in H. destruct H as (Hlo & Hhi & Hall).
  pose proof (Hall _ Hlo) as [_ Hle].
  destruct Hlo as (j & b & _ & _ & Hj).
  destruct Hhi as (j' & b' & Hb' & _ & Hj').
  apply lookup_lt_Some in Hb'. lia.
Qed.

Lemma getBucketRange_bounds_witness :
  getBucketRange [[]; [1%nat]; []; [2%nat]; []]
  = Some {| minBucket := 1; maxBucket := 3 |}
  /\ (0 <= 1 <= 3 /\ 3 < 5).
Proof.
  split; [reflexivity|].
  exact (getBucketRange_bounds [[]; [1%nat]; []; [2%nat]; []]
           {| minBucket := 1; maxBucket := 3 |} eq_refl).
Defined.

(** ** practice: the days *)

(** The second loop depends on the day through the remainders only. *)
Lemma practice_from_divisors (day day' : Z) (buckets : list JsSet) :
  forall (index : Z) (acc : JsSet),
    (forall i, 0 < i -> index <= i < index + Z.of_nat (length buckets) ->
               (Z.rem day i = 0 <-> Z.rem day' i = 0)) ->
    practice_from day index buckets acc = practice_from day' index buckets acc.
Proof.
  induction buckets as [|bucket rest IH]; intros index acc Hdiv; simpl; [done|].
  simpl length in Hdiv.
  assert ((0 <? index) && (0 <? set_size bucket) && (Z.rem day index =? 0)
          = (0 <? index) && (0 <? set_size bucket) && (Z.rem day' index =? 0))
    as ->.
  { destruct (Z.ltb_spec 0 index) as [Hpos|]; [|done]. simpl. f_equal.
    apply eq_true_iff_eq. rewrite !Z.eqb_eq. apply Hdiv; lia. }
  apply IH. intros i Hi Hr. apply Hdiv; lia.
Qed.

Lemma practice_divisors (buckets : list JsSet) (day day' : Z) :
  (forall i, 0 < i < Z.of_nat (length buckets) -> ((i | day) <-> (i | day'))) ->
  practice buckets day = practice buckets day'.
Proof.
  intros Hdiv. unfold practice. apply practice_from_divisors.
  intros i Hi Hr. rewrite !Z.rem_divide by lia. apply Hdiv. lia.
Qed.

(** X6. A negative day selects the same cards, in the same order, as the
    positive day of the same magnitude. *)
Theorem practice_negative_day (buckets : list JsSet) (day : Z) :
  practice buckets (- day) = practice buckets day.
Proof.
  apply practice_divisors. intros i _. apply Z.divide_opp_r.
Qed.

(** X7. The selection is periodic: adding to the day a number that every
    bucket index from 1 on divides does not change the result. *)
Theorem practice_period (buckets : list JsSet) (day period : Z) :
  (forall i, 0 < i < Z.of_nat (length buckets) -> (i | period)) ->
  practice buckets (day + period) = practice buckets day.
Proof.
  intros Hp. apply practice_divisors. intros i Hi. split.
  - intros Hd. apply (Z.divide_add_cancel_r i period day); [by apply Hp|].
    by rewrite Z.add_comm.
  - intros Hd. apply Z.divide_add_r; [done | by apply Hp].
Qed.

Lemma practice_period_witness :
  practice [[1%nat]; [2%nat]; [3%nat]; [4%nat]] (5 + 6)
  = practice [[1%nat]; [2%nat]; [3%nat]; [4%nat]] 5.
Proof.
  apply practice_period. intros i Hi. simpl in Hi.
  assert (i = 1 \/ i = 2 \/ i = 3) as [-> | [-> | ->]] by lia.
  - by exists 6.
  - by exists 3.
  - by exists 2.
Defined.

(** X8. On a day other than 0, every practised card is in bucket 0 or in a
    bucket whose index is at most the magnitude of the day: the buckets
    beyond it are not reviewed. *)
Theorem practice_within_day (buckets : list JsSet) (day : Z) (c : CardRef) :
  day <> 0 ->
  c ∈ practice buckets day ->
  exists (i : nat) (b : JsSet),
    buckets !! i = Some b /\ c ∈ b /\ Z.of_nat i <= Z.abs day.
Proof.
  intros Hday Hc. apply elem_of_practice in Hc
    as [(b0 & Hb0 & Hc)|(i & b & Hi & Hb & Hc & Hrem)].
  - exists 0%nat, b0. repeat split; [done..|lia].
  - exists i, b. repeat split; [done..|].
    apply Z.rem_divide in Hrem; [|lia].
    apply Z.divide_abs_r in Hrem. apply Z.divide_pos_le in Hrem; lia.
Qed.

Lemma practice_within_day_witness :
  2 <> 0
  /\ 5%nat ∈ practice [[]; [4%nat]; [5%nat]; [6%nat]] 2
  /\ exists (i : nat) (b : JsSet),
       [[]; [4%nat]; [5%nat]; [6%nat]] !! i = Some b /\ 5%nat ∈ b
       /\ Z.of_nat i <= Z.abs 2.
Proof.
  assert (5%nat ∈ practice [[]; [4%nat]; [5%nat]; [6%nat]] 2) as Hin.
  { apply (bool_decide_unpack _). by vm_compute. }
  split; [lia|]. split; [exact Hin|].
  apply (practice_within_day [[]; [4%nat]; [5%nat]; [6%nat]] 2 5%nat);
    [lia | exact Hin].
Defined.

(** X9. On every day the result of [practice] lists no card twice, also
    when a card is in several buckets that are due. *)
Theorem practice_no_repetition (buckets : list JsSet) (day : Z) :
  NoDup (practice buckets day).
Proof.
  unfold practice. apply NoDup_practice_from.
  destruct (buckets !! 0%nat); [apply NoDup_add_all|]; apply NoDup_nil_2.
Qed.

(** ** update: further properties *)

Section UpdateMore.
Implicit Types (st old : Store) (B M : BucketMap) (c x : CardRef) (k : Z).

Lemma update_result st m c d :
  bucket_map_at st m ->
  (update m c d st).1 = length (maps st)
  /\ (update m c d st).2 = extend_store st (update_value (view st m) c d)
  /\ view (update m c d st).2 (update m c d st).1
     = update_value (view st m) c d.
Proof.
  intros Hm. rewrite update_run by done. simpl.
  by rewrite view_extend_store.
Qed.

Lemma bucket_map_at_new old B :
  NoDup (map_keys B) -> bucket_map_at (extend_store old B) (length (maps old)).
Proof.
  intros HB. exists (zip B.*1 (seq (length (sets old)) (length B))).
  split; [|split].
  - unfold extend_store. simpl. by apply list_lookup_middle.
  - by rewrite entries_keys.
  - apply Forall_forall. intros [k a] Hin. simpl.
    apply elem_of_zip_r in Hin. apply list_elem_of_In, in_seq in Hin.
    rewrite length_app, length_fmap. lia.
Qed.

Lemma bucket_map_at_old old B m :
  bucket_map_at old m -> bucket_map_at (extend_store old B) m.
Proof.
  intros (es & Hm & Hnd & Hes). exists es. split; [|split; [done|]].
  - unfold extend_store. simpl. rewrite lookup_app_l; [done|].
    by eapply lookup_lt_Some.
  - eapply Forall_impl; [exact Hes|]. intros e He. simpl in *.
    rewrite length_app. lia.
Qed.

Lemma found_of_in_bucket M c k :
  NoDup (map_keys M) -> one_bucket_per_card M ->
  in_bucket M k c -> found_bucket M c = Some k.
Proof.
  intros HM Hone Hin.
  destruct (current_bucket_present _ _ _ HM Hin) as (k' & Hf & Hin').
  by rewrite (Hone c k k').
Qed.

Lemma update_value_card_once M c d k :
  NoDup (map_keys M) -> one_bucket_per_card M ->
  in_bucket (update_value M c d) k c ->
  k = new_bucket d (current_bucket M c).
Proof.
  intros HM Hone Hk. apply in_bucket_update_value in Hk; [|done].
  destruct Hk as [[-> _]|[Hin Hnot]]; [done|].
  destruct Hnot. split; [done|]. by apply found_of_in_bucket.
Qed.

Lemma update_value_one_bucket M c d :
  NoDup (map_keys M) -> one_bucket_per_card M ->
  one_bucket_per_card (update_value M c d).
Proof.
  intros HM Hone x k1 k2 H1 H2.
  destruct (decide (x = c)) as [->|Hne].
  - apply update_value_card_once in H1, H2; try done. congruence.
  - apply in_bucket_update_value in H1, H2; try done.
    destruct H1 as [[_ ?]|[H1 _]]; [done|].
    destruct H2 as [[_ ?]|[H2 _]]; [done|].
    by apply (Hone x).
Qed.

Lemma update_value_key_list M c d :
  map_keys (update_value M c d)
  = map_keys M
    ++ (if bool_decide (new_bucket d (current_bucket M c) ∈ map_keys M)
        then [] else [new_bucket d (current_bucket M c)]).
Proof.
  unfold update_value, current_bucket. rewrite found_bucket_copy.
  set (nb := new_bucket d (default 0 (found_bucket M c))).
  unfold map_keys at 1. rewrite add_to_bucket_keys.
  assert (map_keys (remove_first_value (copy_value M) c) = map_keys M) as Hk.
  { unfold map_keys. rewrite remove_first_value_keys. apply copy_value_keys. }
  unfold ensure_bucket.
  destruct (map_has (remove_first_value (copy_value M) c) nb) eqn:E.
  - apply map_has_true in E. rewrite Hk in E.
    rewrite bool_decide_eq_true_2 by done. rewrite app_nil_r. exact Hk.
  - assert (nb ∉ map_keys M) as Hnb.
    { intros Hin. rewrite <- Hk in Hin. apply map_has_true in Hin. congruence. }
    rewrite bool_decide_eq_false_2 by done.
    rewrite map_set_fresh by (by rewrite Hk).
    rewrite fmap_app. simpl. f_equal. exact Hk.
Qed.

Lemma update_value_no_repetition M c d :
  sets_without_repetition (update_value M c d).
Proof.
  unfold sets_without_repetition, update_value.
  set (nb := new_bucket d _).
  assert (forall B, Forall (fun e => NoDup e.2) B ->
                    Forall (fun e => NoDup e.2) (add_to_bucket B nb c)) as Hadd.
  { induction B as [|[k' s] B IH]; intros HB; simpl; [done|].
    apply Forall_cons in HB as [Hs HB]. destruct (k' =? nb).
    - apply Forall_cons. split; [by apply NoDup_set_add | done].
    - apply Forall_cons. split; [done | auto]. }
  assert (forall B, Forall (fun e => NoDup e.2) B ->
                    Forall (fun e => NoDup e.2) (ensure_bucket B nb)) as Hens.
  { intros B HB. unfold ensure_bucket. destruct (map_has B nb) eqn:E; [done|].
    rewrite map_set_fresh.
    - apply Forall_app. split; [done|]. repeat constructor.
    - intros Hin. apply map_has_true in Hin. congruence. }
  assert (forall B, Forall (fun e => NoDup e.2) B ->
                    Forall (fun e => NoDup e.2) (remove_first_value B c)) as Hrem.
  { induction B as [|[k' s] B IH]; intros HB; simpl; [done|].
    apply Forall_cons in HB as [Hs HB]. destruct (set_has s c).
    - apply Forall_cons. split; [|done]. simpl. unfold set_delete.
      by apply NoDup_ListNoDup, List.NoDup_filter, NoDup_ListNoDup.
    - apply Forall_cons. split; [done | auto]. }
  apply Hadd, Hens, Hrem. unfold copy_value. apply Forall_fmap, Forall_forall.
  intros e _. apply NoDup_set_of.
Qed.
End UpdateMore.




(** X11. [update] returns a well-formed map in the store it leaves, so
    that it can be applied again; the argument is still a well-formed map
    there.  No set of the result lists a card twice, and when every card of
    the input is in at most one bucket, so is every card of the result. *)
Theorem update_keeps_invariants
    (st : Store) (m : nat) (c : CardRef) (d : AnswerDifficulty) :
  bucket_map_at st m ->
  let st' := (update m c d st).2 in
  let M' := view st' (update m c d st).1 in
  bucket_map_at st' (update m c d st).1
  /\ bucket_map_at st' m
  /\ sets_without_repetition M'
  /\ (one_bucket_per_card (view st m) -> one_bucket_per_card M').
Proof.
  intros Hm st' M'. pose proof (view_keys_NoDup _ _ Hm) as HM.
  destruct (update_result st m c d Hm) as (Hr & Hst & HM').
  fold st' in Hst. fold st' M' in HM'. rewrite Hr, Hst, HM'.
  split; [|split; [|split]].
  - by apply bucket_map_at_new, update_value_keys.
  - by apply bucket_map_at_old.
  - apply update_value_no_repetition.
  - by apply update_value_one_bucket.
Qed.

Lemma update_keeps_invariants_witness :
  bucket_map_at test_store 0
  /\ bucket_map_at (update 0 7%nat Easy test_store).2
                   (update 0 7%nat Easy test_store).1.
Proof.
  split; [exact test_store_at|].
  exact (proj1 (update_keeps_invariants test_store 0 7%nat Easy test_store_at)).
Defined.

(** X12. [update] never removes a bucket: the keys of the result are the
    keys of the input in the same order, followed by the new bucket number
    when it was not a key; a bucket that loses its last card stays, empty. *)
Theorem update_keys
    (st : Store) (m : nat) (c : CardRef) (d : AnswerDifficulty) :
  bucket_map_at st m ->
  let M := view st m in
  let M' := view (update m c d st).2 (update m c d st).1 in
  let newBucket := new_bucket d (current_bucket M c) in
  map_keys M'
  = map_keys M ++ (if bool_decide (newBucket ∈ map_keys M) then []
                   else [newBucket]).
Proof.
  intros Hm M M' nb.
  destruct (update_result st m c d Hm) as (_ & _ & HM'). fold M M' in HM'.
  rewrite HM'. apply update_value_key_list.
Qed.

Lemma update_keys_witness :
  bucket_map_at test_store 0
  /\ map_keys (view (update 0 7%nat Easy test_store).2
                    (update 0 7%nat Easy test_store).1)
     = [0; 2; 3].
Proof.
  split; [exact test_store_at|].
  exact (update_keys test_store 0 7%nat Easy test_store_at).
Defined.

(** X13. The map returned by [update] is a new object, and so is each of
    its sets: their addresses lie beyond the objects of the initial store and
    differ from one another, so that the result shares no set with the
    argument nor between two of its buckets. *)
Theorem update_fresh_objects
    (st : Store) (m : nat) (c : CardRef) (d : AnswerDifficulty) :
  bucket_map_at st m ->
  let st' := (update m c d st).2 in
  let r := (update m c d st).1 in
  r = length (maps st) /\ r <> m
  /\ exists entries,
       maps st' !! r = Some entries
       /\ Forall (fun e => (length (sets st) <= e.2 < length (sets st'))%nat)
                 entries
       /\ NoDup entries.*2.
Proof.
  intros Hm st' r.
  destruct (update_result st m c d Hm) as (Hr & Hst & _).
  fold r in Hr. fold st' in Hst. rewrite Hr, Hst.
  split; [done|]. split.
  - destruct Hm as (es & Hes & _). apply lookup_lt_Some in Hes. lia.
  - set (B := update_value (view st m) c d).
    exists (zip B.*1 (seq (length (sets st)) (length B))).
    split; [|split].
    + unfold extend_store. simpl. by apply list_lookup_middle.
    + apply Forall_forall. intros [k a] Hin. simpl.
      apply elem_of_zip_r in Hin. apply list_elem_of_In, in_seq in Hin.
      rewrite length_app, length_fmap. lia.
    + rewrite snd_zip by (by rewrite length_fmap, length_seq).
      apply NoDup_ListNoDup, seq_NoDup.
Qed.

Lemma update_fresh_objects_witness :
  bucket_map_at test_store 0
  /\ (update 0 7%nat Hard test_store).1 = 1%nat
  /\ (update 0 7%nat Hard test_store).1 <> 0%nat.
Proof.
  split; [exact test_store_at|].
  destruct (update_fresh_objects test_store 0 7%nat Hard test_store_at)
    as (Hr & Hne & _).
  split; [exact Hr | exact Hne].
Defined.

(** X14. Two updates in a row: when every card is in at most one bucket,
    the bucket found for the card after an update is the new bucket, so a
    second update of the card starts from it; the map given to the first
    update still has its value after both. *)
Theorem update_twice
    (st : Store) (m : nat) (c : CardRef) (d1 d2 : AnswerDifficulty) :
  bucket_map_at st m ->
  one_bucket_per_card (view st m) ->
  let M := view st m in
  let st1 := (update m c d1 st).2 in
  let r1 := (update m c d1 st).1 in
  let st2 := (update r1 c d2 st1).2 in
  let r2 := (update r1 c d2 st1).1 in
  found_bucket (view st1 r1) c = Some (new_bucket d1 (current_bucket M c))
  /\ in_bucket (view st2 r2)
               (new_bucket d2 (new_bucket d1 (current_bucket M c))) c
  /\ (forall k, in_bucket (view st2 r2) k c ->
                k = new_bucket d2 (new_bucket d1 (current_bucket M c)))
  /\ view st2 m = M.
Proof.
  intros Hm Hone M st1 r1 st2 r2.
  pose proof (view_keys_NoDup _ _ Hm) as HM. fold M in HM, Hone.
  destruct (update_result st m c d1 Hm) as (Hr1 & Hst1 & HM1).
  fold r1 in Hr1. fold st1 in Hst1. fold st1 r1 M in HM1.
  set (M1 := update_value M c d1) in *.
  assert (NoDup (map_keys M1)) as HM1k by (by apply update_value_keys).
  assert (one_bucket_per_card M1) as Hone1 by (by apply update_value_one_bucket).
  assert (bucket_map_at st1 r1) as Hm1.
  { rewrite Hr1, Hst1. by apply bucket_map_at_new. }
  assert (found_bucket M1 c = Some (new_bucket d1 (current_bucket M c)))
    as Hfound.
  { apply found_of_in_bucket; [done..|].
    apply in_bucket_update_value; [done|]. by left. }
  destruct (update_result st1 r1 c d2 Hm1) as (Hr2 & Hst2 & HM2).
  fold r2 in Hr2. fold st2 in Hst2. fold st2 r2 in HM2.
  rewrite HM1 in HM2 |- *.
  assert (current_bucket M1 c = new_bucket d1 (current_bucket M c)) as Hcur.
  { unfold current_bucket at 1. by rewrite Hfound. }
  split; [done|]. rewrite HM2. split; [|split].
  - rewrite <- Hcur. apply in_bucket_update_value; [done|]. by left.
  - intros k Hk. rewrite <- Hcur. by eapply update_value_card_once.
  - rewrite Hst2. rewrite view_extend_store_old.
    + rewrite Hst1. by apply view_extend_store_old.
    + rewrite Hst1. by apply bucket_map_at_old.
Qed.

Lemma update_twice_witness :
  bucket_map_at test_store 0
  /\ one_bucket_per_card (view test_store 0)
  /\ in_bucket
       (view (update (update 0 7%nat Easy test_store).1 7%nat Easy
                     (update 0 7%nat Easy test_store).2).2
             (update (update 0 7%nat Easy test_store).1 7%nat Easy
                     (update 0 7%nat Easy test_store).2).1)
       4 7%nat.
Proof.
  split; [exact test_store_at|]. split; [exact test_store_one_bucket|].
  exact (proj1 (proj2 (update_twice test_store 0 7%nat Easy Easy
                         test_store_at test_store_one_bucket))).
Defined.

(** ** update and the number of cards *)

Section UpdateCount.
Implicit Types (B M : BucketMap) (c x : CardRef) (k : Z) (s : JsSet).

Lemma set_of_NoDup s : NoDup s -> set_of s = s.
Proof.
  unfold set_of.
  assert (forall acc, NoDup (acc ++ s) -> foldl set_add acc s = acc ++ s) as H.
  { induction s as [|a s IH]; intros acc Hnd; simpl.
    - by rewrite app_nil_r.
    - assert (a ∉ acc) as Ha.
      { apply NoDup_app in Hnd as (_ & Hdisj & _). intros Hin.
        apply (Hdisj _ Hin). left. }
      unfold set_add at 2. apply set_has_false in Ha. rewrite Ha.
      rewrite IH; [by rewrite <- app_assoc|]. by rewrite <- app_assoc. }
  intros Hs. by apply (H []).
Qed.

Lemma copy_value_id M : sets_without_repetition M -> copy_value M = M.
Proof.
  unfold copy_value. induction 1 as [|[k s] M Hs _ IH]; simpl; [done|].
  simpl in Hs. rewrite set_of_NoDup by done. f_equal. exact IH.
Qed.

Lemma set_size_delete s c :
  NoDup s -> c ∈ s -> set_size (set_delete s c) = set_size s - 1.
Proof.
  unfold set_size, set_delete. induction s as [|a s IH]; intros Hnd Hc.
  - by apply elem_of_nil in Hc.
  - apply NoDup_cons in Hnd as [Ha Hnd]. simpl.
    case_bool_decide as Hac; simpl.
    + subst a. assert (List.filter (fun x => negb (bool_decide (x = c))) s = s)
        as ->; [|lia].
      clear IH Hc. induction s as [|b s IH]; simpl; [done|].
      apply not_elem_of_cons in Ha as [Hne Ha].
      apply NoDup_cons in Hnd as [_ Hnd].
      rewrite bool_decide_eq_false_2 by done. simpl. f_equal. auto.
    + apply elem_of_cons in Hc as [->|Hc]; [done|].
      specialize (IH Hnd Hc). assert (s <> []) by (by intros ->; apply elem_of_nil in Hc).
      destruct s; [done|]. simpl length in *. lia.
Qed.

Lemma card_count_app B B' :
  card_count (B ++ B') = card_count B + card_count B'.
Proof.
  induction B as [|e B IH]; simpl; [done|].
  rewrite !card_count_cons, IH. lia.
Qed.

Lemma card_count_remove_first B c :
  sets_without_repetition B ->
  card_count (remove_first_value B c)
  = card_count B - match found_bucket B c with Some _ => 1 | None => 0 end.
Proof.
  induction 1 as [|[k s] B Hs _ IH]; simpl; [done|].
  unfold set_has. case_bool_decide as Hc.
  - rewrite !card_count_cons. simpl. rewrite set_size_delete by done. lia.
  - rewrite !card_count_cons, IH. simpl. lia.
Qed.

Lemma card_count_ensure B k : card_count (ensure_bucket B k) = card_count B.
Proof.
  unfold ensure_bucket. destruct (map_has B k) eqn:E; [done|].
  rewrite map_set_fresh.
  - rewrite card_count_app, card_count_cons.
    change (card_count []) with 0. simpl. unfold set_size. simpl. lia.
  - intros Hin. apply map_has_true in Hin. congruence.
Qed.

Lemma card_count_add B k c s :
  map_get B k = Some s -> c ∉ s ->
  card_count (add_to_bucket B k c) = card_count B + 1.
Proof.
  induction B as [|[k' s'] B IH]; simpl; [done|].
  destruct (k' =? k).
  - intros [= ->] Hc. rewrite !card_count_cons. simpl.
    unfold set_add. apply set_has_false in Hc. rewrite Hc.
    unfold set_size. rewrite length_app. simpl. lia.
  - intros Hs Hc. rewrite !card_count_cons, IH by done. lia.
Qed.

(** The number of cards of the value built by [update]. *)
Lemma card_count_update_value M c d :
  NoDup (map_keys M) -> one_bucket_per_card M -> sets_without_repetition M ->
  card_count (update_value M c d)
  = card_count M + match found_bucket M c with Some _ => 0 | None => 1 end.
Proof.
  intros HM Hone Hsets. unfold update_value.
  rewrite copy_value_id by done.
  set (nb := new_bucket d (current_bucket M c)).
  set (B1 := remove_first_value M c).
  assert (forall k, ~ in_bucket B1 k c) as Hgone.
  { intros k (s & Hs & Hc). subst B1.
    rewrite map_get_remove_first in Hs by done.
    case_decide as Hf.
    - destruct (map_get M k) as [s'|]; [|done]. injection Hs as <-.
      apply elem_of_set_delete in Hc as [_ Hc]. done.
    - apply Hf, found_of_in_bucket; [done..|]. by exists s. }
  destruct (map_get (ensure_bucket B1 nb) nb) as [s|] eqn:Hs.
  - rewrite (card_count_add _ _ _ s Hs).
    + rewrite card_count_ensure. subst B1.
      rewrite card_count_remove_first by done.
      destruct (found_bucket M c); lia.
    + intros Hc. rewrite map_get_ensure, decide_True in Hs by done.
      injection Hs as <-.
      destruct (map_get B1 nb) as [s'|] eqn:Hs'; [|by apply elem_of_nil in Hc].
      apply (Hgone nb). by exists s'.
  - by rewrite map_get_ensure, decide_True in Hs.
Qed.
End UpdateCount.

(** X15. [update] conserves the cards: when every card of the input is in
    at most one bucket and no set lists a card twice, the total counted by
    [computeProgress] on the result is the total on the input if the card
    was in a bucket, and one more if it was in none. *)
Theorem update_total_cards
    (st : Store) (m : nat) (c : CardRef) (d : AnswerDifficulty)
    (history : list HistoryEntry) :
  bucket_map_at st m ->
  one_bucket_per_card (view st m) ->
  sets_without_repetition (view st m) ->
  let M := view st m in
  let M' := view (update m c d st).2 (update m c d st).1 in
  ((exists k, in_bucket M k c) ->
   totalCards (computeProgress M' history)
   = totalCards (computeProgress M history))
  /\ ((forall k, ~ in_bucket M k c) ->
      totalCards (computeProgress M' history)
      = totalCards (computeProgress M history) + 1).
Proof.
  intros Hm Hone Hsets M M'.
  pose proof (view_keys_NoDup _ _ Hm) as HM. fold M in HM, Hone, Hsets.
  destruct (update_result st m c d Hm) as (_ & _ & HM'). fold M M' in HM'.
  rewrite HM'.
  rewrite !computeProgress_unfold by (done || by apply update_value_keys).
  simpl. rewrite card_count_update_value by done. split.
  - intros [k Hk]. rewrite (found_of_in_bucket M c k) by done. lia.
  - intros Hno. destruct (found_bucket M c) as [k|] eqn:E; [|done].
    destruct (Hno k). by apply found_bucket_in.
Qed.

Lemma update_total_cards_witness :
  bucket_map_at test_store 0
  /\ one_bucket_per_card (view test_store 0)
  /\ sets_without_repetition (view test_store 0)
  /\ totalCards (computeProgress
                   (view (update 0 9%nat Easy test_store).2
                         (update 0 9%nat Easy test_store).1) [])
     = totalCards (computeProgress (view test_store 0) []) + 1.
Proof.
  assert (sets_without_repetition (view test_store 0)) as Hsets.
  { repeat constructor. apply not_elem_of_nil. }
  split; [exact test_store_at|]. split; [exact test_store_one_bucket|].
  split; [exact Hsets|].
  apply (proj2 (update_total_cards test_store 0 9%nat Easy []
                  test_store_at test_store_one_bucket Hsets)).
  intros k (s & Hs & Hc).
  change (view test_store 0) with [(0, @nil CardRef); (2, [7%nat])] in Hs.
  cbn [map_get] in Hs.
  destruct (0 =? k); [simplify_eq; by apply elem_of_nil in Hc|].
  destruct (2 =? k); [|done]. simplify_eq.
  rewrite !elem_of_cons, elem_of_nil in Hc. lia.
Defined.

(** ** getHint: further properties *)

Section HintMore.
Import HintRule.

Lemma drop_while_nil (p : N -> bool) (s : jsstring) :
  drop_while p s = [] <-> Forall (fun u => p u = true) s.
Proof.
  induction s as [|u s IH]; simpl.
  - split; [constructor | done].
  - destruct (p u) eqn:E.
    + rewrite IH. split; [by constructor|]. by intros [_ ?]%Forall_cons.
    + split; [done|]. intros [? _]%Forall_cons. congruence.
Qed.

Lemma drop_while_head (p : N -> bool) (s r : jsstring) (u : N) :
  drop_while p s = u :: r -> p u = false.
Proof.
  induction s as [|v s IH]; simpl; [done|].
  destruct (p v) eqn:E; [done|]. by intros [= <- _].
Qed.

(** [trim] leaves nothing exactly of the strings made of white space. *)
Lemma trim_nil_iff (h : jsstring) :
  trim h = [] <-> Forall (fun u => is_space u = true) h.
Proof.
  unfold trim. split.
  - intros Ht. apply (f_equal (@rev N)) in Ht. rewrite rev_involutive in Ht.
    simpl in Ht. apply drop_while_nil in Ht.
    destruct (drop_while is_space h) as [|u r] eqn:E.
    + by apply drop_while_nil.
    + apply drop_while_head in E.
      apply Forall_forall with (x := u) in Ht; [congruence|].
      apply list_elem_of_In, in_rev. rewrite rev_involutive. left. done.
  - intros Hh. apply drop_while_nil in Hh. by rewrite Hh.
Qed.

(** X16. An authored hint counts exactly when it has a code unit that is
    not white space; it is then returned as it is, surrounding white space
    included.  A hint made of white space only is ignored: the result is the
    one of the card without hint. *)
Theorem getHint_authored_criterion (card : Flashcard) (h : jsstring) :
  hint card = Some h ->
  (Exists (fun u => is_space u = false) h -> getHint card = h)
  /\ (Forall (fun u => is_space u = true) h ->
      getHint card = getHint (without_hint card)).
Proof.
  intros Hh. split.
  - intros Hex. unfold getHint. rewrite Hh.
    destruct h as [|u h]; [by apply Exists_nil in Hex|].
    rewrite bool_decide_eq_false_2; [done|].
    intros Ht. apply trim_nil_iff in Ht.
    apply Exists_exists in Hex as (x & Hx & Hsp).
    apply Forall_forall with (x := x) in Ht; [congruence|done].
  - intros Hall. rewrite getHint_no_authored.
    + by rewrite (getHint_no_authored (without_hint card)).
    + unfold no_authored_hint. rewrite Hh. by apply trim_nil_iff.
Qed.

Lemma getHint_authored_criterion_witness :
  getHint (mkCard "Q" "Answer" " see p. 3 ") = lit " see p. 3 "
  /\ getHint (mkCard "Q" "Answer" "  ") = lit "A_____".
Proof.
  split.
  - apply (getHint_authored_criterion (mkCard "Q" "Answer" " see p. 3 ")
             (lit " see p. 3 ") eq_refl).
    apply Exists_cons_tl, Exists_cons_hd. reflexivity.
  - refine (eq_trans (proj2 (getHint_authored_criterion
                               (mkCard "Q" "Answer" "  ") (lit "  ") eq_refl) _)
                     _); [|reflexivity].
    by repeat constructor.
Defined.

Lemma token_units (w : jsstring) :
  Forall (fun u => u = 32%N \/ u = underscore \/ is_ascii_letter u = true)
         (token w).
Proof.
  unfold token, first_alphabetic.
  destruct (List.filter is_ascii_letter w) as [|c r] eqn:E; simpl; [constructor|].
  apply Forall_cons. split.
  - right. right.
    assert (In c (List.filter is_ascii_letter w)) as Hc by (rewrite E; by left).
    by apply filter_In in Hc as [_ ?].
  - apply Forall_replicate. auto.
Qed.

Lemma join_units (P : N -> Prop) (ws : list jsstring) :
  P 32%N -> Forall (Forall P) ws -> Forall P (join space ws).
Proof.
  intros Hsp. induction 1 as [|w ws Hw Hws IH]; simpl; [constructor|].
  destruct ws as [|w' ws]; [done|].
  apply Forall_app. split; [done|]. apply Forall_cons. split; [done|].
  exact IH.
Qed.

(** X17. A derived hint shows nothing but first letters: each of its code
    units is a space, an underscore or a letter of a-z, A-Z; digits,
    punctuation and other characters of the answer never appear. *)
Theorem getHint_units (card : Flashcard) :
  no_authored_hint card ->
  Forall (fun u => u = 32%N \/ u = underscore \/ is_ascii_letter u = true)
         (getHint card).
Proof.
  intros Hno. rewrite getHint_no_authored by done.
  destruct (back card) as [[|u b]|]; [constructor| |constructor].
  rewrite masked_rule. apply join_units; [by left|].
  apply Forall_forall. intros w Hw. apply list_elem_of_In, in_map_iff in Hw.
  destruct Hw as (w' & <- & _). apply token_units.
Qed.

Lemma getHint_units_witness :
  Forall (fun u => u = 32%N \/ u = underscore \/ is_ascii_letter u = true)
         (getHint (mkCard "Q" "42 (big) x-rays!" "")).
Proof.
  apply (getHint_units (mkCard "Q" "42 (big) x-rays!" "")). reflexivity.
Defined.

Lemma length_runs (s : jsstring) : (length (runs s) <= length s)%nat.
Proof.
  induction s as [|u s IH]; simpl; [done|].
  destruct (is_space u); simpl; [|lia].
  destruct (runs s) as [|[|] ?]; simpl in *; lia.
Qed.

Lemma join_two (w w' : jsstring) (ws : list jsstring) :
  join space (w :: w' :: ws) = w ++ space ++ join space (w' :: ws).
Proof. done. Qed.

Lemma length_join_words (l : list item) :
  length (join space (words l)) = length l.
Proof.
  induction l as [|[|c] t IH]; simpl; [done| |].
  - pose proof (words_nonempty t) as Hne.
    destruct (words t) as [|w ws] eqn:E; [done|].
    change (S (length (join space (w :: ws))) = S (length t)). by rewrite IH.
  - pose proof (words_nonempty t) as Hne.
    destruct (words t) as [|w ws] eqn:E; [done|]. simpl extend.
    destruct ws as [|w' ws]; simpl in *; by rewrite IH.
Qed.

Lemma length_token (w : jsstring) : (length (token w) <= length w)%nat.
Proof.
  unfold token, first_alphabetic.
  destruct (List.filter is_ascii_letter w) as [|c r] eqn:E; simpl; [lia|].
  rewrite length_replicate. destruct w; [done|]. simpl. lia.
Qed.

Lemma length_join_tokens (ws : list jsstring) :
  (length (join space (map token ws)) <= length (join space ws))%nat.
Proof.
  induction ws as [|w ws IH]; [done|].
  destruct ws as [|w' ws].
  - simpl. apply length_token.
  - change (map token (w :: w' :: ws))
      with (token w :: token w' :: map token ws).
    rewrite !join_two, !length_app. simpl length.
    pose proof (length_token w). simpl in IH. lia.
Qed.

(** X18. A derived hint is never longer than the answer it is made from. *)
Theorem getHint_length (card : Flashcard) (b : jsstring) :
  no_authored_hint card ->
  back card = Some b ->
  (length (getHint card) <= length b)%nat.
Proof.
  intros Hno Hb. rewrite getHint_no_authored, Hb by done.
  destruct b as [|u b]; [done|]. rewrite masked_rule.
  etrans; [apply length_join_tokens|].
  rewrite length_join_words. apply length_runs.
Qed.

Lemma getHint_length_witness :
  (length (getHint (mkCard "Q" "  to   be or  not " "")) <= 18)%nat.
Proof.
  apply (getHint_length (mkCard "Q" "  to   be or  not " "")
           (lit "  to   be or  not ")); reflexivity.
Defined.
End HintMore.

(** ** computeProgress: further properties *)

Lemma map_get_sizes (M : BucketMap) (k : Z) :
  map_get ((fun e => (e.1, set_size e.2)) <$> M) k = set_size <$> map_get M k.
Proof.
  induction M as [|[k' s] M IH]; simpl; [done|].
  by destruct (k' =? k).
Qed.

(** X19. [cardsPerBucket] has one entry for each bucket of the input, in
    the same order, and gives each bucket its number of cards; a bucket
    number that is not a key of the input is not a key of it either. *)
Theorem computeProgress_per_bucket
    (M : BucketMap) (history : list HistoryEntry) :
  NoDup (map_keys M) ->
  map_keys (cardsPerBucket (computeProgress M history)) = map_keys M
  /\ forall k, map_get (cardsPerBucket (computeProgress M history)) k
               = set_size <$> map_get M k.
Proof.
  intros HM. rewrite computeProgress_unfold by done. simpl. split.
  - unfold map_keys. rewrite <- list_fmap_compose. by apply list_fmap_ext.
  - apply map_get_sizes.
Qed.

Lemma computeProgress_per_bucket_witness :
  NoDup (map_keys [(5, [1%nat; 2%nat]); (0, [])])
  /\ map_keys (cardsPerBucket (computeProgress [(5, [1%nat; 2%nat]); (0, [])] []))
     = [5; 0].
Proof.
  assert (NoDup (map_keys [(5, [1%nat; 2%nat]); (0, @nil CardRef)])) as Hnd.
  { apply (bool_decide_unpack _). by vm_compute. }
  split; [exact Hnd|].
  exact (proj1 (computeProgress_per_bucket _ [] Hnd)).
Defined.

Lemma weighted_count_bounds (M : BucketMap) (lo hi : Z) :
  Forall (fun k => lo <= k <= hi) (map_keys M) ->
  lo * card_count M <= weighted_count M <= hi * card_count M.
Proof.
  unfold map_keys. induction M as [|[k s] M IH]; intros Hk.
  - unfold card_count, weighted_count. simpl. lia.
  - apply Forall_cons in Hk as [Hk HM]. specialize (IH HM).
    rewrite card_count_cons, weighted_count_cons. simpl in *.
    assert (0 <= set_size s) by (unfold set_size; lia). nia.
Qed.

Lemma mastered_count_bounds (M : BucketMap) :
  0 <= mastered_count M <= card_count M.
Proof.
  unfold mastered_count. induction M as [|[k s] M IH]; simpl.
  - unfold card_count. simpl. lia.
  - assert (0 <= set_size s) by (unfold set_size; lia).
    destruct (3 <=? k); rewrite !card_count_cons; simpl; lia.
Qed.

(** X20. Bounds of the statistics: the mastered cards are between 0 and the
    total; and when the bucket numbers are not negative and the products of
    a bucket number and the total are below 2^53, [averageBucket], for a
    map with at least one card, lies between any two integers that enclose
    all bucket numbers of the map. *)
Theorem computeProgress_bounds
    (M : BucketMap) (history : list HistoryEntry) (lo hi : Z) :
  NoDup (map_keys M) ->
  Forall (fun k => lo <= k <= hi) (map_keys M) ->
  0 <= masteredCards (computeProgress M history)
    <= totalCards (computeProgress M history)
  /\ (0 <= lo -> 0 < totalCards (computeProgress M history) < 2 ^ 53 ->
      hi * totalCards (computeProgress M history) < 2 ^ 53 ->
      Binary64.leb (Binary64.of_Z lo)
                   (averageBucket (computeProgress M history)) = true
      /\ Binary64.leb (averageBucket (computeProgress M history))
                      (Binary64.of_Z hi) = true).
Proof.
  intros HM Hk. rewrite computeProgress_unfold by done.
  cbn [totalCards averageBucket masteredCards].
  split; [apply mastered_count_bounds|]. intros Hlo [Hpos Hcard] Hhi.
  destruct (Z.ltb_spec 0 (card_count M)); [|lia].
  pose proof (weighted_count_bounds M lo hi Hk) as [HWlo HWhi].
  set (T := card_count M) in *. set (W := weighted_count M) in *.
  assert (lo <= hi) as Hlh by nia.
  assert (0 <= hi < 2 ^ 53) as Hhi' by nia.
  assert (weighted_sum M = Binary64.of_Z W) as ->.
  { apply (weighted_sum_exact M 0); [lia| |done|fold W; lia].
    unfold map_keys in Hk. rewrite Forall_fmap in Hk.
    eapply Forall_impl; [exact Hk|]. intros e He. simpl in He. lia. }
  destruct (decide (W = 0)) as [HW0|HW0].
  { rewrite HW0.
    destruct (of_Z_pos T ltac:(lia)) as (mT & eT & -> & _).
    assert (lo = 0) as -> by nia. split; [done|].
    destruct (decide (hi = 0)) as [->|Hh0]; [done|].
    by destruct (of_Z_pos hi ltac:(lia)) as (mh & eh & -> & _). }
  assert (0 < W < 2 ^ 53) as HW by nia.
  assert (0 < hi) as Hh0 by nia.
  destruct (of_Z_pos hi ltac:(lia)) as (mh & eh & Hh & Hdh & Heh & Hmh).
  destruct (quotient_le W T mh eh) as (mq & eq & Hq & _ & _ & Hle);
    try done; try lia.
  { rewrite Hmh. pose proof (pow2_pos (- eh) ltac:(lia)). nia. }
  rewrite Hq, Hh. split; [|done].
  destruct (decide (lo = 0)) as [->|Hl0]; [done|].
  destruct (of_Z_pos lo ltac:(lia)) as (ml & el & Hl & Hdl & Hel & Hml).
  destruct (quotient_ge W T ml el) as (mq' & eq' & Hq' & _ & _ & Hge);
    try done; try lia.
  { rewrite Hml. pose proof (pow2_pos (- el) ltac:(lia)). nia. }
  rewrite Hq in Hq'. injection Hq' as <- <-. by rewrite Hl.
Qed.

Lemma computeProgress_bounds_witness :
  Binary64.leb (Binary64.of_Z 1)
    (averageBucket
       (computeProgress [(1%Z, [1%nat]); (4%Z, [2%nat; 3%nat])] []))
  = true
  /\ Binary64.leb
       (averageBucket
          (computeProgress [(1%Z, [1%nat]); (4%Z, [2%nat; 3%nat])] []))
       (Binary64.of_Z 4)
     = true.
Proof.
  apply (computeProgress_bounds [(1, [1%nat]); (4, [2%nat; 3%nat])] [] 1 4).
  - apply (bool_decide_unpack _). by vm_compute.
  - repeat constructor; simpl; lia.
  - lia.
  - by vm_compute.
  - by vm_compute.
Defined.

Lemma success_count_all (history : list HistoryEntry) :
  success_count history = Z.of_nat (length history)
  <-> Forall (fun entry => difficulty entry <> Wrong) history.
Proof.
  induction history as [|entry rest IH]; simpl; [split; [constructor|done]|].
  pose proof (success_count_bounds rest).
  rewrite Forall_cons, <- IH.
  destruct (difficulty entry); (split; [intros Hs; split | intros [Hd Hs]]);
    first [done | lia | exfalso; lia].
Qed.

Lemma success_count_none (history : list HistoryEntry) :
  success_count history = 0
  <-> Forall (fun entry => difficulty entry = Wrong) history.
Proof.
  induction history as [|entry rest IH]; simpl; [split; [constructor|done]|].
  pose proof (success_count_bounds rest).
  rewrite Forall_cons, <- IH.
  destruct (difficulty entry); (split; [intros Hs; split | intros [Hd Hs]]);
    first [done | lia | exfalso; lia].
Qed.

(** X21. For a history that is not empty, and has fewer than 2^32 entries
    as every array has, [successRate] is the number 100 exactly when no
    entry is [Wrong], and the number 0 exactly when every entry is [Wrong];
    the bucket map plays no part in it. *)
Theorem successRate_extremes (M : BucketMap) (history : list HistoryEntry) :
  history <> [] ->
  Z.of_nat (length history) < 2 ^ 32 ->
  (successRate (computeProgress M history) = Binary64.of_Z 100
   <-> Forall (fun entry => difficulty entry <> Wrong) history)
  /\ (successRate (computeProgress M history) = Binary64.zero
      <-> Forall (fun entry => difficulty entry = Wrong) history).
Proof.
  intros Hne Hlen. rewrite successRate_unfold.
  rewrite <- success_count_all, <- success_count_none.
  assert (0 < Z.of_nat (length history)) as Hn.
  { destruct history; [done|]. simpl length. lia. }
  destruct (success_rate_cases history Hne Hlen)
    as [[Hs ->]|[[Hs ->]|(Hs & m & e & -> & Hle)]].
  - split; split; intros H; first [done | discriminate H | lia].
  - split; split; intros H; first [done | discriminate H | lia].
  - split; split; intros H; first [discriminate H | lia | idtac].
    rewrite of_Z_100 in H. injection H as -> ->. by vm_compute in Hle.
Qed.

Lemma successRate_extremes_witness :
  successRate
    (computeProgress []
       [ {| card := 1%nat; timestamp := 1; difficulty := Wrong |};
         {| card := 1%nat; timestamp := 2; difficulty := Wrong |} ])
  = Binary64.zero.
Proof.
  apply (proj2 (successRate_extremes []
                  [ {| card := 1%nat; timestamp := 1; difficulty := Wrong |};
                    {| card := 1%nat; timestamp := 2; difficulty := Wrong |} ]
                  ltac:(discriminate) ltac:(by vm_compute))).
  by repeat constructor.
Defined.

(** ** toBucketSets: the objects it allocates *)

Section ToBucketSetsRun.
Implicit Types (st : Store) (es : list (Z * nat)).

Lemma map_get_entry {V} (m : list (Z * V)) (k : Z) (v : V) :
  map_get m k = Some v -> (k, v) ∈ m.
Proof.
  induction m as [|[k' v'] m IH]; simpl; [done|].
  destruct (Z.eqb_spec k' k) as [->|Hne].
  - intros [= ->]. left.
  - intros H. right. auto.
Qed.

Lemma alloc_buckets_run es (indices : list Z) :
  forall st,
    Forall (fun e => (e.2 < length (sets st))%nat) es ->
    alloc_buckets es indices st
    = (seq (length (sets st)) (length indices),
       {| sets := sets st ++ (bucket_copy st es <$> indices);
          maps := maps st |}).
Proof.
  induction indices as [|index rest IH]; intros st Hes; simpl.
  - unfold ret. rewrite app_nil_r. by destruct st.
  - assert (forall st1 : Store,
               sets st1 = sets st ++ [bucket_copy st es index] ->
               maps st1 = maps st ->
               alloc_buckets es rest st1
               = (seq (S (length (sets st))) (length rest),
                  {| sets := sets st ++ bucket_copy st es index
                                        :: (bucket_copy st es <$> rest);
                     maps := maps st |})) as Hrest.
    { intros st1 Hs1 Hm1. rewrite IH.
      - rewrite Hs1, Hm1, length_app, Nat.add_1_r, <- app_assoc. simpl.
        do 4 f_equal. apply list_fmap_ext. intros _ i _. unfold bucket_copy.
        destruct (map_get es i) as [a|] eqn:Ha; [|done].
        apply map_get_entry in Ha. rewrite Forall_forall in Hes.
        apply Hes in Ha. simpl in Ha. by rewrite Hs1, lookup_app_l.
      - eapply Forall_impl; [exact Hes|]. intros e He. simpl in *.
        rewrite Hs1, length_app. lia. }
    unfold bind, bucket_copy at 1.
    destruct (map_get es index) as [a|] eqn:Ha; simpl;
      rewrite Hrest by (simpl; unfold bucket_copy; by rewrite ?Ha);
      unfold ret, bucket_copy; by rewrite ?Ha.
Qed.

Lemma view_new_sets (vals : list JsSet) :
  forall pre : list JsSet,
    (fun p => default [] ((pre ++ vals) !! p))
      <$> seq (length pre) (length vals)
    = vals.
Proof.
  induction vals as [|v vals IH]; intros pre; simpl; [done|].
  rewrite list_lookup_middle by done. simpl. f_equal.
  specialize (IH (pre ++ [v])).
  rewrite length_app, Nat.add_1_r, <- !app_assoc in IH. exact IH.
Qed.

Lemma map_get_view st es (k : Z) :
  map_get ((fun e : Z * nat => (e.1, default [] (sets st !! e.2))) <$> es) k
  = (fun a => default [] (sets st !! a)) <$> map_get es k.
Proof.
  induction es as [|[k' a] es IH]; simpl; [done|].
  by destruct (k' =? k).
Qed.

Lemma toBucketSets_store_run st m es :
  maps st !! m = Some es ->
  Forall (fun e => (e.2 < length (sets st))%nat) es ->
  match toBucketSets (view st m) with
  | Throws e => toBucketSets_store m st = (Throws e, st)
  | Returns T =>
      toBucketSets_store m st
      = (Returns (seq (length (sets st)) (length T)),
         {| sets := sets st ++ T; maps := maps st |})
  end.
Proof.
  intros Hm Hes. rewrite (view_entries _ _ _ Hm).
  unfold toBucketSets, toBucketSets_store, bind, map_entries.
  rewrite Hm. simpl.
  match goal with
  | |- match match @map_keys ?V ?v with _ => _ end with _ => _ end =>
      assert (@map_keys V v = map_keys es) as ->
  end.
  { unfold map_keys. rewrite <- list_fmap_compose. by apply list_fmap_ext. }
  destruct (map_keys es) as [|k ks].
  - unfold ret. rewrite app_nil_r. by destruct st.
  - unfold array_from.
    destruct (2 ^ 32 <=? to_length (js_add (math_max k ks) 1)); [done|].
    rewrite alloc_buckets_run by done. unfold ret.
    rewrite !length_fmap. do 3 f_equal.
    apply list_fmap_ext. intros _ i _. rewrite map_get_view.
    unfold bucket_copy. by destruct (map_get es i).
Qed.
End ToBucketSetsRun.

(** X22. [toBucketSets] copies: when it returns, the array is made of new
    sets, one per index and all different, whose values are those of the
    array computed from the value of the map, and the sets and the maps of
    the store it starts from keep their address and their content; when it
    throws, the store is the one it started from. *)
Theorem toBucketSets_store_fresh (st : Store) (m : nat) :
  bucket_map_at st m ->
  match toBucketSets (view st m) with
  | Throws e => toBucketSets_store m st = (Throws e, st)
  | Returns T =>
      exists a st',
        toBucketSets_store m st = (Returns a, st')
        /\ view_array st' a = T
        /\ a = seq (length (sets st)) (length T)
        /\ (forall p s, sets st !! p = Some s -> sets st' !! p = Some s)
        /\ maps st' = maps st
  end.
Proof.
  intros (es & Hm & _ & Hes).
  pose proof (toBucketSets_store_run st m es Hm Hes) as Hrun.
  destruct (toBucketSets (view st m)) as [T|e]; [|exact Hrun].
  eexists _, _. split; [exact Hrun|]. simpl.
  split; [|split; [|split]].
  - unfold view_array. simpl. apply view_new_sets.
  - done.
  - intros p s Hp. rewrite lookup_app_l; [done|]. by eapply lookup_lt_Some.
  - done.
Qed.

Lemma toBucketSets_store_fresh_witness :
  bucket_map_at test_store 0
  /\ exists a st',
       toBucketSets_store 0 test_store = (Returns a, st')
       /\ view_array st' a = dense_sets (view test_store 0)
       /\ a = [2%nat; 3%nat; 4%nat].
Proof.
  split; [exact test_store_at|].
  pose proof (toBucketSets_store_fresh test_store 0 test_store_at) as H.
  change (toBucketSets (view test_store 0))
    with (Returns (dense_sets (view test_store 0))) in H.
  destruct H as (a & st' & Hrun & Hview & Haddr & _).
  exists a, st'. split; [exact Hrun|]. split; [exact Hview | exact Haddr].
Defined.

(** ** update with [Hard] *)

(** X23. Answering [Hard] for a card that is in a bucket, every card being
    in at most one bucket, moves nothing: the result has the keys of the
    input and every card, the updated one included, is in the bucket it was
    in. *)
Theorem update_hard_present
    (st : Store) (m : nat) (c : CardRef) (k0 : Z) :
  bucket_map_at st m ->
  one_bucket_per_card (view st m) ->
  in_bucket (view st m) k0 c ->
  let M := view st m in
  let M' := view (update m c Hard st).2 (update m c Hard st).1 in
  map_keys M' = map_keys M
  /\ forall k x, in_bucket M' k x <-> in_bucket M k x.
Proof.
  intros Hm Hone Hin M M'.
  pose proof (view_keys_NoDup _ _ Hm) as HM. fold M in HM, Hone, Hin.
  destruct (update_result st m c Hard Hm) as (_ & _ & HM'). fold M M' in HM'.
  pose proof (found_of_in_bucket M c k0 HM Hone Hin) as Hf.
  assert (current_bucket M c = k0) as Hcur.
  { unfold current_bucket. by rewrite Hf. }
  rewrite HM'. split.
  - rewrite update_value_key_list. simpl. rewrite Hcur.
    rewrite bool_decide_eq_true_2; [apply app_nil_r|].
    destruct Hin as (s & Hs & _). by eapply map_get_Some_key.
  - intros k x. rewrite in_bucket_update_value by done. simpl. rewrite Hcur.
    split.
    + intros [[-> ->]|[Hk _]]; done.
    + intros Hk. destruct (decide (x = c)) as [->|Hne].
      * left. split; [|done]. by apply (Hone c).
      * right. split; [done|]. by intros [? _].
Qed.

Lemma update_hard_present_witness :
  bucket_map_at test_store 0
  /\ one_bucket_per_card (view test_store 0)
  /\ in_bucket (view test_store 0) 2 7%nat
  /\ map_keys (view (update 0 7%nat Hard test_store).2
                    (update 0 7%nat Hard test_store).1)
     = map_keys (view test_store 0).
Proof.
  assert (in_bucket (view test_store 0) 2 7%nat) as Hin.
  { exists [7%nat]. split; [reflexivity|left]. }
  split; [exact test_store_at|]. split; [exact test_store_one_bucket|].
  split; [exact Hin|].
  exact (proj1 (update_hard_present test_store 0 7%nat 2
                  test_store_at test_store_one_bucket Hin)).
Defined.
